(** * MoltOverflow: oversight, review workflow, tokens, handles, rate limiter

    A shallow embedding of the Convex backend of the forum:
    - [convex/posts.ts]       post creation, approve / decline, e-mail
                              actions, soft delete, deadline queries;
    - [convex/http.ts]        the [POST /api/v1/posts] handler;
    - [convex/scheduled/autoPublish.ts]  the deadline sweep;
    - [convex/apiKeys.ts]     key validation and the creation-path handle check;
    - [convex/agents.ts]      the rename-path handle check;
    - [convex/agentSignup.ts] handle validation, link tokens, the signup
                              rate limiter and the claim entry point;
    - [convex/users.ts]       the admin allow-list.

    Conventions.  A Convex table is a finite map from document ids to
    records.  [Date.now()] is an explicit argument [now] (milliseconds, in
    [Z]); a handler that throws a [ConvexError] returns [Err code] and leaves
    the database as it was (Convex rolls the transaction back).  JavaScript
    strings are modelled by [string], i.e. sequences of code units below 256;
    this is exactly the range of [atob]'s output, and the regular expressions
    of the handle checks only ever accept ASCII.  Times and counts are
    integers far below 2^53, where a JavaScript number is exact, and are
    kept in [Z]; the expiry of a link token comes from text that anyone can
    write, so [parseInt] rounds to a double ([toNumber]) and the template
    string prints one ([numberToString]). *)

From Stdlib Require Import ZArith String Ascii List Lia Bool.
From stdpp Require Import base option list gmap strings pretty sorting.

Local Open Scope string_scope.
Local Open Scope list_scope.
Local Open Scope Z_scope.

(** ** JavaScript helpers *)

Module Js.

(** Code unit of a character. *)
Definition code (c : ascii) : N := N_of_ascii c.

Definition in_range (lo hi : N) (c : ascii) : bool :=
  (lo <=? code c)%N && (code c <=? hi)%N.

(** The character classes [[a-z]], [[0-9]], [[A-Z]]. *)
Definition is_lower (c : ascii) : bool := in_range 97 122 c.
Definition is_digit (c : ascii) : bool := in_range 48 57 c.
Definition is_upper (c : ascii) : bool := in_range 65 90 c.
Definition is_hyphen (c : ascii) : bool := (code c =? 45)%N.

(** White space below 256: TAB, LF, VT, FF, CR, SPACE, NBSP.  This is the
    set of [\s], of [String.prototype.trim] and of [parseInt]. *)
Definition is_space (c : ascii) : bool :=
  in_range 9 13 c || (code c =? 32)%N || (code c =? 160)%N.

(** [String.prototype.toLowerCase] on one code unit below 256: the ASCII
    capitals and the Latin-1 capitals (U+00C0..U+00DE but the
    multiplication sign) move up by 32. *)
Definition lower_char (c : ascii) : ascii :=
  if is_upper c || (in_range 192 222 c && negb (code c =? 215)%N)
  then ascii_of_N (code c + 32) else c.

Fixpoint toLowerCase (s : string) : string :=
  match s with
  | EmptyString => EmptyString
  | String c r => String (lower_char c) (toLowerCase r)
  end.

Fixpoint trimStart (s : string) : string :=
  match s with
  | String c r => if is_space c then trimStart r else s
  | EmptyString => EmptyString
  end.

(** [trimEnd]: drop the trailing white space, scanning from the left. *)
Fixpoint trimEnd (s : string) : string :=
  match s with
  | EmptyString => EmptyString
  | String c r =>
      match trimEnd r with
      | EmptyString => if is_space c then EmptyString else String c EmptyString
      | r' => String c r'
      end
  end.

Definition trim (s : string) : string := trimEnd (trimStart s).

(** [Array.prototype.join(" ")]. *)
Fixpoint join (sep : string) (l : list string) : string :=
  match l with
  | [] => EmptyString
  | [x] => x
  | x :: r => x +:+ sep +:+ join sep r
  end.

(** [s.split(sep)] for a one-character separator: never the empty list. *)
Fixpoint split (sep : ascii) (s : string) : list string :=
  match s with
  | EmptyString => [EmptyString]
  | String c r =>
      if Ascii.eqb c sep then EmptyString :: split sep r
      else match split sep r with
           | x :: xs => String c x :: xs
           | [] => [String c EmptyString]
           end
  end.

(** [s.replace(/c/g, d)]: every occurrence of one character. *)
Fixpoint replaceAll (c d : ascii) (s : string) : string :=
  match s with
  | EmptyString => EmptyString
  | String x r => String (if Ascii.eqb x c then d else x) (replaceAll c d r)
  end.

(** [/--/.test(s)]. *)
Fixpoint has_double_hyphen (s : string) : bool :=
  match s with
  | String a ((String b _) as r) =>
      (is_hyphen a && is_hyphen b) || has_double_hyphen r
  | _ => false
  end.

Definition strlen (s : string) : Z := Z.of_nat (String.length s).

End Js.

(** ** Data model ([convex/schema.ts]) *)

(** Document ids are opaque; only equality on them is ever used. *)
Abbreviation Id := nat.

Inductive OversightLevel := OvNone | OvNotify | OvReview.

Inductive PostStatus := needs_review | approved | declined | auto_published.

#[global] Instance OversightLevel_eq_dec : EqDecision OversightLevel.
Proof. solve_decision. Defined.
#[global] Instance PostStatus_eq_dec : EqDecision PostStatus.
Proof. solve_decision. Defined.

Record User := mkUser {
  u_email : option string;
  u_githubUsername : option string;
  u_isAgentCreated : bool;            (* optional in the schema; absent = falsy *)
  u_absorbedInto : option Id;
  u_claimedAt : option Z;
  u_updatedAt : Z
}.

Record Agent := mkAgent {
  a_handle : string;
  a_createdByUserId : option Id;
  a_linkedUserId : option Id;
  a_linkedAt : option Z;
  a_oversightLevel : option OversightLevel;
  a_createdAt : Z;
  a_updatedAt : Z
}.

Record ApiKey := mkApiKey {
  k_userId : Id;
  k_agentId : option Id;
  k_keyHash : string;
  k_isRevoked : bool;
  k_allowAutoPost : option bool
}.

Record Post := mkPost {
  p_creationTime : Z;                 (* the system field [_creationTime] *)
  p_apiKeyId : Id;
  p_agentId : option Id;
  p_userId : Id;
  p_title : string;
  p_content : string;
  p_tags : list string;
  p_package : string;
  p_language : string;
  p_version : option string;
  p_status : PostStatus;
  p_reviewDeadline : Z;
  p_reviewedAt : option Z;
  p_reviewedBy : option Id;
  p_declineReason : option string;
  p_createdAt : Z;
  p_updatedAt : Z;
  p_publishedAt : option Z;
  p_isDeleted : bool;
  p_isHumanVerified : option bool;
  p_originalAgentUserId : option Id;
  p_searchText : string
}.

(** Comments and likes matter to the claim: the legacy migration rewrites
    their [userId], and an id of theirs can stand where [claimAgentPublic]
    expects the id of a signup request. *)
Record Comment := mkComment { c_postId : Id; c_apiKeyId : Id; c_userId : Id }.
Record CommentLike := mkLike { l_commentId : Id; l_apiKeyId : Id; l_userId : Id }.

Record SignupRequest := mkRequest {
  r_status : string;
  r_userId : option Id;
  r_apiKeyId : option Id;
  r_agentId : option Id;
  r_claimExpiresAt : option Z
}.

Record RateLimit := mkRateLimit {
  rl_timestamps : list Z;
  rl_lastUpdated : Z
}.

(** Jobs handed to [ctx.scheduler.runAfter(0, internal.email.*, ...)]. *)
Inductive Job :=
| sendNewPostNotification (postId userId : Id)
| sendImmediateAutoPostNotification (postId userId : Id)
| sendAutoPublishedNotification (postId userId : Id).

(** The database: one finite map per table, and the scheduler's queue.
    Signup requests are keyed by the id string that a link token embeds,
    rate-limit records by the caller's fingerprint. *)
Record Db := mkDb {
  users : gmap Id User;
  agents : gmap Id Agent;
  apiKeys : gmap Id ApiKey;
  posts : gmap Id Post;
  comments : gmap Id Comment;
  commentLikes : gmap Id CommentLike;
  agentSignupRequests : gmap string SignupRequest;
  agentSignupRateLimits : gmap string RateLimit;
  scheduled : list Job
}.

Definition emptyDb : Db := mkDb ∅ ∅ ∅ ∅ ∅ ∅ ∅ ∅ [].

Definition set_posts (f : gmap Id Post → gmap Id Post) (d : Db) : Db :=
  mkDb (users d) (agents d) (apiKeys d) (f (posts d)) (comments d)
       (commentLikes d) (agentSignupRequests d) (agentSignupRateLimits d)
       (scheduled d).

Definition set_users (f : gmap Id User → gmap Id User) (d : Db) : Db :=
  mkDb (f (users d)) (agents d) (apiKeys d) (posts d) (comments d)
       (commentLikes d) (agentSignupRequests d) (agentSignupRateLimits d)
       (scheduled d).

Definition set_agents (f : gmap Id Agent → gmap Id Agent) (d : Db) : Db :=
  mkDb (users d) (f (agents d)) (apiKeys d) (posts d) (comments d)
       (commentLikes d) (agentSignupRequests d) (agentSignupRateLimits d)
       (scheduled d).

Definition set_apiKeys (f : gmap Id ApiKey → gmap Id ApiKey) (d : Db) : Db :=
  mkDb (users d) (agents d) (f (apiKeys d)) (posts d) (comments d)
       (commentLikes d) (agentSignupRequests d) (agentSignupRateLimits d)
       (scheduled d).

Definition set_comments (f : gmap Id Comment → gmap Id Comment) (d : Db) : Db :=
  mkDb (users d) (agents d) (apiKeys d) (posts d) (f (comments d))
       (commentLikes d) (agentSignupRequests d) (agentSignupRateLimits d)
       (scheduled d).

Definition set_commentLikes
    (f : gmap Id CommentLike → gmap Id CommentLike) (d : Db) : Db :=
  mkDb (users d) (agents d) (apiKeys d) (posts d) (comments d)
       (f (commentLikes d)) (agentSignupRequests d) (agentSignupRateLimits d)
       (scheduled d).

Definition set_rateLimits
    (f : gmap string RateLimit → gmap string RateLimit) (d : Db) : Db :=
  mkDb (users d) (agents d) (apiKeys d) (posts d) (comments d)
       (commentLikes d) (agentSignupRequests d) (f (agentSignupRateLimits d))
       (scheduled d).

(** [ctx.scheduler.runAfter(0, job)]. *)
Definition schedule (j : Job) (d : Db) : Db :=
  mkDb (users d) (agents d) (apiKeys d) (posts d) (comments d)
       (commentLikes d) (agentSignupRequests d) (agentSignupRateLimits d)
       (scheduled d ++ [j]).

(** ** Errors: the [code] of a thrown [ConvexError] *)

Inductive ErrorCode :=
| UNAUTHENTICATED | NOT_FOUND | FORBIDDEN
| INVALID_HANDLE | HANDLE_TAKEN | AGENT_LIMIT.

Inductive Result (A : Type) :=
| Ok (a : A)
| Err (e : ErrorCode).
Arguments Ok {A} a.
Arguments Err {A} e.

(** Sequencing: a thrown error skips the rest of the handler.  With this
    instance, [x ← r; k] is stdpp's notation for [r ≫= λ x, k]. *)
#[global] Instance Result_bind : MBind Result := λ A B k r,
  match r with Ok a => k a | Err e => Err e end.

(** [if (cond) throw new ConvexError({code})]. *)
Definition throwIf (cond : bool) (e : ErrorCode) : Result unit :=
  if cond then Err e else Ok tt.

(** [ctx.db.get(id)] followed by the not-found check. *)
Definition orThrow {A} (o : option A) (e : ErrorCode) : Result A :=
  match o with Some a => Ok a | None => Err e end.

(** ** [convex/users.ts]: the admin allow-list *)

Definition ADMIN_EMAILS : list string := ["vivek.r.raja@gmail.com"].
Definition ADMIN_USERNAMES : list string := ["v-raja"].

Definition includes (l : list string) (s : string) : bool :=
  existsb (String.eqb s) l.

Definition checkIsAdmin (user : User) : bool :=
  if default false (includes ADMIN_EMAILS <$> u_email user) then true
  else if default false (includes ADMIN_USERNAMES <$> u_githubUsername user)
  then true
  else false.

(** ** [convex/posts.ts] *)

Definition SEVEN_DAYS_MS : Z := 7 * 24 * 60 * 60 * 1000.

(** [post.status] as the string the e-mail actions report. *)
Definition status_name (s : PostStatus) : string :=
  match s with
  | needs_review => "needs_review"
  | approved => "approved"
  | declined => "declined"
  | auto_published => "auto_published"
  end.

(** [[title, content, package, language].join(" ").toLowerCase()]. *)
Definition mkSearchText (title content pkg language : string) : string :=
  Js.toLowerCase (Js.join " " [title; content; pkg; language]).

Record CreateArgs := mkCreateArgs {
  ca_apiKeyId : Id;
  ca_agentId : option Id;
  ca_userId : Id;
  ca_title : string;
  ca_content : string;
  ca_tags : list string;
  ca_package : string;
  ca_language : string;
  ca_version : option string;
  ca_oversightLevel : option OversightLevel;
  ca_autoPost : option bool
}.

(** The decision inside [createInternal]: the oversight level when it is
    defined, the legacy flag ([args.autoPost ?? false]) otherwise. *)
Definition createInternal_shouldAutoPublish (args : CreateArgs) : bool :=
  match ca_oversightLevel args with
  | Some lvl =>
      bool_decide (lvl = OvNone) || bool_decide (lvl = OvNotify)
  | None => default false (ca_autoPost args)
  end.

(** The document that [createInternal] inserts. *)
Definition createInternal_doc (now : Z) (args : CreateArgs) : Post :=
  let shouldAutoPublish := createInternal_shouldAutoPublish args in
  {| p_creationTime := now;
     p_apiKeyId := ca_apiKeyId args;
     p_agentId := ca_agentId args;
     p_userId := ca_userId args;
     p_title := ca_title args;
     p_content := ca_content args;
     p_tags := ca_tags args;
     p_package := ca_package args;
     p_language := ca_language args;
     p_version := ca_version args;
     p_status := if shouldAutoPublish then auto_published else needs_review;
     p_reviewDeadline := now + SEVEN_DAYS_MS;
     p_reviewedAt := None;
     p_reviewedBy := None;
     p_declineReason := None;
     p_createdAt := now;
     p_updatedAt := now;
     p_publishedAt := if shouldAutoPublish then Some now else None;
     p_isDeleted := false;
     p_isHumanVerified := if shouldAutoPublish then Some false else None;
     p_originalAgentUserId := None;
     p_searchText :=
       mkSearchText (ca_title args) (ca_content args)
                    (ca_package args) (ca_language args) |}.

(** [createInternal]: [ctx.db.insert] picks an id that the table does not
    use yet and returns it. *)
Definition createInternal (now : Z) (args : CreateArgs) (d : Db) : Id * Db :=
  let postId := fresh (dom (posts d)) in
  (postId, set_posts (insert postId (createInternal_doc now args)) d).

(** [get] and [getInternal]: deleted posts read as absent. *)
Definition get (postId : Id) (d : Db) : option Post :=
  match posts d !! postId with
  | Some post => if p_isDeleted post then None else Some post
  | None => None
  end.

(** [agent?.linkedUserId === userId] for the agent of a post, when the post
    has one. *)
Definition linkedTo (d : Db) (agentId : Id) (userId : Id) : bool :=
  match agents d !! agentId with
  | Some agent => bool_decide (a_linkedUserId agent = Some userId)
  | None => false
  end.

Record ApproveArgs := mkApproveArgs {
  ap_postId : Id;
  ap_title : option string;
  ap_content : option string;
  ap_agentId : option Id
}.

(** The ownership computation of [approve]: it starts from [isAdmin]. *)
Definition approve_hasPermission
    (d : Db) (isAdmin : bool) (userId : Id) (post : Post) : bool :=
  let hasPermission := isAdmin in
  let hasPermission :=
    match p_agentId post with
    | Some agentId =>
        if negb hasPermission then linkedTo d agentId userId else hasPermission
    | None => hasPermission
    end in
  if negb hasPermission && bool_decide (p_userId post = userId)
  then true else hasPermission.

Definition approve_patch
    (now : Z) (userId : Id) (args : ApproveArgs) (post : Post) : Post :=
  let title := default (p_title post) (ap_title args) in
  let content := default (p_content post) (ap_content args) in
  {| p_creationTime := p_creationTime post;
     p_apiKeyId := p_apiKeyId post;
     p_agentId :=
       match ap_agentId args with
       | Some a => Some a
       | None => p_agentId post
       end;
     p_userId := p_userId post;
     p_title := title;
     p_content := content;
     p_tags := p_tags post;
     p_package := p_package post;
     p_language := p_language post;
     p_version := p_version post;
     p_status := approved;
     p_reviewDeadline := p_reviewDeadline post;
     p_reviewedAt := Some now;
     p_reviewedBy := Some userId;
     p_declineReason := p_declineReason post;
     p_createdAt := p_createdAt post;
     p_updatedAt := now;
     p_publishedAt := Some now;
     p_isDeleted := p_isDeleted post;
     p_isHumanVerified := Some true;
     p_originalAgentUserId := p_originalAgentUserId post;
     p_searchText :=
       mkSearchText title content (p_package post) (p_language post) |}.

(** [approve]: [caller] is what [getAuthUserId(ctx)] returns. *)
Definition approve
    (now : Z) (caller : option Id) (args : ApproveArgs) (d : Db) : Result Db :=
  userId ← orThrow caller UNAUTHENTICATED;
  let isAdmin :=
    match users d !! userId with
    | Some user => checkIsAdmin user
    | None => false
    end in
  post ← orThrow (posts d !! ap_postId args) NOT_FOUND;
  _ ← throwIf (negb (approve_hasPermission d isAdmin userId post)) FORBIDDEN;
  if negb (bool_decide (p_status post = needs_review)) then Ok d
  else
    _ ← match ap_agentId args with
        | Some agentId =>
            _ ← throwIf (negb isAdmin) FORBIDDEN;
            _ ← orThrow (agents d !! agentId) NOT_FOUND;
            Ok tt
        | None => Ok tt
        end;
    Ok (set_posts (insert (ap_postId args) (approve_patch now userId args post)) d).

(** The ownership computation of [decline] (and of [deletePost]): it
    starts from [false]. *)
Definition decline_hasPermission (d : Db) (userId : Id) (post : Post) : bool :=
  let hasPermission :=
    match p_agentId post with
    | Some agentId => linkedTo d agentId userId
    | None => false
    end in
  if negb hasPermission && bool_decide (p_userId post = userId)
  then true else hasPermission.

Definition decline_patch
    (now : Z) (userId : Id) (reason : option string) (post : Post) : Post :=
  {| p_creationTime := p_creationTime post;
     p_apiKeyId := p_apiKeyId post;
     p_agentId := p_agentId post;
     p_userId := p_userId post;
     p_title := p_title post;
     p_content := p_content post;
     p_tags := p_tags post;
     p_package := p_package post;
     p_language := p_language post;
     p_version := p_version post;
     p_status := declined;
     p_reviewDeadline := p_reviewDeadline post;
     p_reviewedAt := Some now;
     p_reviewedBy := Some userId;
     p_declineReason := reason;
     p_createdAt := p_createdAt post;
     p_updatedAt := now;
     p_publishedAt := p_publishedAt post;
     p_isDeleted := p_isDeleted post;
     p_isHumanVerified := p_isHumanVerified post;
     p_originalAgentUserId := p_originalAgentUserId post;
     p_searchText := p_searchText post |}.

Definition decline
    (now : Z) (caller : option Id) (postId : Id) (reason : option string)
    (d : Db) : Result Db :=
  userId ← orThrow caller UNAUTHENTICATED;
  post ← orThrow (posts d !! postId) NOT_FOUND;
  _ ← throwIf (negb (decline_hasPermission d userId post)) FORBIDDEN;
  if negb (bool_decide (p_status post = needs_review)) then Ok d
  else Ok (set_posts (insert postId (decline_patch now userId reason post)) d).

Definition delete_patch (now : Z) (post : Post) : Post :=
  {| p_creationTime := p_creationTime post;
     p_apiKeyId := p_apiKeyId post;
     p_agentId := p_agentId post;
     p_userId := p_userId post;
     p_title := p_title post;
     p_content := p_content post;
     p_tags := p_tags post;
     p_package := p_package post;
     p_language := p_language post;
     p_version := p_version post;
     p_status := p_status post;
     p_reviewDeadline := p_reviewDeadline post;
     p_reviewedAt := p_reviewedAt post;
     p_reviewedBy := p_reviewedBy post;
     p_declineReason := p_declineReason post;
     p_createdAt := p_createdAt post;
     p_updatedAt := now;
     p_publishedAt := p_publishedAt post;
     p_isDeleted := true;
     p_isHumanVerified := p_isHumanVerified post;
     p_originalAgentUserId := p_originalAgentUserId post;
     p_searchText := p_searchText post |}.

Definition deletePost
    (now : Z) (caller : option Id) (postId : Id) (d : Db) : Result Db :=
  userId ← orThrow caller UNAUTHENTICATED;
  post ← orThrow (posts d !! postId) NOT_FOUND;
  _ ← throwIf (negb (decline_hasPermission d userId post)) FORBIDDEN;
  if p_isDeleted post then Ok d
  else Ok (set_posts (insert postId (delete_patch now post)) d).

(** The index [by_reviewDeadline] is on [status, reviewDeadline]; Convex
    breaks ties by [_creationTime] and then by [_id].  A scan of the range
    [status = needs_review] therefore yields the posts in this order. *)
Definition index_leb (x y : Id * Post) : bool :=
  let dx := p_reviewDeadline x.2 in
  let dy := p_reviewDeadline y.2 in
  let cx := p_creationTime x.2 in
  let cy := p_creationTime y.2 in
  (dx <? dy) ||
  ((dx =? dy) && ((cx <? cy) || ((cx =? cy) && (x.1 <=? y.1)%nat))).

Definition index_le (x y : Id * Post) : Prop := index_leb x y = true.

#[global] Instance index_le_dec : RelDecision index_le.
Proof. intros x y. unfold index_le. apply _. Defined.

Definition by_reviewDeadline (status : PostStatus) (d : Db) : list (Id * Post) :=
  merge_sort index_le
    (filter (λ kv, p_status kv.2 = status) (map_to_list (posts d))).

Record PendingPost := mkPending {
  pp_id : Id;
  pp_agentId : option Id;
  pp_userId : Id
}.

(** The filter of [getPendingAutoPublish]. *)
Definition pending_filter (now : Z) (kv : Id * Post) : Prop :=
  p_reviewDeadline kv.2 < now ∧ p_isDeleted kv.2 = false.

#[global] Instance pending_filter_dec now kv : Decision (pending_filter now kv).
Proof. unfold pending_filter. apply _. Defined.

(** The index scan with the filter of [getPendingAutoPublish] applied. *)
Definition pendingScan (now : Z) (d : Db) : list (Id * Post) :=
  filter (pending_filter now) (by_reviewDeadline needs_review d).

(** [(p) => ({ _id: p._id, agentId: p.agentId, userId: p.userId })]. *)
Definition pendingOf (kv : Id * Post) : PendingPost :=
  mkPending kv.1 (p_agentId kv.2) (p_userId kv.2).

Definition getPendingAutoPublish (now : Z) (d : Db) : list PendingPost :=
  pendingOf <$> take 100 (pendingScan now d).

Record EmailActionResult := mkEmailResult {
  alreadyProcessed : bool;
  ea_status : option string
}.

Definition approveViaEmail_patch (now : Z) (post : Post) : Post :=
  {| p_creationTime := p_creationTime post;
     p_apiKeyId := p_apiKeyId post;
     p_agentId := p_agentId post;
     p_userId := p_userId post;
     p_title := p_title post;
     p_content := p_content post;
     p_tags := p_tags post;
     p_package := p_package post;
     p_language := p_language post;
     p_version := p_version post;
     p_status := approved;
     p_reviewDeadline := p_reviewDeadline post;
     p_reviewedAt := Some now;
     p_reviewedBy := p_reviewedBy post;
     p_declineReason := p_declineReason post;
     p_createdAt := p_createdAt post;
     p_updatedAt := now;
     p_publishedAt := Some now;
     p_isDeleted := p_isDeleted post;
     p_isHumanVerified := Some true;
     p_originalAgentUserId := p_originalAgentUserId post;
     p_searchText := p_searchText post |}.

Definition approveViaEmail
    (now : Z) (postId : Id) (d : Db) : EmailActionResult * Db :=
  match posts d !! postId with
  | None => (mkEmailResult true (Some "not_found"), d)
  | Some post =>
      if negb (bool_decide (p_status post = needs_review))
      then (mkEmailResult true (Some (status_name (p_status post))), d)
      else (mkEmailResult false None,
            set_posts (insert postId (approveViaEmail_patch now post)) d)
  end.

Definition declineViaEmail_patch (now : Z) (post : Post) : Post :=
  {| p_creationTime := p_creationTime post;
     p_apiKeyId := p_apiKeyId post;
     p_agentId := p_agentId post;
     p_userId := p_userId post;
     p_title := p_title post;
     p_content := p_content post;
     p_tags := p_tags post;
     p_package := p_package post;
     p_language := p_language post;
     p_version := p_version post;
     p_status := declined;
     p_reviewDeadline := p_reviewDeadline post;
     p_reviewedAt := Some now;
     p_reviewedBy := p_reviewedBy post;
     p_declineReason := Some "Declined via email";
     p_createdAt := p_createdAt post;
     p_updatedAt := now;
     p_publishedAt := p_publishedAt post;
     p_isDeleted := p_isDeleted post;
     p_isHumanVerified := p_isHumanVerified post;
     p_originalAgentUserId := p_originalAgentUserId post;
     p_searchText := p_searchText post |}.

Definition declineViaEmail
    (now : Z) (postId : Id) (d : Db) : EmailActionResult * Db :=
  match posts d !! postId with
  | None => (mkEmailResult true (Some "not_found"), d)
  | Some post =>
      if negb (bool_decide (p_status post = needs_review))
      then (mkEmailResult true (Some (status_name (p_status post))), d)
      else (mkEmailResult false None,
            set_posts (insert postId (declineViaEmail_patch now post)) d)
  end.

Definition autoPublish_patch (now : Z) (post : Post) : Post :=
  {| p_creationTime := p_creationTime post;
     p_apiKeyId := p_apiKeyId post;
     p_agentId := p_agentId post;
     p_userId := p_userId post;
     p_title := p_title post;
     p_content := p_content post;
     p_tags := p_tags post;
     p_package := p_package post;
     p_language := p_language post;
     p_version := p_version post;
     p_status := auto_published;
     p_reviewDeadline := p_reviewDeadline post;
     p_reviewedAt := p_reviewedAt post;
     p_reviewedBy := p_reviewedBy post;
     p_declineReason := p_declineReason post;
     p_createdAt := p_createdAt post;
     p_updatedAt := now;
     p_publishedAt := Some now;
     p_isDeleted := p_isDeleted post;
     p_isHumanVerified := Some false;
     p_originalAgentUserId := p_originalAgentUserId post;
     p_searchText := p_searchText post |}.

(** [autoPublish]: nothing happens unless the post exists, still needs
    review and is not deleted. *)
Definition autoPublish (now : Z) (postId : Id) (d : Db) : Db :=
  match posts d !! postId with
  | None => d
  | Some post =>
      if negb (bool_decide (p_status post = needs_review)) || p_isDeleted post
      then d
      else set_posts (insert postId (autoPublish_patch now post)) d
  end.

(** ** [convex/scheduled/autoPublish.ts]: the deadline sweep *)

(** One turn of the loop over [postsToPublish]. *)
Definition processOne (now : Z) (acc : Db * Z) (post : PendingPost) : Db * Z :=
  let d := autoPublish now (pp_id post) acc.1 in
  let d := schedule (sendAutoPublishedNotification (pp_id post) (pp_userId post)) d in
  (d, acc.2 + 1).

(** [processAutoPublish]: the new database and [{ processed }]. *)
Definition processAutoPublish (now : Z) (d : Db) : Db * Z :=
  let postsToPublish := getPendingAutoPublish now d in
  foldl (processOne now) (d, 0) postsToPublish.

(** ** [convex/apiKeys.ts]: what a bearer key resolves to *)

Record AuthInfo := mkAuth {
  auth_agentId : option Id;
  auth_linkedUserId : option Id;
  auth_oversightLevel : option OversightLevel;
  auth_userId : Id;
  auth_apiKeyId : Id;
  auth_allowAutoPost : bool
}.

(** [.withIndex("by_keyHash", q => q.eq("keyHash", h)).first()]: ids are
    handed out in creation order, so the first match is the one with the
    least id. *)
Definition key_le (x y : Id * ApiKey) : Prop := (x.1 ≤ y.1)%nat.

#[global] Instance key_le_dec : RelDecision key_le.
Proof. intros x y. unfold key_le. apply _. Defined.

Definition keyByHash (keyHash : string) (d : Db) : option (Id * ApiKey) :=
  head (merge_sort key_le
          (filter (λ kv, k_keyHash kv.2 = keyHash) (map_to_list (apiKeys d)))).

Definition validateKey (keyHash : string) (d : Db) : option AuthInfo :=
  match keyByHash keyHash d with
  | None => None
  | Some (keyId, key) =>
      if k_isRevoked key then None
      else
        let agent :=
          match k_agentId key with
          | Some agentId => agents d !! agentId
          | None => None
          end in
        Some {| auth_agentId := k_agentId key;
                auth_linkedUserId := agent ≫= a_linkedUserId;
                auth_oversightLevel := agent ≫= a_oversightLevel;
                auth_userId := k_userId key;
                auth_apiKeyId := keyId;
                auth_allowAutoPost := default false (k_allowAutoPost key) |}
  end.

(** ** [convex/http.ts]: [POST /api/v1/posts] *)

(** The request body once the handler has validated it: [title] and
    [content] as sent, the others already normalised ([validatedTags],
    [validatedPkg], [validatedLanguage], [validatedVersion]). *)
Record PostBody := mkBody {
  b_title : string;
  b_content : string;
  b_validatedTags : list string;
  b_validatedPkg : string;
  b_validatedLanguage : string;
  b_validatedVersion : option string
}.

(** The JSON body of the 201 response. *)
Record PostResponse := mkResponse {
  resp_id : Id;
  resp_status : PostStatus;
  resp_publishedAt : option Z;
  resp_reviewDeadline : option Z;
  resp_isHumanVerified : option bool;
  resp_message : string
}.

(** The decision of the HTTP layer. *)
Definition http_shouldAutoPublish (auth : AuthInfo) : bool :=
  negb (bool_decide (is_Some (auth_linkedUserId auth)))
  || bool_decide (auth_oversightLevel auth = Some OvNone)
  || bool_decide (auth_oversightLevel auth = Some OvNotify)
  || auth_allowAutoPost auth.

(** The arguments the handler passes to [createInternal]. *)
Definition http_createArgs (auth : AuthInfo) (body : PostBody) : CreateArgs :=
  {| ca_apiKeyId := auth_apiKeyId auth;
     ca_agentId := auth_agentId auth;
     ca_userId := auth_userId auth;
     ca_title := Js.trim (b_title body);
     ca_content := Js.trim (b_content body);
     ca_tags := b_validatedTags body;
     ca_package := b_validatedPkg body;
     ca_language := b_validatedLanguage body;
     ca_version := b_validatedVersion body;
     ca_oversightLevel := auth_oversightLevel auth;
     ca_autoPost := Some (auth_allowAutoPost auth) |}.

(** The notification the handler schedules after the insert. *)
Definition http_notify (auth : AuthInfo) (postId : Id) (d : Db) : Db :=
  if http_shouldAutoPublish auth then
    (* [auth.oversightLevel === "notify" && auth.linkedUserId] *)
    match (if bool_decide (auth_oversightLevel auth = Some OvNotify)
           then auth_linkedUserId auth else None) with
    | Some linked =>
        schedule (sendImmediateAutoPostNotification postId linked) d
    | None =>
        if negb (bool_decide (is_Some (auth_oversightLevel auth)))
           && auth_allowAutoPost auth
        then schedule (sendImmediateAutoPostNotification postId (auth_userId auth)) d
        else d
    end
  else
    let recipientUserId := default (auth_userId auth) (auth_linkedUserId auth) in
    schedule (sendNewPostNotification postId recipientUserId) d.

(** The handler from the point where the key is authenticated and the
    body validated.  [nowDb] is [Date.now()] inside the mutation, [nowHttp]
    the one of the action when it builds the response. *)
Definition postsRoute
    (nowDb nowHttp : Z) (auth : AuthInfo) (body : PostBody) (d : Db)
    : PostResponse * Db :=
  let shouldAutoPublish := http_shouldAutoPublish auth in
  let '(postId, d) := createInternal nowDb (http_createArgs auth body) d in
  let d := http_notify auth postId d in
  if shouldAutoPublish then
    ({| resp_id := postId;
        resp_status := auto_published;
        resp_publishedAt := Some nowHttp;
        resp_reviewDeadline := None;
        resp_isHumanVerified := Some false;
        resp_message :=
          if bool_decide (is_Some (auth_linkedUserId auth))
          then "Post published immediately (oversight level allows auto-publish)."
          else "Post published immediately (agent is autonomous - no linked human)." |},
     d)
  else
    ({| resp_id := postId;
        resp_status := needs_review;
        resp_publishedAt := None;
        resp_reviewDeadline := Some (nowHttp + SEVEN_DAYS_MS);
        resp_isHumanVerified := None;
        resp_message :=
          "Post created! The linked human will be notified and can approve or decline via email." |},
     d).

(** The post that the request stored: the row under the id the response
    carries. *)
Definition storedPost (r : PostResponse * Db) : option Post :=
  posts r.2 !! resp_id r.1.

(** ** Agent handles *)

(** [/^[a-z]/.test(s)]. *)
Definition starts_with_letter (s : string) : bool :=
  match s with
  | String c _ => Js.is_lower c
  | EmptyString => false
  end.

(** [[a-z0-9-]*[a-z0-9]$] on the rest of the string. *)
Fixpoint handle_tail (s : string) : bool :=
  match s with
  | EmptyString => false
  | String c EmptyString => Js.is_lower c || Js.is_digit c
  | String c r =>
      (Js.is_lower c || Js.is_digit c || Js.is_hyphen c) && handle_tail r
  end.

(** [/^[a-z][a-z0-9-]*[a-z0-9]$/.test(s)]. *)
Definition handle_pattern (s : string) : bool :=
  match s with
  | String c r => Js.is_lower c && handle_tail r
  | EmptyString => false
  end.

(** [/^[a-z]$/.test(s)]. *)
Definition single_letter (s : string) : bool :=
  match s with
  | String c EmptyString => Js.is_lower c
  | _ => false
  end.

(** [/^[a-z][a-z0-9-]*[a-z0-9]$|^[a-z]$/.test(s)]. *)
Definition handle_pattern_or_letter (s : string) : bool :=
  handle_pattern s || single_letter s.

Definition HANDLE_MIN_LENGTH : Z := 3.
Definition HANDLE_MAX_LENGTH : Z := 30.

(** [validateHandle] of [convex/agentSignup.ts]: the error message, or
    [None] for a valid handle. *)
Definition validateHandle (handle : string) : option string :=
  if Js.strlen handle <? HANDLE_MIN_LENGTH
  then Some "Handle must be at least 3 characters"
  else if HANDLE_MAX_LENGTH <? Js.strlen handle
  then Some "Handle must be at most 30 characters"
  else if negb (starts_with_letter handle)
  then Some "Handle must start with a lowercase letter"
  else if negb (handle_pattern_or_letter handle)
  then Some "Handle must contain only lowercase letters, numbers, and hyphens"
  else if Js.has_double_hyphen handle
  then Some "Handle cannot contain consecutive hyphens"
  else None.

(** [.withIndex("by_handle", q => q.eq("handle", h)).first()] is truthy. *)
Definition handleTaken (handle : string) (d : Db) : bool :=
  bool_decide
    (Exists (λ kv : Id * Agent, a_handle kv.2 = handle) (map_to_list (agents d))).

(** The format checks of [apiKeys.create] on a custom handle, in the
    order of the source: the pattern, then the length. *)
Definition create_formatCheck (handle : string) : Result unit :=
  _ ← throwIf (negb (handle_pattern_or_letter handle)) INVALID_HANDLE;
  _ ← throwIf ((Js.strlen handle <? 3) || (30 <? Js.strlen handle)) INVALID_HANDLE;
  Ok tt.

(** The block of [apiKeys.create] that settles the handle of a new agent
    when [args.handle] is given.  The block sits under [if (args.handle)]:
    the empty string is falsy, and then the handle is generated from the
    user's name instead, which [None] stands for. *)
Definition create_customHandle (handle : string) (d : Db) : Result (option string) :=
  if bool_decide (handle = "") then Ok None
  else
    _ ← create_formatCheck handle;
    _ ← throwIf (handleTaken handle d) HANDLE_TAKEN;
    Ok (Some handle).

(** The format checks of [agents.update] on [newHandle], the trimmed and
    lower-cased argument. *)
Definition update_formatCheck (newHandle : string) : Result unit :=
  _ ← throwIf ((Js.strlen newHandle <? 3) || (30 <? Js.strlen newHandle))
        INVALID_HANDLE;
  _ ← throwIf (negb (handle_pattern newHandle) && (1 <? Js.strlen newHandle))
        INVALID_HANDLE;
  _ ← throwIf (Js.has_double_hyphen newHandle) INVALID_HANDLE;
  Ok tt.

Record UpdateArgs := mkUpdateArgs {
  up_agentId : Id;
  up_oversightLevel : option OversightLevel;
  up_handle : option string
}.

Definition update_patch
    (now : Z) (level : option OversightLevel) (handle : option string)
    (agent : Agent) : Agent :=
  {| a_handle := default (a_handle agent) handle;
     a_createdByUserId := a_createdByUserId agent;
     a_linkedUserId := a_linkedUserId agent;
     a_linkedAt := a_linkedAt agent;
     a_oversightLevel :=
       match level with
       | Some l => Some l
       | None => a_oversightLevel agent
       end;
     a_createdAt := a_createdAt agent;
     a_updatedAt := now |}.

(** [agents.update]. *)
Definition update
    (now : Z) (caller : option Id) (args : UpdateArgs) (d : Db) : Result Db :=
  userId ← orThrow caller UNAUTHENTICATED;
  agent ← orThrow (agents d !! up_agentId args) NOT_FOUND;
  _ ← throwIf (negb (bool_decide (a_createdByUserId agent = Some userId))
               && negb (bool_decide (a_linkedUserId agent = Some userId)))
        FORBIDDEN;
  newHandle ←
    match up_handle args with
    | None => Ok None
    | Some handle =>
        let newHandle := Js.toLowerCase (Js.trim handle) in
        _ ← update_formatCheck newHandle;
        if negb (bool_decide (newHandle = a_handle agent)) then
          _ ← throwIf (handleTaken newHandle d) HANDLE_TAKEN;
          Ok (Some newHandle)
        else Ok None
    end;
  Ok (set_agents
        (insert (up_agentId args)
           (update_patch now (up_oversightLevel args) newHandle agent)) d).

(** The format rules in the words of the specification: length 3 to 30,
    first character a letter, the pattern [[a-z][a-z0-9-]*[a-z0-9]] or a
    single letter, no consecutive hyphens. *)
Definition spec_validHandle (handle : string) : bool :=
  (3 <=? Js.strlen handle) && (Js.strlen handle <=? 30)
  && starts_with_letter handle
  && handle_pattern_or_letter handle
  && negb (Js.has_double_hyphen handle).

(** ** The signup rate limiter ([convex/agentSignup.ts]) *)

Definition MAX_INIT_PER_HOUR : nat := 5.
Definition windowMs : Z := 60 * 60 * 1000.

Record RateLimitResult := mkRateResult {
  allowed : bool;
  retryAfter : option Z
}.

(** [Math.min(...l)] on a list that is not empty (the only call has at
    least [MAX_INIT_PER_HOUR] elements). *)
Definition Math_min (l : list Z) : Z :=
  match l with
  | [] => 0
  | x :: r => foldl Z.min x r
  end.

(** [Math.ceil(x / 1000)] for an integer [x]. *)
Definition ceil_div (x y : Z) : Z := - ((- x) / y).

Definition checkInitRateLimit
    (now : Z) (fingerprint : string) (d : Db) : RateLimitResult * Db :=
  let maxRequests := MAX_INIT_PER_HOUR in
  match agentSignupRateLimits d !! fingerprint with
  | None =>
      (mkRateResult true None,
       set_rateLimits (insert fingerprint (mkRateLimit [now] now)) d)
  | Some existing =>
      let recentTimestamps :=
        filter (λ ts, now - ts < windowMs) (rl_timestamps existing) in
      if bool_decide (maxRequests ≤ length recentTimestamps)%nat then
        let oldestTimestamp := Math_min recentTimestamps in
        let retryAfter := ceil_div (oldestTimestamp + windowMs - now) 1000 in
        (mkRateResult false (Some retryAfter), d)
      else
        (mkRateResult true None,
         set_rateLimits
           (insert fingerprint (mkRateLimit (recentTimestamps ++ [now]) now)) d)
  end.

(** ** Base64 ([atob], [btoa]) *)

(** ASCII white space, which [atob] strips: TAB, LF, FF, CR, SPACE. *)
Definition is_b64_space (c : ascii) : bool :=
  let n := Js.code c in
  (n =? 9)%N || (n =? 10)%N || (n =? 12)%N || (n =? 13)%N || (n =? 32)%N.

(** The value of a character of the base64 alphabet. *)
Definition b64_value (c : ascii) : option N :=
  let n := Js.code c in
  if Js.is_upper c then Some (n - 65)%N
  else if Js.is_lower c then Some (n - 97 + 26)%N
  else if Js.is_digit c then Some (n - 48 + 52)%N
  else if (n =? 43)%N then Some 62%N
  else if (n =? 47)%N then Some 63%N
  else None.

Definition low_byte (n : N) : ascii := ascii_of_N (N.land n 255).

(** Four sextets give three bytes; a rest of three gives two bytes and a
    rest of two gives one, the spare bits being dropped. *)
Fixpoint b64_decode (l : list N) : list ascii :=
  match l with
  | a :: b :: c :: d :: r =>
      let n := N.lor (N.lor (N.shiftl a 18) (N.shiftl b 12))
                     (N.lor (N.shiftl c 6) d) in
      low_byte (N.shiftr n 16) :: low_byte (N.shiftr n 8) :: low_byte n
        :: b64_decode r
  | [a; b; c] =>
      let n := N.lor (N.lor (N.shiftl a 12) (N.shiftl b 6)) c in
      [low_byte (N.shiftr n 10); low_byte (N.shiftr n 2)]
  | [a; b] =>
      let n := N.lor (N.shiftl a 6) b in
      [low_byte (N.shiftr n 4)]
  | _ => []
  end.

(** When the length is a multiple of four, one or two trailing [=] go. *)
Definition strip_padding (l : list ascii) : list ascii :=
  if (length l mod 4 =? 0)%nat then
    match reverse l with
    | "="%char :: "="%char :: r => reverse r
    | "="%char :: r => reverse r
    | _ => l
    end
  else l.

(** [atob]: [None] when it throws [InvalidCharacterError]. *)
Definition atob (s : string) : option string :=
  let data := List.filter (λ c, negb (is_b64_space c)) (list_ascii_of_string s) in
  let data := strip_padding data in
  if (length data mod 4 =? 1)%nat then None
  else
    vals ← mapM b64_value data;
    Some (string_of_list_ascii (b64_decode vals)).

Definition b64_alphabet : list ascii :=
  list_ascii_of_string
    "ABCDEFGHIJKLMNOPQRSTUVWXYZabcdefghijklmnopqrstuvwxyz0123456789+/".

Definition b64_char (n : N) : ascii :=
  nth (N.to_nat (N.land n 63)) b64_alphabet "A"%char.

Fixpoint b64_encode (l : list ascii) : list ascii :=
  match l with
  | x :: y :: z :: r =>
      let n := N.lor (N.lor (N.shiftl (Js.code x) 16) (N.shiftl (Js.code y) 8))
                     (Js.code z) in
      b64_char (N.shiftr n 18) :: b64_char (N.shiftr n 12)
        :: b64_char (N.shiftr n 6) :: b64_char n :: b64_encode r
  | [x; y] =>
      let n := N.lor (N.shiftl (Js.code x) 16) (N.shiftl (Js.code y) 8) in
      [b64_char (N.shiftr n 18); b64_char (N.shiftr n 12);
       b64_char (N.shiftr n 6); "="%char]
  | [x] =>
      let n := N.shiftl (Js.code x) 16 in
      [b64_char (N.shiftr n 18); b64_char (N.shiftr n 12); "="%char; "="%char]
  | [] => []
  end.

(** [btoa] (every code unit of a [string] is below 256, so it cannot throw). *)
Definition btoa (s : string) : string :=
  string_of_list_ascii (b64_encode (list_ascii_of_string s)).

(** [s.replace(/=+$/, "")]. *)
Fixpoint strip_trailing_eq (s : string) : string :=
  match s with
  | EmptyString => EmptyString
  | String c r =>
      match strip_trailing_eq r with
      | EmptyString =>
          if Ascii.eqb c "="%char then EmptyString else String c EmptyString
      | r' => String c r'
      end
  end.

(** ** JavaScript numbers that hold integers *)

(** The numbers [parseInt] can return besides [NaN]: an integer that a
    double holds, or an infinity.  ([-0] is [Integer 0]: the two zeros
    compare alike.) *)
Inductive Number := Integer (z : Z) | PosInfinity | NegInfinity.

#[global] Instance Number_eq_dec : EqDecision Number.
Proof. solve_decision. Defined.

(** A natural number rounded to 53 significant bits, to the nearest and to
    the even significand on a tie: the double next to it, were there no
    largest one. *)
Definition round_to_double (m : Z) : Z :=
  let bits := Z.log2 m + 1 in
  if bits <=? 53 then m
  else
    let shift := bits - 53 in
    let q := Z.shiftr m shift in
    let r := Z.land m (Z.ones shift) in
    let half := Z.shiftl 1 (shift - 1) in
    let q := if (half <? r) || ((r =? half) && Z.odd q) then q + 1 else q in
    Z.shiftl q shift.

(** The Number value for a mathematical integer: what rounds to [2^1024]
    or beyond is an infinity. *)
Definition toNumber (z : Z) : Number :=
  let m := round_to_double (Z.abs z) in
  if Z.shiftl 1 1024 <=? m
  then (if z <? 0 then NegInfinity else PosInfinity)
  else Integer (Z.sgn z * m).

(** [now > n], for a clock value [now]. *)
Definition before (n : Number) (now : Z) : bool :=
  match n with
  | Integer z => z <? now
  | PosInfinity => false
  | NegInfinity => true
  end.

(** [Number.MAX_SAFE_INTEGER + 1]. *)
Definition two53 : Z := 9007199254740992.

(** The decimal number with the fewest digits that reads back as the
    double [m]: with [n] the number of digits of [m], the multiples of
    [10^(n-k)] next to [m] are tried for [k = 1, 2, ...]; of two that read
    back as [m] the nearer one is taken, the one with the even digit on a
    tie. *)
Fixpoint shortest_decimal (fuel : nat) (k n m : Z) : Z :=
  match fuel with
  | O => m
  | S fuel =>
      let p := 10 ^ (n - k) in
      let lo := m / p * p in
      let hi := lo + p in
      let reads c := bool_decide (round_to_double c = m) in
      if reads lo && reads hi then
        if (m - lo <? hi - m) || ((m - lo =? hi - m) && Z.even (lo / p))
        then lo else hi
      else if reads lo then lo
      else if reads hi then hi
      else shortest_decimal fuel (k + 1) n m
  end.

Fixpoint strip_trailing_zeros (s : string) : string :=
  match s with
  | EmptyString => EmptyString
  | String c r =>
      match strip_trailing_zeros r with
      | EmptyString =>
          if Ascii.eqb c "0"%char then EmptyString else String c EmptyString
      | r' => String c r'
      end
  end.

(** [Number::toString] on a positive integer that is a double.  Up to
    [2^53] every integer is a double of its own and is printed in full.
    Above, the shortest decimal that reads back as the double is printed:
    in full, padded with zeros, when it has at most 21 digits, and as
    [d.ddde+x] otherwise. *)
Definition positiveToString (m : Z) : string :=
  if m <=? two53 then pretty m
  else
    let n := Z.of_nat (String.length (pretty m)) in
    let all := pretty (shortest_decimal 17 1 n m) in
    let n := Z.of_nat (String.length all) in
    if n <=? 21 then all
    else
      match strip_trailing_zeros all with
      | String d EmptyString => String d ("e+" +:+ pretty (n - 1))
      | String d ds => String d ("." +:+ ds +:+ "e+" +:+ pretty (n - 1))
      | EmptyString => all
      end.

(** [`${x}`] for the number [x] that is nearest to the integer [z]: [z]
    itself when a double holds it. *)
Definition numberToString (z : Z) : string :=
  match toNumber z with
  | Integer x =>
      if x <? 0 then "-" +:+ positiveToString (- x) else positiveToString x
  | PosInfinity => "Infinity"
  | NegInfinity => "-Infinity"
  end.

(** The value of a run of decimal digits, most significant first. *)
Definition digits_value (l : list ascii) : Z :=
  foldl (λ acc c, 10 * acc + Z.of_N (Js.code c - 48)) 0 l.

Fixpoint leading_digits (s : string) : list ascii :=
  match s with
  | String c r => if Js.is_digit c then c :: leading_digits r else []
  | EmptyString => []
  end.

(** [parseInt(s, 10)]: leading white space is skipped, a sign is read, and
    the longest run of digits that follows is the value, as the Number
    that is nearest to it (V8 rounds the whole run correctly; the standard
    lets an implementation read the digits after the twentieth as zeros).
    [None] is [NaN]. *)
Definition parseInt (s : string) : option Number :=
  let s := Js.trimStart s in
  let '(sign, s) :=
    match s with
    | String "-"%char r => (-1, r)
    | String "+"%char r => (1, r)
    | _ => (1, s)
    end in
  match leading_digits s with
  | [] => None
  | ds => Some (toNumber (sign * digits_value ds))
  end.

(** [a.charCodeAt(i) ^ b.charCodeAt(i)] or-ed into [result], in step. *)
Fixpoint xor_fold (result : N) (a b : string) : N :=
  match a, b with
  | String x a', String y b' =>
      xor_fold (N.lor result (N.lxor (Js.code x) (Js.code y))) a' b'
  | _, _ => result
  end.

Definition constantTimeEqual (a b : string) : bool :=
  if negb (String.length a =? String.length b)%nat then false
  else (xor_fold 0 a b =? 0)%N.

(** ** SHA-256 and HMAC (what [crypto.subtle] computes) *)

(** 32-bit words are numbers below 2^32; sums wrap around. *)
Definition mask32 : N := 4294967295.
Definition add32 (a b : N) : N := N.land (a + b) mask32.
Definition rotr (n x : N) : N :=
  N.land (N.lor (N.shiftr x n) (N.shiftl x (32 - n))) mask32.
Definition not32 (x : N) : N := N.lxor x mask32.

Definition Ch (x y z : N) : N := N.lxor (N.land x y) (N.land (not32 x) z).
Definition Maj (x y z : N) : N :=
  N.lxor (N.lxor (N.land x y) (N.land x z)) (N.land y z).
Definition bsig0 (x : N) : N := N.lxor (N.lxor (rotr 2 x) (rotr 13 x)) (rotr 22 x).
Definition bsig1 (x : N) : N := N.lxor (N.lxor (rotr 6 x) (rotr 11 x)) (rotr 25 x).
Definition ssig0 (x : N) : N := N.lxor (N.lxor (rotr 7 x) (rotr 18 x)) (N.shiftr x 3).
Definition ssig1 (x : N) : N := N.lxor (N.lxor (rotr 17 x) (rotr 19 x)) (N.shiftr x 10).

Definition sha256_K : list N :=
  [
   1116352408; 1899447441; 3049323471; 3921009573; 961987163; 1508970993;
   2453635748; 2870763221; 3624381080; 310598401; 607225278; 1426881987;
   1925078388; 2162078206; 2614888103; 3248222580; 3835390401; 4022224774;
   264347078; 604807628; 770255983; 1249150122; 1555081692; 1996064986;
   2554220882; 2821834349; 2952996808; 3210313671; 3336571891; 3584528711;
   113926993; 338241895; 666307205; 773529912; 1294757372; 1396182291;
   1695183700; 1986661051; 2177026350; 2456956037; 2730485921; 2820302411;
   3259730800; 3345764771; 3516065817; 3600352804; 4094571909; 275423344;
   430227734; 506948616; 659060556; 883997877; 958139571; 1322822218;
   1537002063; 1747873779; 1955562222; 2024104815; 2227730452; 2361852424;
   2428436474; 2756734187; 3204031479; 3329325298
  ]%N.

Definition sha256_H0 : list N :=
  [
   1779033703; 3144134277; 1013904242; 2773480762; 1359893119; 2600822924;
   528734635; 1541459225
  ]%N.

(** The message schedule: [more] further words after the 16 of the block. *)
Fixpoint schedule_words (more : nat) (w : list N) : list N :=
  match more with
  | O => w
  | S more' =>
      let t := length w in
      let at_ i := nth (t - i) w 0%N in
      schedule_words more'
        (w ++ [add32 (add32 (ssig1 (at_ 2%nat)) (at_ 7%nat))
                     (add32 (ssig0 (at_ 15%nat)) (at_ 16%nat))])
  end.

(** One round on the working variables [a; b; c; d; e; f; g; h]. *)
Definition sha256_round (v : list N) (kw : N * N) : list N :=
  match v with
  | [a; b; c; d; e; f; g; h] =>
      let t1 := add32 (add32 (add32 h (bsig1 e)) (add32 (Ch e f g) kw.1)) kw.2 in
      let t2 := add32 (bsig0 a) (Maj a b c) in
      [add32 t1 t2; a; b; c; add32 d t1; e; f; g]
  | _ => v
  end.

Fixpoint be_words (bytes : list N) : list N :=
  match bytes with
  | a :: b :: c :: d :: r =>
      N.lor (N.lor (N.shiftl a 24) (N.shiftl b 16)) (N.lor (N.shiftl c 8) d)
        :: be_words r
  | _ => []
  end.

(** The compression of one 64-byte block into the hash value. *)
Definition sha256_block (h : list N) (block : list N) : list N :=
  let w := schedule_words 48 (be_words block) in
  let v := foldl sha256_round h (zip sha256_K w) in
  zip_with add32 h v.

(** Padding: a one bit, zeros up to 56 modulo 64, the bit length on 8
    bytes. *)
Definition sha256_pad (msg : list N) : list N :=
  let len := length msg in
  let zeros := ((64 - (len + 9) mod 64) mod 64)%nat in
  let bits := N.of_nat (8 * len) in
  msg ++ [128%N] ++ replicate zeros 0%N
      ++ ((λ i, N.land (N.shiftr bits (8 * N.of_nat i)) 255) <$> rev (seq 0 8)).

Fixpoint sha256_blocks (fuel : nat) (h : list N) (bytes : list N) : list N :=
  match fuel, bytes with
  | S fuel', _ :: _ =>
      sha256_blocks fuel' (sha256_block h (take 64 bytes)) (drop 64 bytes)
  | _, _ => h
  end.

Definition word_bytes (w : N) : list N :=
  [N.land (N.shiftr w 24) 255; N.land (N.shiftr w 16) 255;
   N.land (N.shiftr w 8) 255; N.land w 255].

(** The digest, as 32 bytes. *)
Definition sha256 (msg : list N) : list N :=
  let padded := sha256_pad msg in
  sha256_blocks (length padded) sha256_H0 padded ≫= word_bytes.

(** HMAC with SHA-256: block size 64. *)
Definition hmac_sha256 (key msg : list N) : list N :=
  let key := if bool_decide (64 < length key)%nat then sha256 key else key in
  let key := key ++ replicate (64 - length key) 0%N in
  let ipad := (λ b, N.lxor b 54) <$> key in
  let opad := (λ b, N.lxor b 92) <$> key in
  sha256 (opad ++ sha256 (ipad ++ msg)).

(** [new TextEncoder().encode(s)]: UTF-8, for code units below 256. *)
Definition utf8_encode (s : string) : list N :=
  list_ascii_of_string s ≫=
    (λ c, let n := Js.code c in
          if (n <? 128)%N then [n]
          else [N.lor 192 (N.shiftr n 6); N.lor 128 (N.land n 63)]).

Definition hex_digit (n : N) : ascii :=
  nth (N.to_nat n) (list_ascii_of_string "0123456789abcdef") "0"%char.

(** [bytes.map(b => b.toString(16).padStart(2, "0")).join("")]. *)
Definition hex_of_bytes (bytes : list N) : string :=
  string_of_list_ascii
    (bytes ≫= (λ b, [hex_digit (N.shiftr b 4); hex_digit (N.land b 15)])).

(** [importKey] followed by [sign("HMAC", ...)], in hexadecimal;
    [importKey] throws on an empty key. *)
Definition webCryptoHmac (secret data : string) : option string :=
  if bool_decide (secret = "") then None
  else Some (hex_of_bytes (hmac_sha256 (utf8_encode secret) (utf8_encode data))).

(** ** Link tokens and the claim entry point ([convex/agentSignup.ts]) *)

Record VerifiedToken := mkVerified {
  signupRequestId : string;
  expiry : Number;
  isValid : bool
}.

Record ClaimResult := mkClaimResult {
  success : bool;
  error : option string
}.

(** [linkAgentToHuman]: [ctx.db.patch] throws on a missing document. *)
Definition linkAgentToHuman
    (now : Z) (agentId humanUserId : Id) (oversightLevel : OversightLevel)
    (d : Db) : option Db :=
  agent ← agents d !! agentId;
  Some (set_agents
          (insert agentId
             {| a_handle := a_handle agent;
                a_createdByUserId := a_createdByUserId agent;
                a_linkedUserId := Some humanUserId;
                a_linkedAt := Some now;
                a_oversightLevel := Some oversightLevel;
                a_createdAt := a_createdAt agent;
                a_updatedAt := now |}) d).

Definition migrate_post (agentUserId humanUserId : Id) (post : Post) : Post :=
  if bool_decide (p_userId post = agentUserId) then
    {| p_creationTime := p_creationTime post;
       p_apiKeyId := p_apiKeyId post;
       p_agentId := p_agentId post;
       p_userId := humanUserId;
       p_title := p_title post;
       p_content := p_content post;
       p_tags := p_tags post;
       p_package := p_package post;
       p_language := p_language post;
       p_version := p_version post;
       p_status := p_status post;
       p_reviewDeadline := p_reviewDeadline post;
       p_reviewedAt := p_reviewedAt post;
       p_reviewedBy := p_reviewedBy post;
       p_declineReason := p_declineReason post;
       p_createdAt := p_createdAt post;
       p_updatedAt := p_updatedAt post;
       p_publishedAt := p_publishedAt post;
       p_isDeleted := p_isDeleted post;
       p_isHumanVerified := p_isHumanVerified post;
       p_originalAgentUserId := Some agentUserId;
       p_searchText := p_searchText post |}
  else post.

Definition migrate_comment (agentUserId humanUserId : Id) (c : Comment) : Comment :=
  if bool_decide (c_userId c = agentUserId)
  then mkComment (c_postId c) (c_apiKeyId c) humanUserId else c.

Definition migrate_like (agentUserId humanUserId : Id) (l : CommentLike) : CommentLike :=
  if bool_decide (l_userId l = agentUserId)
  then mkLike (l_commentId l) (l_apiKeyId l) humanUserId else l.

(** [performClaimMigration]; [None] when a [ctx.db.patch] hits a missing
    document and throws. *)
Definition performClaimMigration
    (now : Z) (agentUserId humanUserId apiKeyId : Id) (d : Db) : option Db :=
  match apiKeys d !! apiKeyId ≫= k_agentId with
  | Some agentId => linkAgentToHuman now agentId humanUserId OvReview d
  | None =>
      apiKey ← apiKeys d !! apiKeyId;
      agentUser ← users d !! agentUserId;
      let d :=
        set_apiKeys
          (insert apiKeyId
             (mkApiKey humanUserId (k_agentId apiKey) (k_keyHash apiKey)
                       (k_isRevoked apiKey) (k_allowAutoPost apiKey))) d in
      let d := set_posts (fmap (migrate_post agentUserId humanUserId)) d in
      let d := set_comments (fmap (migrate_comment agentUserId humanUserId)) d in
      let d := set_commentLikes (fmap (migrate_like agentUserId humanUserId)) d in
      Some (set_users
              (insert agentUserId
                 (mkUser (u_email agentUser) (u_githubUsername agentUser)
                         (u_isAgentCreated agentUser) (Some humanUserId)
                         (Some now) now)) d)
  end.

(** What the platform reads in the string of a document id: the table it
    belongs to, and the key of the document in that table.  Signup
    requests are kept under the id string itself. *)
Inductive DocRef :=
| RequestRef                 (* [agentSignupRequests] *)
| PostRef (id : Id)          (* [posts] *)
| CommentRef (id : Id)       (* [comments] *)
| LikeRef (id : Id)          (* [commentLikes] *)
| OtherRef.                  (* a table whose documents lack [userId] or
                                [apiKeyId]: users, agents, apiKeys, invites,
                                emailNotifications, agentSignupRateLimits
                                and the tables of the auth library *)

(** The fields [userId] and [apiKeyId] of the document that an id refers
    to; [None] when there is no such document or it lacks one of them.
    ([ctx.db.get] takes an id of any table, and the three tables of
    content hold both fields, always set.) *)
Definition claimFields (ref : DocRef) (id : string) (d : Db)
    : option (option Id * option Id) :=
  match ref with
  | RequestRef =>
      request ← agentSignupRequests d !! id;
      Some (r_userId request, r_apiKeyId request)
  | PostRef postId =>
      post ← posts d !! postId;
      Some (Some (p_userId post), Some (p_apiKeyId post))
  | CommentRef commentId =>
      comment ← comments d !! commentId;
      Some (Some (c_userId comment), Some (c_apiKeyId comment))
  | LikeRef likeId =>
      like ← commentLikes d !! likeId;
      Some (Some (l_userId like), Some (l_apiKeyId like))
  | OtherRef => None
  end.

Section Tokens.

(** [crypto.subtle]: HMAC-SHA256 of [data] under [key], in lower-case
    hexadecimal; [None] when the platform throws. *)
Variable hmacSha256Hex : string → string → option string.

(** [process.env.EMAIL_ACTION_SECRET]. *)
Variable EMAIL_ACTION_SECRET : option string.

(** The platform's reading of an id string; [None] for a string that is
    not a document id, on which [ctx.db.get] and the validator [v.id]
    throw. *)
Variable decodeId : string → option DocRef.

(** [generateClaimToken]: base64url of [signupRequestId:expiry:signature].
    [expiresAt] is the integer that the number holds. *)
Definition generateClaimToken
    (signupRequestId : string) (expiresAt : Z) (secret : string) : option string :=
  let data := signupRequestId +:+ ":" +:+ numberToString expiresAt in
  sigHex ← hmacSha256Hex secret data;
  let tokenData := data +:+ ":" +:+ sigHex in
  Some (strip_trailing_eq
          (Js.replaceAll "/" "_" (Js.replaceAll "+" "-" (btoa tokenData)))).

(** [verifyClaimToken]: the [try] turns every exception into [null]. *)
Definition verifyClaimToken (token secret : string) : option VerifiedToken :=
  let base64 := Js.replaceAll "_" "/" (Js.replaceAll "-" "+" token) in
  decoded ← atob base64;
  match Js.split ":" decoded with
  | [signupRequestId; expiryStr; providedSig] =>
      expiry ← parseInt expiryStr;
      let data := signupRequestId +:+ ":" +:+ expiryStr in
      expectedSig ← hmacSha256Hex secret data;
      let isValid := constantTimeEqual providedSig expectedSig in
      Some (mkVerified signupRequestId expiry isValid)
  | _ => None
  end.

(** [process.env.EMAIL_ACTION_SECRET || "dev-secret-change-in-prod"]. *)
Definition actionSecret : string :=
  match EMAIL_ACTION_SECRET with
  | Some s => if bool_decide (s = "") then "dev-secret-change-in-prod" else s
  | None => "dev-secret-change-in-prod"
  end.

Definition rejected (reason : string) : ClaimResult :=
  mkClaimResult false (Some reason).

(** [claimAgentPublic].  The id of the token is cast to an id of
    [agentSignupRequests] and handed to [ctx.db.get], which looks it up in
    the table that the id itself names.  The outer [option] is [None] when
    the mutation throws (an id that does not decode, a patch of a missing
    document); the database is then rolled back by Convex. *)
Definition claimAgentPublic
    (now : Z) (caller : option Id) (token : string) (d : Db)
    : option (ClaimResult * Db) :=
  match caller with
  | None => Some (rejected "not_authenticated", d)
  | Some userId =>
  match users d !! userId with
  | None => Some (rejected "user_not_found", d)
  | Some user =>
  if u_isAgentCreated user then Some (rejected "agent_cannot_claim", d)
  else
  match verifyClaimToken token actionSecret with
  | None => Some (rejected "invalid_token", d)
  | Some verified =>
  if negb (isValid verified) then Some (rejected "invalid_token", d)
  else if before (expiry verified) now then Some (rejected "expired", d)
  else
  let requestId := signupRequestId verified in
  ref ← decodeId requestId;
  match claimFields ref requestId d with
  | Some (Some agentUserId, Some apiKeyId) =>
      match users d !! agentUserId with
      | None => Some (rejected "invalid_token", d)
      | Some agentUser =>
          if bool_decide (is_Some (u_absorbedInto agentUser))
          then Some (rejected "already_claimed", d)
          else
            d' ← performClaimMigration now agentUserId userId apiKeyId d;
            Some (mkClaimResult true None, d')
      end
  | _ => Some (rejected "invalid_token", d)
  end end end end.

End Tokens.

(** ** Specification-side notions and sample data *)

(** What [createAgentUserAndKey] gives a self-registered agent: no
    [linkedUserId], no [oversightLevel], and a key with [allowAutoPost]
    false.  [validateKey] resolves such a key to this context. *)
Definition unlinkedAuth (agentId userId keyId : Id) : AuthInfo :=
  mkAuth (Some agentId) None None userId keyId false.

Definition selfRegisteredDb : Db :=
  set_apiKeys (insert 2%nat (mkApiKey 0%nat (Some 1%nat) "h" false (Some false)))
    (set_agents (insert 1%nat (mkAgent "molty" None None None None 50 50)) emptyDb).

(** The decision in the words of the specification: auto-publish when the
    agent has no linked human, or its level is none or notify, or the
    legacy flag is set. *)
Definition spec_autoPublish (auth : AuthInfo) : bool :=
  match auth_linkedUserId auth with
  | None => true
  | Some _ =>
      match auth_oversightLevel auth with
      | Some OvNone | Some OvNotify => true
      | _ => auth_allowAutoPost auth
      end
  end.

(** A post is due when it still needs review, is not soft-deleted, and its
    review deadline lies before [now]. *)
Definition eligible (now : Z) (post : Post) : Prop :=
  p_status post = needs_review
  ∧ p_isDeleted post = false
  ∧ p_reviewDeadline post < now.

#[global] Instance eligible_dec now post : Decision (eligible now post).
Proof. unfold eligible. apply _. Defined.

(** All the due posts of the table. *)
Definition eligible_posts (now : Z) (d : Db) : list (Id * Post) :=
  filter (λ kv, eligible now kv.2) (map_to_list (posts d)).

(** The ids of the posts one run of the sweep picks. *)
Definition sweepBatch (now : Z) (d : Db) : list Id :=
  pp_id <$> getPendingAutoPublish now d.

(** The notification the sweep sends for a picked post. *)
Definition sweepJob (kv : Id * Post) : Job :=
  sendAutoPublishedNotification kv.1 (p_userId kv.2).

(** A post in review by agent 1 and legacy user 0 with the given review
    deadline. *)
Definition reviewPost (deadline : Z) (deleted : bool) : Post :=
  {| p_creationTime := 0; p_apiKeyId := 2%nat; p_agentId := Some 1%nat;
     p_userId := 0%nat; p_title := "t"; p_content := "c"; p_tags := [];
     p_package := "react"; p_language := "ts"; p_version := None;
     p_status := needs_review; p_reviewDeadline := deadline;
     p_reviewedAt := None; p_reviewedBy := None; p_declineReason := None;
     p_createdAt := 0; p_updatedAt := 0; p_publishedAt := None;
     p_isDeleted := deleted; p_isHumanVerified := None;
     p_originalAgentUserId := None; p_searchText := "t c react ts" |}.

Definition dbOfPosts (l : list (Id * Post)) : Db :=
  set_posts (λ _, list_to_map l) emptyDb.

(** 101 posts, all overdue at time 10. *)
Definition db101 : Db :=
  dbOfPosts ((λ i, (i, reviewPost 5 false)) <$> seq 0 101).

(** One overdue post, one whose deadline is still ahead, one overdue but
    soft-deleted. *)
Definition db3 : Db :=
  dbOfPosts [(0%nat, reviewPost 5 false); (1%nat, reviewPost 50 false);
             (2%nat, reviewPost 5 true)].

(** A human (7), the placeholder account (0) that self-registration makes
    for the agent's key, the agent (1) and its key (2). *)
Definition human : User := mkUser (Some "ada@example.org") (Some "ada") false None None 0.
Definition placeholder : User := mkUser None None true None None 0.

Definition registeredDb : Db :=
  set_users (insert 7%nat human) (set_users (insert 0%nat placeholder) selfRegisteredDb).

Definition sampleBody : PostBody := mkBody "Title" "Content" [] "react" "ts" None.

(** The run behind the sweep's notification: the human links the agent,
    the agent posts through the HTTP route at time 100, nobody reviews,
    and the sweep runs once the deadline has passed. *)
Definition linkedThenSwept : option Db :=
  d1 ← linkAgentToHuman 60 1%nat 7%nat OvReview registeredDb;
  auth ← validateKey "h" d1;
  let d2 := (postsRoute 100 100 auth sampleBody d1).2 in
  Some (processAutoPublish (100 + SEVEN_DAYS_MS + 1) d2).1.

(** Who the caller is with respect to a post. *)
Definition callerIsAdmin (d : Db) (userId : Id) : bool :=
  match users d !! userId with
  | Some user => checkIsAdmin user
  | None => false
  end.

Definition isLinkedHuman (d : Db) (userId : Id) (post : Post) : Prop :=
  ∃ agentId agent,
    p_agentId post = Some agentId
    ∧ agents d !! agentId = Some agent
    ∧ a_linkedUserId agent = Some userId.

Definition isLegacyOwner (userId : Id) (post : Post) : Prop :=
  p_userId post = userId.

(** An admin (9) besides the linked human (7) of agent 1, whose post 0 is
    in review; the post's legacy owner is the placeholder account 0. *)
Definition admin : User := mkUser None (Some "v-raja") false None None 0.

Definition reviewDb : Db :=
  set_posts (insert 0%nat (reviewPost 500 false))
    (set_agents (insert 1%nat (mkAgent "molty" None (Some 7%nat) (Some 60) (Some OvReview) 50 60))
       (set_users (insert 9%nat admin) registeredDb)).

(** The handle as [agents.update] checks it: trimmed and lower-cased. *)
Definition normalise (handle : string) : string :=
  Js.toLowerCase (Js.trim handle).

(** A path accepts a handle when it does not answer INVALID_HANDLE. *)
Definition accepts {A} (r : Result A) : Prop := r ≠ Err INVALID_HANDLE.

Definition renameArgs (agentId : Id) (handle : string) : UpdateArgs :=
  mkUpdateArgs agentId None (Some handle).

(** The record of one fingerprint, and the requests of a fingerprint that
    arrive at the given times, one after the other. *)
Definition recordOf (fingerprint : string) (d : Db) : option (list Z) :=
  rl_timestamps <$> agentSignupRateLimits d !! fingerprint.

Definition requests (fingerprint : string) (times : list Z) (d : Db)
    : list RateLimitResult * Db :=
  foldl (λ acc now,
           let r := checkInitRateLimit now fingerprint acc.2 in
           (acc.1 ++ [r.1], r.2))
        ([], d) times.

(** [s] with bit [bit] of its character number [i] flipped. *)
Fixpoint flip_bit (i bit : nat) (s : string) : string :=
  match s, i with
  | EmptyString, _ => EmptyString
  | String c r, O =>
      String (ascii_of_N (N.lxor (Js.code c) (N.shiftl 1 (N.of_nat bit)))) r
  | String c r, S i' => String c (flip_bit i' bit r)
  end.

(** A link token for request [jd7f3k2m9x] that expired at time 500, as
    [generateClaimToken] mints it under the development secret. *)
Definition expiredToken : string :=
  "amQ3ZjNrMm05eDo1MDA6OWYwNzBiOWY4MDk4YTc5YTlkMzA4YWJjYWM1ZTA3ZDVhMDIxMWRkMjA2MDkwNDdmM2RjYzY5NjRhMGYzNTNhNw".

(** The base64url text of [jd7f3k2m9x:12abc:] followed by the HMAC of
    [jd7f3k2m9x:12abc] under the development secret. *)
Definition prefixToken : string :=
  "amQ3ZjNrMm05eDoxMmFiYzpkYzIyN2Y3ZTEyN2U5YzRmZjcyYTIxZGZhMjhjY2JlYmY2NmIzZGQ4NjY4YmRhMWEzYzFlYjRhYzhhNTAxNzFm".

(** Every character of [s] satisfies [p]. *)
Fixpoint all_chars (p : ascii → bool) (s : string) : bool :=
  match s with
  | EmptyString => true
  | String x r => p x && all_chars p r
  end.

(** A platform that reads every string as the id of a signup request (the
    sample databases hand out no other id). *)
Definition requestIds (id : string) : option DocRef := Some RequestRef.

(** ** Further operations of the signup rate limiter *)

Definition rateLimitMaxAge : Z := 24 * 60 * 60 * 1000.

(** One turn of the loop of [cleanupOldRateLimits] over [allEntries]. *)
Definition cleanupOne (now : Z)
    (acc : gmap string RateLimit * Z) (entry : string * RateLimit)
    : gmap string RateLimit * Z :=
  if bool_decide (rateLimitMaxAge < now - rl_lastUpdated entry.2)
  then (delete entry.1 acc.1, acc.2 + 1)
  else acc.

(** [cleanupOldRateLimits]: the new database and [cleanedCount]. *)
Definition cleanupOldRateLimits (now : Z) (d : Db) : Db * Z :=
  let allEntries := map_to_list (agentSignupRateLimits d) in
  let r := foldl (cleanupOne now) (agentSignupRateLimits d, 0) allEntries in
  (set_rateLimits (λ _, r.1) d, r.2).

(** Requests of one fingerprint served one after the other by
    [checkInitRateLimit]: the times of the requests that were let through,
    and the database afterwards. *)
Fixpoint serve (fingerprint : string) (times : list Z) (d : Db) : list Z * Db :=
  match times with
  | [] => ([], d)
  | now :: later =>
      let r := checkInitRateLimit now fingerprint d in
      let s := serve fingerprint later r.2 in
      ((if allowed r.1 then [now] else []) ++ s.1, s.2)
  end.

(** The timestamps on record for a fingerprint, none when it has no
    record. *)
Definition recorded (fingerprint : string) (d : Db) : list Z :=
  default [] (recordOf fingerprint d).

(** A timestamp that a request at [now] still counts: the filter of
    [checkInitRateLimit]. *)
Local Abbreviation within now := (λ ts : Z, now - ts < windowMs).

(** The admitted requests and the record agree on every window that ends
    after the admitted requests. *)
Definition window_agrees (fingerprint : string) (past : list Z) (d : Db) : Prop :=
  ∀ now, Forall (λ ts, ts ≤ now) past →
    filter (within now) past = filter (within now) (recorded fingerprint d).

(** The record of a fingerprint is stale for [cleanupOldRateLimits]. *)
Definition stale (now : Z) (record : RateLimit) : Prop :=
  rateLimitMaxAge < now - rl_lastUpdated record.

#[global] Instance stale_dec now record : Decision (stale now record).
Proof. unfold stale. apply _. Defined.

(** ** API keys: [revoke] ([convex/apiKeys.ts]) and [authenticateApiKey]
    ([convex/http.ts]) *)

(** [revoke].  An [ApiKey] record holds the fields that some handler
    reads; [revokedAt], which only [list] shows, is not among them. *)
Definition revoke (caller : option Id) (keyId : Id) (d : Db) : Result Db :=
  userId ← orThrow caller UNAUTHENTICATED;
  key ← orThrow (apiKeys d !! keyId) NOT_FOUND;
  _ ← throwIf (negb (bool_decide (k_userId key = userId))) FORBIDDEN;
  if k_isRevoked key then Ok d
  else
    Ok (set_apiKeys
          (insert keyId
             (mkApiKey (k_userId key) (k_agentId key) (k_keyHash key) true
                       (k_allowAutoPost key))) d).

(** [hashKey] and [hashCode]: SHA-256 of the UTF-8 bytes, in lower-case
    hexadecimal. *)
Definition hashKey (key : string) : string :=
  hex_of_bytes (sha256 (utf8_encode key)).

(** [s.slice(n)] for [0 ≤ n]. *)
Definition sliceFrom (n : nat) (s : string) : string :=
  String.substring n (String.length s - n) s.

(** The three 401 answers of [authenticateApiKey]. *)
Inductive AuthError :=
| MissingAuthorization      (* "Missing or invalid Authorization header" *)
| InvalidKeyFormat          (* "Invalid API key format" *)
| InvalidOrRevokedKey.      (* "Invalid or revoked API key" *)

(** [authenticateApiKey] on the value of the [Authorization] header.  The
    call of [markUsed] that follows a successful validation writes
    [lastUsedAt] only, which no handler reads. *)
Definition authenticateApiKey (authHeader : option string) (d : Db)
    : AuthError + AuthInfo :=
  match authHeader with
  | None => inl MissingAuthorization
  | Some authHeader =>
      if negb (String.prefix "Bearer " authHeader) then inl MissingAuthorization
      else
        let apiKey := sliceFrom 7 authHeader in
        if negb (String.prefix "molt_" apiKey) then inl InvalidKeyFormat
        else
          match validateKey (hashKey apiKey) d with
          | None => inl InvalidOrRevokedKey
          | Some result => inr result
          end
  end.

(** The key that answers for a hash: the stored key with that hash that
    has the least id. *)
Definition answersFor (d : Db) (keyHash : string) (keyId : Id) : Prop :=
  (∃ key, apiKeys d !! keyId = Some key ∧ k_keyHash key = keyHash)
  ∧ ∀ keyId' key', apiKeys d !! keyId' = Some key' → k_keyHash key' = keyHash →
      (keyId ≤ keyId')%nat.

(** ** Agent signup and claiming ([convex/agentSignup.ts], [convex/http.ts]) *)

Definition set_requests
    (f : gmap string SignupRequest → gmap string SignupRequest) (d : Db) : Db :=
  mkDb (users d) (agents d) (apiKeys d) (posts d) (comments d)
       (commentLikes d) (f (agentSignupRequests d)) (agentSignupRateLimits d)
       (scheduled d).

Definition LINK_EXPIRY_MS : Z := 7 * 24 * 60 * 60 * 1000.

Record CreatedAgent := mkCreated {
  cr_agentId : Id;
  cr_userId : Id;
  cr_apiKeyId : Id;
  cr_apiKey : string;
  cr_keyPrefix : string;
  cr_linkToken : string;
  cr_linkExpiresAt : Z
}.

(** The errors of [claimAgent]. *)
Inductive ClaimAgentError := CLAIM_NOT_FOUND | ALREADY_CLAIMED.

(** [claimAgent]; the outer [option] is [None] when a patch inside
    [performClaimMigration] throws. *)
Definition claimAgent
    (now : Z) (requestId : string) (humanUserId : Id) (d : Db)
    : option (ClaimAgentError + Db) :=
  match agentSignupRequests d !! requestId with
  | None => Some (inl CLAIM_NOT_FOUND)
  | Some request =>
      match r_userId request, r_apiKeyId request with
      | Some agentUserId, Some apiKeyId =>
          match users d !! agentUserId with
          | None => Some (inl CLAIM_NOT_FOUND)
          | Some agentUser =>
              if bool_decide (is_Some (u_absorbedInto agentUser))
              then Some (inl ALREADY_CLAIMED)
              else
                d' ← performClaimMigration now agentUserId humanUserId apiKeyId d;
                Some (inr d')
          end
      | _, _ => Some (inl CLAIM_NOT_FOUND)
      end
  end.

(** Where [GET /api/v1/agent-signup/claim] redirects to. *)
Inductive ClaimRedirect :=
| FailedInvalid              (* [/?claimed=failed&reason=invalid] *)
| FailedExpired              (* [/?claimed=failed&reason=expired] *)
| ToClaimPage (token : string).   (* [/claim?token=...] *)

Section Signup.

Variable hmacSha256Hex : string → string → option string.
Variable EMAIL_ACTION_SECRET : option string.
Variable decodeId : string → option DocRef.

(** [createAgentUserAndKey].  [apiKey] is the key that [generateApiKey]
    draws at random.  The social proof, the claim e-mail and the display
    name go to fields that no handler reads.  The result is [Some (Err _)]
    for a [ConvexError] and [None] when the platform throws (no HMAC, or
    the patch of a request that does not exist). *)
Definition createAgentUserAndKey
    (now : Z) (requestId handle apiKey : string) (d : Db)
    : option (Result (CreatedAgent * Db)) :=
  match validateHandle handle with
  | Some _ => Some (Err INVALID_HANDLE)
  | None =>
      if handleTaken handle d then Some (Err HANDLE_TAKEN)
      else
        let agentId := fresh (dom (agents d)) in
        let d := set_agents
                   (insert agentId (mkAgent handle None None None None now now)) d in
        let userId := fresh (dom (users d)) in
        let d := set_users
                   (insert userId (mkUser None None true None None now)) d in
        let keyHash := hashKey apiKey in
        let keyPrefix := String.substring 0 12 apiKey in
        let apiKeyId := fresh (dom (apiKeys d)) in
        let d := set_apiKeys
                   (insert apiKeyId
                      (mkApiKey userId (Some agentId) keyHash false (Some false))) d in
        let linkExpiresAt := now + LINK_EXPIRY_MS in
        linkToken ← generateClaimToken hmacSha256Hex requestId linkExpiresAt
                      (actionSecret EMAIL_ACTION_SECRET);
        _ ← agentSignupRequests d !! requestId;
        let d := set_requests
                   (insert requestId
                      (mkRequest "verified" (Some userId) (Some apiKeyId)
                                 (Some agentId) (Some linkExpiresAt))) d in
        Some (Ok (mkCreated agentId userId apiKeyId apiKey keyPrefix
                            linkToken linkExpiresAt, d))
  end.

(** [GET /api/v1/agent-signup/claim]: the token is checked before the
    database is read; a missing or empty [token] parameter is falsy.  The
    request is read through [getRequestById], whose validator
    [v.id("agentSignupRequests")] throws on anything but an id of that
    table: the handler then fails ([None]). *)
Definition claimRoute
    (now : Z) (token : option string) (d : Db) : option ClaimRedirect :=
  match token with
  | None => Some FailedInvalid
  | Some token =>
      if bool_decide (token = "") then Some FailedInvalid
      else
        match verifyClaimToken hmacSha256Hex token
                (actionSecret EMAIL_ACTION_SECRET) with
        | None => Some FailedInvalid
        | Some verified =>
            if negb (isValid verified) then Some FailedInvalid
            else if before (expiry verified) now then Some FailedExpired
            else
              match decodeId (signupRequestId verified) with
              | Some RequestRef =>
                  match agentSignupRequests d !! signupRequestId verified with
                  | None => Some FailedInvalid
                  | Some signupRequest =>
                      if bool_decide (is_Some (r_userId signupRequest))
                      then Some (ToClaimPage token)
                      else Some FailedInvalid
                  end
              | _ => None
              end
        end
  end.

End Signup.

(** ** Base64: the pieces of an encoding *)

(** The sextets that [b64_encode] maps to characters, and the padding it
    appends. *)
Fixpoint sextets (l : list ascii) : list N :=
  match l with
  | x :: y :: z :: r =>
      let n := N.lor (N.lor (N.shiftl (Js.code x) 16) (N.shiftl (Js.code y) 8))
                     (Js.code z) in
      N.land (N.shiftr n 18) 63 :: N.land (N.shiftr n 12) 63
        :: N.land (N.shiftr n 6) 63 :: N.land n 63 :: sextets r
  | [x; y] =>
      let n := N.lor (N.shiftl (Js.code x) 16) (N.shiftl (Js.code y) 8) in
      [N.land (N.shiftr n 18) 63; N.land (N.shiftr n 12) 63;
       N.land (N.shiftr n 6) 63]
  | [x] =>
      let n := N.shiftl (Js.code x) 16 in
      [N.land (N.shiftr n 18) 63; N.land (N.shiftr n 12) 63]
  | [] => []
  end.

Fixpoint padding (l : list ascii) : list ascii :=
  match l with
  | _ :: _ :: _ :: r => padding r
  | [_; _] => ["="%char]
  | [_] => ["="%char; "="%char]
  | [] => []
  end.

(** Base64 to base64url and back, as [generateClaimToken] and
    [verifyClaimToken] write it. *)
Definition toBase64Url (s : string) : string :=
  strip_trailing_eq (Js.replaceAll "/" "_" (Js.replaceAll "+" "-" s)).

Definition fromBase64Url (token : string) : string :=
  Js.replaceAll "_" "/" (Js.replaceAll "-" "+" token).

(** What every character of the alphabet satisfies: it decodes to its
    index, it is neither white space nor the padding character, and the
    two character replacements of base64url undo each other on it. *)
Definition alphabet_char_ok (k : nat) : bool :=
  let c := nth k b64_alphabet "A"%char in
  let url := if Ascii.eqb (if Ascii.eqb c "+" then "-"%char else c) "/"
             then "_"%char else (if Ascii.eqb c "+" then "-"%char else c) in
  let back := if Ascii.eqb (if Ascii.eqb url "-" then "+"%char else url) "_"
              then "/"%char else (if Ascii.eqb url "-" then "+"%char else url) in
  bool_decide (b64_value c = Some (N.of_nat k))
  && negb (is_b64_space c)
  && negb (Ascii.eqb c "=")
  && negb (Ascii.eqb url "=")
  && Ascii.eqb back c.

(** ** Strings *)

(** [s.includes(c)] for one character. *)
Fixpoint has_char (c : ascii) (s : string) : bool :=
  match s with
  | EmptyString => false
  | String x r => Ascii.eqb x c || has_char c r
  end.


(** ** Claims: what a request must point to *)

(** The request names an agent user that nobody has absorbed yet, and a
    key: what [claimAgent] and [claimAgentPublic] check before they
    migrate. *)
Definition claimable (d : Db) (requestId : string) (agentUserId apiKeyId : Id) : Prop :=
  ∃ request agentUser,
    agentSignupRequests d !! requestId = Some request
    ∧ r_userId request = Some agentUserId
    ∧ r_apiKeyId request = Some apiKeyId
    ∧ users d !! agentUserId = Some agentUser
    ∧ u_absorbedInto agentUser = None.

(** The agent once [linkAgentToHuman] has linked it at [now]. *)
Definition linkedAgent (now : Z) (humanUserId : Id) (agent : Agent) : Agent :=
  mkAgent (a_handle agent) (a_createdByUserId agent) (Some humanUserId)
          (Some now) (Some OvReview) (a_createdAt agent) now.

(** ** Further operations of [convex/posts.ts] *)

Record UpdatePostArgs := mkUpdatePostArgs {
  upd_postId : Id;
  upd_title : option string;
  upd_content : option string;
  upd_agentId : option Id
}.

Definition updatePost_patch (now : Z) (args : UpdatePostArgs) (post : Post) : Post :=
  let title := default (p_title post) (upd_title args) in
  let content := default (p_content post) (upd_content args) in
  {| p_creationTime := p_creationTime post;
     p_apiKeyId := p_apiKeyId post;
     p_agentId :=
       match upd_agentId args with
       | Some a => Some a
       | None => p_agentId post
       end;
     p_userId := p_userId post;
     p_title := title;
     p_content := content;
     p_tags := p_tags post;
     p_package := p_package post;
     p_language := p_language post;
     p_version := p_version post;
     p_status := p_status post;
     p_reviewDeadline := p_reviewDeadline post;
     p_reviewedAt := p_reviewedAt post;
     p_reviewedBy := p_reviewedBy post;
     p_declineReason := p_declineReason post;
     p_createdAt := p_createdAt post;
     p_updatedAt := now;
     p_publishedAt := p_publishedAt post;
     p_isDeleted := p_isDeleted post;
     p_isHumanVerified := p_isHumanVerified post;
     p_originalAgentUserId := p_originalAgentUserId post;
     p_searchText :=
       mkSearchText title content (p_package post) (p_language post) |}.

(** [updatePost]: for admins only, and never on a deleted post. *)
Definition updatePost
    (now : Z) (caller : option Id) (args : UpdatePostArgs) (d : Db) : Result Db :=
  userId ← orThrow caller UNAUTHENTICATED;
  _ ← throwIf (negb (match users d !! userId with
                     | Some user => checkIsAdmin user
                     | None => false
                     end)) FORBIDDEN;
  post ← orThrow (posts d !! upd_postId args) NOT_FOUND;
  _ ← throwIf (p_isDeleted post) NOT_FOUND;
  _ ← match upd_agentId args with
      | Some agentId => _ ← orThrow (agents d !! agentId) NOT_FOUND; Ok tt
      | None => Ok tt
      end;
  Ok (set_posts (insert (upd_postId args) (updatePost_patch now args post)) d).

(** ** The mutations as transitions of the database *)

(** What one mutation can do to one stored post. *)
Inductive PostChange : Post → Post → Prop :=
| pc_same post : PostChange post post
| pc_approve now userId args post :
    p_status post = needs_review →
    PostChange post (approve_patch now userId args post)
| pc_decline now userId reason post :
    p_status post = needs_review →
    PostChange post (decline_patch now userId reason post)
| pc_approveViaEmail now post :
    p_status post = needs_review →
    PostChange post (approveViaEmail_patch now post)
| pc_declineViaEmail now post :
    p_status post = needs_review →
    PostChange post (declineViaEmail_patch now post)
| pc_autoPublish now post :
    p_status post = needs_review → p_isDeleted post = false →
    PostChange post (autoPublish_patch now post)
| pc_delete now post :
    p_isDeleted post = false →
    PostChange post (delete_patch now post)
| pc_update now args post :
    p_isDeleted post = false →
    PostChange post (updatePost_patch now args post)
| pc_migrate agentUserId humanUserId post :
    PostChange post (migrate_post agentUserId humanUserId post).

(** One successful call of a mutation (or of a handler that runs
    mutations), from the state before to the state after: the mutations of
    [posts.ts], the sweep, the [POST /api/v1/posts] handler, [agents.update],
    the rate limiter and its cleanup, the two claims, [createAgentUserAndKey]
    and [apiKeys.revoke].  Not among them are
    [migrations/agentCentric.migrate] (inserts agents; sets [agentId] on
    keys, posts, comments and likes that have none), [apiKeys.create]
    (inserts an agent and a key), [apiKeys.markUsed] ([lastUsedAt]), the
    comment and invite mutations, the notification log, and the mutations
    that write signup requests or the profile of a user.  None of those
    writes a field of a post other than a missing [agentId], removes a post
    or a key, writes [keyHash], [isRevoked] or [allowAutoPost] of a stored
    key, or puts a job into the queue. *)
Inductive Transition : Db → Db → Prop :=
| t_createInternal now args d :
    Transition d (createInternal now args d).2
| t_postsRoute nowDb nowHttp auth body d :
    Transition d (postsRoute nowDb nowHttp auth body d).2
| t_approve now caller args d d' :
    approve now caller args d = Ok d' → Transition d d'
| t_decline now caller postId reason d d' :
    decline now caller postId reason d = Ok d' → Transition d d'
| t_deletePost now caller postId d d' :
    deletePost now caller postId d = Ok d' → Transition d d'
| t_updatePost now caller args d d' :
    updatePost now caller args d = Ok d' → Transition d d'
| t_approveViaEmail now postId d :
    Transition d (approveViaEmail now postId d).2
| t_declineViaEmail now postId d :
    Transition d (declineViaEmail now postId d).2
| t_autoPublish now postId d :
    Transition d (autoPublish now postId d)
| t_processAutoPublish now d :
    Transition d (processAutoPublish now d).1
| t_update now caller args d d' :
    update now caller args d = Ok d' → Transition d d'
| t_checkInitRateLimit now fingerprint d :
    Transition d (checkInitRateLimit now fingerprint d).2
| t_cleanupOldRateLimits now d :
    Transition d (cleanupOldRateLimits now d).1
| t_claimAgentPublic hmac secret decodeId now caller token d r d' :
    claimAgentPublic hmac secret decodeId now caller token d = Some (r, d') →
    Transition d d'
| t_claimAgent now requestId humanUserId d d' :
    claimAgent now requestId humanUserId d = Some (inr d') →
    Transition d d'
| t_createAgentUserAndKey hmac secret now requestId handle apiKey d r d' :
    createAgentUserAndKey hmac secret now requestId handle apiKey d
      = Some (Ok (r, d')) →
    Transition d d'
| t_revoke caller keyId d d' :
    revoke caller keyId d = Ok d' → Transition d d'.

(** Every stored post is in one of the four shapes the workflow produces. *)
Definition post_consistent (post : Post) : Prop :=
  match p_status post with
  | needs_review =>
      p_publishedAt post = None ∧ p_isHumanVerified post = None
      ∧ p_reviewedAt post = None
  | approved =>
      is_Some (p_publishedAt post) ∧ p_isHumanVerified post = Some true
      ∧ p_reviewedAt post = p_publishedAt post
  | declined =>
      p_publishedAt post = None ∧ p_isHumanVerified post = None
      ∧ is_Some (p_reviewedAt post)
  | auto_published =>
      is_Some (p_publishedAt post) ∧ p_isHumanVerified post = Some false
      ∧ p_reviewedAt post = None
  end.

Definition posts_consistent (d : Db) : Prop :=
  ∀ postId post, posts d !! postId = Some post →
    post_consistent post
    ∧ p_reviewDeadline post = p_createdAt post + SEVEN_DAYS_MS.

(** Sample histories.  Post 0 of [reviewDb] is approved from the e-mail
    link at time 100; later the linked human declines it, deletes it, and
    the sweep runs. *)
Definition approvedDb : Db := (approveViaEmail 100 0%nat reviewDb).2.

Definition laterDb : Db :=
  (processAutoPublish 1000
     (match deletePost 300 (Some 7%nat) 0%nat
              (match decline 200 (Some 7%nat) 0%nat None approvedDb with
               | Ok d => d
               | Err _ => approvedDb
               end) with
      | Ok d => d
      | Err _ => approvedDb
      end)).1.

(** The state of that history just after the deletion. *)
Definition deletedDb : Db :=
  match deletePost 300 (Some 7%nat) 0%nat
          (match decline 200 (Some 7%nat) 0%nat None approvedDb with
           | Ok d => d
           | Err _ => approvedDb
           end) with
  | Ok d => d
  | Err _ => approvedDb
  end.

(** The post that a scheduled e-mail job is about. *)
Definition jobPost (j : Job) : Id :=
  match j with
  | sendNewPostNotification postId _
  | sendImmediateAutoPostNotification postId _
  | sendAutoPublishedNotification postId _ => postId
  end.

(** What a queued job can rely on: its post is stored, and the post of an
    "auto-published" notice of the sweep is auto-published. *)
Definition job_justified (d : Db) (j : Job) : Prop :=
  ∃ post, posts d !! jobPost j = Some post
    ∧ match j with
      | sendAutoPublishedNotification _ _ =>
          p_status post = auto_published ∧ p_isHumanVerified post = Some false
      | _ => True
      end.

(** [d'] is [d] with another [posts] table. *)
Definition only_posts_changed (d d' : Db) : Prop :=
  d' = set_posts (λ _, posts d') d.

(** A post under level review through the HTTP route at time 100, and the
    state after the sweep has run once the deadline has passed. *)
Definition postedDb : Db :=
  (postsRoute 100 101 (mkAuth (Some 1%nat) (Some 7%nat) (Some OvReview) 0%nat 2%nat false)
     sampleBody emptyDb).2.

Definition sweptDb : Db :=
  (processAutoPublish (100 + SEVEN_DAYS_MS + 1) postedDb).1.

(** [d'] is [d] with another [posts] table and another queue. *)
Definition only_posts_and_queue_changed (d d' : Db) : Prop :=
  d' = mkDb (users d) (agents d) (apiKeys d) (posts d') (comments d)
            (commentLikes d) (agentSignupRequests d) (agentSignupRateLimits d)
            (scheduled d').

(** A pending signup request, and the state after the agent ["molty"] has
    signed up on it at time 1000 and drawn the key ["molt_abc"]; [None]
    stands for an unset [EMAIL_ACTION_SECRET]. *)
Definition requestDb : Db :=
  set_requests (insert "req1" (mkRequest "pending" None None None None)) emptyDb.

Definition signedUp : option (Result (CreatedAgent * Db)) :=
  createAgentUserAndKey webCryptoHmac None 1000 "req1" "molty" "molt_abc" requestDb.

Definition signedUpDb : Db :=
  match signedUp with
  | Some (Ok (_, d)) => d
  | _ => requestDb
  end.

(** The key that [signedUpDb] stores for ["molt_abc"]. *)
Definition signedUpKey : ApiKey :=
  mkApiKey 0%nat (Some 0%nat) (hashKey "molt_abc") false (Some false).

(** [signedUpDb] after the owner has revoked the key, and after a post has
    then been made and swept. *)
Definition revokedDb : Db :=
  match revoke (Some 0%nat) 0%nat signedUpDb with
  | Ok d => d
  | Err _ => signedUpDb
  end.

Definition revokedLaterDb : Db :=
  (processAutoPublish 5000
     (postsRoute 2000 2001 (unlinkedAuth 0 0 0) sampleBody revokedDb).2).1.

(** A legacy agent: user 0 is an agent-created account with key 2 (no
    record in [agents]), a post, a comment and a like; user 7 is a human;
    request ["old"] points to the agent user and its key. *)
Definition legacyDb : Db :=
  mkDb {[ 0%nat := placeholder; 7%nat := human ]}
       ∅
       {[ 2%nat := mkApiKey 0%nat None "h" false (Some false) ]}
       {[ 0%nat := reviewPost 500 false ]}
       {[ 0%nat := mkComment 0%nat 2%nat 0%nat ]}
       {[ 0%nat := mkLike 0%nat 2%nat 0%nat ]}
       {[ "old" := mkRequest "verified" (Some 0%nat) (Some 2%nat) None (Some 9000) ]}
       ∅ [].

(** [signedUpDb] with a human account (7), and the link token that the
    signup returned. *)
Definition claimDb : Db := set_users (insert 7%nat human) signedUpDb.

Definition sampleLinkToken : string :=
  "cmVxMTo2MDQ4MDEwMDA6ZmZjY2UyYzhhZWI1YzdhNWU2ZTY1YzQzMDQzN2Q0ZmUyYTM4NGY0M2VjYTBmZDMzZmFkYmRmZWRkYjg5MDFmOQ".

(** A platform that reads ["post0"] as the id of post 0 and every other
    string as the id of a signup request, and the link token for
    ["post0"] with expiry 9000 under the default secret. *)
Definition postIds (id : string) : option DocRef :=
  if bool_decide (id = "post0") then Some (PostRef 0%nat) else Some RequestRef.

Definition postToken : string :=
  "cG9zdDA6OTAwMDphYTY4ZjczZDFjZTMwNmVkYWI3YmNkZWQxMDIzZDg5YjQ3ODFkZTc0ZWExMGM1NzhjNmY0OWY3N2Y4ZDA3YTQx".

(** * Checks of the primitives against published values *)

(** FIPS 180-4, the digest of ["abc"]. *)
Example sha256_abc :
  hex_of_bytes (sha256 (utf8_encode "abc"))
  = "ba7816bf8f01cfea414140de5dae2223b00361a396177a9cb410ff61f20015ad".
Proof. vm_compute. reflexivity. Qed.

(** RFC 4231, test case 2. *)
Example hmac_rfc4231_2 :
  webCryptoHmac "Jefe" "what do ya want for nothing?"
  = Some "5bdcc146bf60754e6a042426089575c75a003f089d2739839dec58b964ec3843".
Proof. vm_compute. reflexivity. Qed.

(** [atob] on padded, unpadded and malformed input. *)
Example atob_examples :
  atob "YTpiOmM=" = Some "a:b:c" ∧ atob "YTpiOmM" = Some "a:b:c"
  ∧ atob " YQ == " = Some "a" ∧ atob "YQ=" = None ∧ atob "Y" = None
  ∧ atob "YQ-_" = None ∧ atob "" = Some "".
Proof. vm_compute. repeat split. Qed.

Example btoa_examples :
  btoa "a:b:c" = "YTpiOmM=" ∧ btoa "a" = "YQ==" ∧ btoa "" = "".
Proof. vm_compute. repeat split. Qed.

Example string_helpers :
  Js.trim "  Molty 2 " = "Molty 2"
  ∧ Js.toLowerCase "MoLtY-2" = "molty-2"
  ∧ Js.split ":" "a::b" = ["a"; ""; "b"]
  ∧ Js.split ":" "" = [""]
  ∧ Js.join " " ["t"; "c"; "react"; "ts"] = "t c react ts"
  ∧ Js.has_double_hyphen "a--b" = true
  ∧ Js.has_double_hyphen "a-b-c" = false.
Proof. vm_compute. repeat split. Qed.

(** The handle pattern on a few strings. *)
Example handle_pattern_examples :
  handle_pattern_or_letter "molty" = true
  ∧ handle_pattern_or_letter "m" = true
  ∧ handle_pattern_or_letter "molty-" = false
  ∧ handle_pattern_or_letter "2molty" = false
  ∧ handle_pattern_or_letter "Molty" = false
  ∧ handle_pattern_or_letter "a--b" = true
  ∧ handle_pattern_or_letter "" = false.
Proof. vm_compute. repeat split. Qed.

(** * Properties *)

(** ** Post creation: the HTTP layer and [createInternal] *)

Lemma posts_schedule j d : posts (schedule j d) = posts d.
Proof. reflexivity. Qed.

Lemma posts_http_notify auth postId d : posts (http_notify auth postId d) = posts d.
Proof.
  unfold http_notify.
  repeat (case_match; try reflexivity).
Qed.

(** The row that the handler stores is the document of [createInternal]. *)
Lemma storedPost_postsRoute nowDb nowHttp auth body d :
  storedPost (postsRoute nowDb nowHttp auth body d)
  = Some (createInternal_doc nowDb (http_createArgs auth body)).
Proof.
  unfold storedPost, postsRoute, createInternal.
  destruct (http_shouldAutoPublish auth); cbn [fst snd resp_id];
    rewrite posts_http_notify; cbn [posts set_posts];
    apply lookup_insert_eq.
Qed.

Lemma resp_status_postsRoute nowDb nowHttp auth body d :
  resp_status (postsRoute nowDb nowHttp auth body d).1
  = if http_shouldAutoPublish auth then auto_published else needs_review.
Proof.
  unfold postsRoute, createInternal.
  destruct (http_shouldAutoPublish auth); reflexivity.
Qed.

(** The HTTP decision is the one the specification words. *)
Lemma http_shouldAutoPublish_spec auth :
  http_shouldAutoPublish auth = spec_autoPublish auth.
Proof.
  destruct auth as [ag [l|] [[]|] u k []]; reflexivity.
Qed.

(** One direction does hold: a stored [auto_published] is always reported
    as such. *)
Lemma stored_auto_reported_auto auth body :
  createInternal_shouldAutoPublish (http_createArgs auth body) = true →
  http_shouldAutoPublish auth = true.
Proof.
  destruct auth as [ag [l|] [[]|] u k []]; cbn; intros; done.
Qed.

(** The two decisions differ exactly when the level is review and the agent
    is unlinked or carries the legacy flag, or when no level is set on an
    unlinked agent without the flag. *)
Lemma decisions_differ_iff auth body :
  http_shouldAutoPublish auth
    ≠ createInternal_shouldAutoPublish (http_createArgs auth body)
  ↔ (auth_oversightLevel auth = Some OvReview
       ∧ (auth_linkedUserId auth = None ∨ auth_allowAutoPost auth = true))
    ∨ (auth_oversightLevel auth = None
       ∧ auth_linkedUserId auth = None ∧ auth_allowAutoPost auth = false).
Proof.
  destruct auth as [ag [l|] [[]|] u k []]; cbn;
    intuition (congruence || discriminate).
Qed.

(** A key minted by the self-registration flow resolves to the unlinked
    context. *)
Lemma validateKey_selfRegistered :
  validateKey "h" selfRegisteredDb = Some (unlinkedAuth 1 0 2).
Proof. vm_compute. reflexivity. Qed.

(** C1 (code evaluated at the failing input).  For a self-registered agent
    that no human has linked (no oversight level, legacy flag off), the
    HTTP layer answers [auto_published] while the post that
    [createInternal] stored is [needs_review]: the two decisions diverge. *)
Theorem http_reports_auto_but_stored_needs_review
    (nowDb nowHttp : Z) (agentId userId keyId : Id) (body : PostBody) (d : Db) :
  let r := postsRoute nowDb nowHttp (unlinkedAuth agentId userId keyId) body d in
  resp_status r.1 = auto_published
  ∧ p_status <$> storedPost r = Some needs_review.
Proof.
  intros r. subst r. split.
  - rewrite resp_status_postsRoute. reflexivity.
  - rewrite storedPost_postsRoute. reflexivity.
Qed.

(** The same run seen from the table: the post of an unlinked agent with
    no oversight level is stored as [needs_review], without [publishedAt]
    and without [isHumanVerified]. *)
Lemma unlinked_unset_agent_post_is_stored_needs_review
    (nowDb nowHttp : Z) (agentId userId keyId : Id) (body : PostBody) (d : Db) :
  let auth := unlinkedAuth agentId userId keyId in
  let r := postsRoute nowDb nowHttp auth body d in
  auth_linkedUserId auth = None
  ∧ auth_oversightLevel auth = None
  ∧ ∃ post, storedPost r = Some post
      ∧ p_status post = needs_review
      ∧ p_publishedAt post = None
      ∧ p_isHumanVerified post = None.
Proof.
  intros auth r. subst auth r. split; [reflexivity|]. split; [reflexivity|].
  eexists. split; [apply storedPost_postsRoute|]. repeat split.
Qed.

(** C2 (amended).  The stored post is [auto_published], with
    [publishedAt] the creation time and [isHumanVerified] false, whenever
    the oversight level is none or notify, or no level is set and the
    legacy flag is on.  For an agent with a linked human it is
    [needs_review], with neither field set, when the level is review
    (whatever the legacy flag) or when no level is set and the flag is
    off. *)
Theorem stored_status_follows_level_then_flag
    (nowDb nowHttp : Z) (auth : AuthInfo) (body : PostBody) (d : Db) :
  let r := postsRoute nowDb nowHttp auth body d in
  ∃ post, storedPost r = Some post
    ∧ ((auth_oversightLevel auth = Some OvNone
        ∨ auth_oversightLevel auth = Some OvNotify
        ∨ (auth_oversightLevel auth = None ∧ auth_allowAutoPost auth = true)) →
         p_status post = auto_published
         ∧ p_publishedAt post = Some nowDb
         ∧ p_isHumanVerified post = Some false)
    ∧ (is_Some (auth_linkedUserId auth) →
       (auth_oversightLevel auth = Some OvReview
        ∨ (auth_oversightLevel auth = None ∧ auth_allowAutoPost auth = false)) →
         p_status post = needs_review
         ∧ p_publishedAt post = None
         ∧ p_isHumanVerified post = None).
Proof.
  intros r. subst r. eexists. split; [apply storedPost_postsRoute|].
  destruct auth as [ag l [[]|] u k []]; cbn; split; intros; repeat split;
    repeat match goal with
    | H : _ ∨ _ |- _ => destruct H
    | H : _ ∧ _ |- _ => destruct H
    end; congruence.
Qed.

(** A linked agent under review posts at time 100: the post waits for
    review; the same agent with level notify is published at once. *)
Lemma stored_status_follows_level_then_flag_witness :
  (p_status <$> storedPost
     (postsRoute 100 101 (mkAuth (Some 1%nat) (Some 7%nat) (Some OvReview) 0%nat 2%nat false)
        sampleBody reviewDb)) = Some needs_review
  ∧ (p_publishedAt <$> storedPost
       (postsRoute 100 101 (mkAuth (Some 1%nat) (Some 7%nat) (Some OvNotify) 0%nat 2%nat false)
          sampleBody reviewDb)) = Some (Some 100).
Proof.
  split.
  - destruct (stored_status_follows_level_then_flag 100 101
                (mkAuth (Some 1%nat) (Some 7%nat) (Some OvReview) 0%nat 2%nat false)
                sampleBody reviewDb) as (post & Hst & _ & H).
    rewrite Hst. cbn [fmap option_fmap option_map].
    destruct H as (Hs & _); [by eexists | by left |]. by rewrite Hs.
  - destruct (stored_status_follows_level_then_flag 100 101
                (mkAuth (Some 1%nat) (Some 7%nat) (Some OvNotify) 0%nat 2%nat false)
                sampleBody reviewDb) as (post & Hst & H & _).
    rewrite Hst. cbn [fmap option_fmap option_map].
    destruct H as (_ & Hp & _); [by right; left |]. by rewrite Hp.
Defined.

(** C2 (counterexample).  A linked agent whose level is review, with a key
    that carries the legacy flag (both can be passed to [apiKeys.create]):
    the flag is on, yet the post is stored as [needs_review], because the
    level takes precedence over the flag. *)
Lemma legacy_flag_does_not_override_review :
  let auth := mkAuth (Some 1%nat) (Some 7%nat) (Some OvReview) 0%nat 2%nat true in
  auth_allowAutoPost auth = true
  ∧ (p_status <$> storedPost (postsRoute 100 101 auth sampleBody reviewDb))
    = Some needs_review.
Proof. vm_compute. split; reflexivity. Qed.

(** What the stored status is in general: [auto_published] exactly when the
    level is none or notify, or no level is set and the legacy flag is on;
    whether a human is linked plays no part. *)
Lemma stored_status_characterisation nowDb nowHttp auth body d :
  p_status <$> storedPost (postsRoute nowDb nowHttp auth body d)
  = Some (match auth_oversightLevel auth with
          | Some OvNone | Some OvNotify => auto_published
          | Some OvReview => needs_review
          | None => if auth_allowAutoPost auth then auto_published else needs_review
          end).
Proof.
  rewrite storedPost_postsRoute.
  destruct auth as [ag l [[]|] u k []]; reflexivity.
Qed.

(** ** The deadline sweep *)

Lemma elem_of_by_reviewDeadline status d kv :
  kv ∈ by_reviewDeadline status d
  ↔ posts d !! kv.1 = Some kv.2 ∧ p_status kv.2 = status.
Proof.
  unfold by_reviewDeadline.
  rewrite merge_sort_Permutation, list_elem_of_filter.
  destruct kv as [id post]. rewrite elem_of_map_to_list. cbn. tauto.
Qed.

Lemma NoDup_by_reviewDeadline status d :
  NoDup (by_reviewDeadline status d).*1.
Proof.
  unfold by_reviewDeadline. rewrite merge_sort_Permutation.
  apply (sublist_NoDup _ (map_to_list (posts d)).*1).
  - apply NoDup_fst_map_to_list.
  - apply fmap_sublist, sublist_filter.
Qed.

Lemma elem_of_pendingScan now d kv :
  kv ∈ pendingScan now d ↔ posts d !! kv.1 = Some kv.2 ∧ eligible now kv.2.
Proof.
  unfold pendingScan, pending_filter, eligible.
  rewrite list_elem_of_filter, elem_of_by_reviewDeadline. tauto.
Qed.

Lemma NoDup_pendingScan now d : NoDup (pendingScan now d).*1.
Proof.
  unfold pendingScan.
  apply (sublist_NoDup _ (by_reviewDeadline needs_review d).*1).
  - apply NoDup_by_reviewDeadline.
  - apply fmap_sublist, sublist_filter.
Qed.

(** The scan is a rearrangement of the due posts. *)
Lemma pendingScan_eligible_posts now d :
  pendingScan now d ≡ₚ eligible_posts now d.
Proof.
  unfold pendingScan, by_reviewDeadline, eligible_posts.
  rewrite merge_sort_Permutation, list_filter_filter.
  erewrite list_filter_iff; [reflexivity|].
  intros [id post]. unfold pending_filter, eligible. cbn. tauto.
Qed.

#[global] Instance index_le_total : Total index_le.
Proof.
  intros [i p] [j q]. unfold index_le, index_leb. cbn.
  destruct (Z.ltb_spec (p_reviewDeadline p) (p_reviewDeadline q)),
    (Z.ltb_spec (p_reviewDeadline q) (p_reviewDeadline p)),
    (Z.eqb_spec (p_reviewDeadline p) (p_reviewDeadline q)),
    (Z.eqb_spec (p_reviewDeadline q) (p_reviewDeadline p)),
    (Z.ltb_spec (p_creationTime p) (p_creationTime q)),
    (Z.ltb_spec (p_creationTime q) (p_creationTime p)),
    (Z.eqb_spec (p_creationTime p) (p_creationTime q)),
    (Z.eqb_spec (p_creationTime q) (p_creationTime p)),
    (Nat.leb_spec i j), (Nat.leb_spec j i); cbn; auto; lia.
Qed.

#[global] Instance index_le_trans : Transitive index_le.
Proof.
  intros [i p] [j q] [k r]. unfold index_le, index_leb. cbn.
  rewrite !orb_true_iff, !andb_true_iff, !orb_true_iff, !andb_true_iff.
  rewrite !Z.ltb_lt, !Z.eqb_eq, !Nat.leb_le. lia.
Qed.

Lemma StronglySorted_filter {A} (R : relation A) (P : A → Prop)
    `{!∀ x, Decision (P x)} (l : list A) :
  StronglySorted R l → StronglySorted R (filter P l).
Proof.
  induction 1 as [|x l _ IH Hx]; [constructor|].
  rewrite filter_cons. destruct (decide (P x)); [|assumption].
  constructor; [assumption|].
  apply Forall_forall. intros y [_ Hy]%list_elem_of_filter.
  by apply (proj1 (Forall_forall _ _) Hx).
Qed.

(** The scan yields the due posts by deadline, then creation time, then
    id. *)
Lemma pendingScan_sorted now d : StronglySorted index_le (pendingScan now d).
Proof.
  unfold pendingScan, by_reviewDeadline.
  apply StronglySorted_filter, StronglySorted_merge_sort; apply _.
Qed.

Lemma pp_id_pendingOf (l : list (Id * Post)) : pp_id <$> (pendingOf <$> l) = l.*1.
Proof. rewrite <- list_fmap_compose. reflexivity. Qed.

Lemma sweepBatch_unfold now d : sweepBatch now d = (take 100 (pendingScan now d)).*1.
Proof. unfold sweepBatch, getPendingAutoPublish. apply pp_id_pendingOf. Qed.

(** The tables other than [posts] and the queue are never touched by
    [autoPublish]; a due post is patched in place. *)
Lemma autoPublish_due now id post d :
  posts d !! id = Some post →
  p_status post = needs_review → p_isDeleted post = false →
  autoPublish now id d = set_posts (insert id (autoPublish_patch now post)) d.
Proof.
  intros Hp Hs Hd. unfold autoPublish. rewrite Hp, Hs, Hd. reflexivity.
Qed.

(** The loop of the sweep over posts that are present, in review and not
    deleted, each listed once. *)
Lemma sweep_loop now (l : list (Id * Post)) : ∀ d n,
  NoDup l.*1 →
  (∀ kv, kv ∈ l →
     posts d !! kv.1 = Some kv.2
     ∧ p_status kv.2 = needs_review ∧ p_isDeleted kv.2 = false) →
  let r := foldl (processOne now) (d, n) (pendingOf <$> l) in
  (∀ kv, kv ∈ l → posts r.1 !! kv.1 = Some (autoPublish_patch now kv.2))
  ∧ (∀ id, id ∉ l.*1 → posts r.1 !! id = posts d !! id)
  ∧ scheduled r.1 = scheduled d ++ (sweepJob <$> l)
  ∧ r.2 = n + Z.of_nat (length l).
Proof.
  induction l as [|[id post] l IH]; intros d n Hnd Hall; cbn zeta.
  - cbn. rewrite app_nil_r. split; [intros kv []%elem_of_nil|].
    repeat split. lia.
  - apply NoDup_cons in Hnd as [Hid Hnd]. cbn in Hid.
    destruct (Hall (id, post)) as (Hp & Hs & Hd); [left|]. cbn in Hp, Hs, Hd.
    pose (d1 := schedule (sweepJob (id, post))
                 (set_posts (insert id (autoPublish_patch now post)) d)).
    assert (Hstep :
      foldl (processOne now) (d, n) (pendingOf <$> (id, post) :: l)
      = foldl (processOne now) (d1, n + 1) (pendingOf <$> l)).
    { cbn [fmap list_fmap foldl]. f_equal. unfold processOne.
      cbn [fst snd pendingOf pp_id pp_userId].
      rewrite (autoPublish_due now id post d Hp Hs Hd). reflexivity. }
    rewrite Hstep. clear Hstep.
    assert (Hposts1 : posts d1 = <[id := autoPublish_patch now post]> (posts d))
      by reflexivity.
    specialize (IH d1 (n + 1) Hnd).
    destruct IH as (IH1 & IH2 & IH3 & IH4).
    { intros kv Hkv. destruct (Hall kv) as (Hp' & Hs' & Hd'); [by right|].
      repeat split; try assumption.
      rewrite Hposts1, lookup_insert_ne; [assumption|].
      intros ->. apply Hid. apply list_elem_of_fmap. by exists kv. }
    repeat split.
    + intros kv [->|Hkv]%elem_of_cons; [|by apply IH1].
      cbn. rewrite IH2 by assumption. rewrite Hposts1. apply lookup_insert_eq.
    + intros id' Hid'. cbn [fmap list_fmap fst] in Hid'.
      apply not_elem_of_cons in Hid' as [Hne Hid'].
      rewrite IH2 by assumption. rewrite Hposts1. by apply lookup_insert_ne.
    + rewrite IH3. subst d1. cbn [scheduled schedule set_posts fmap list_fmap].
      rewrite <- app_assoc. reflexivity.
    + rewrite IH4. cbn [length]. lia.
Qed.

Lemma elem_of_take_pendingScan n now d kv :
  kv ∈ take n (pendingScan now d) → kv ∈ pendingScan now d.
Proof. intros H. eapply elem_of_sublist; [exact H | apply sublist_take]. Qed.

Lemma sweepBatch_elem now d id :
  id ∈ sweepBatch now d →
  ∃ post, (id, post) ∈ take 100 (pendingScan now d)
          ∧ posts d !! id = Some post ∧ eligible now post.
Proof.
  rewrite sweepBatch_unfold. intros ([id' post] & -> & Hin)%list_elem_of_fmap.
  exists post. split; [assumption|].
  apply elem_of_take_pendingScan, elem_of_pendingScan in Hin. exact Hin.
Qed.

Lemma processAutoPublish_loop now d :
  let l := take 100 (pendingScan now d) in
  let r := processAutoPublish now d in
  (∀ kv, kv ∈ l → posts r.1 !! kv.1 = Some (autoPublish_patch now kv.2))
  ∧ (∀ id, id ∉ l.*1 → posts r.1 !! id = posts d !! id)
  ∧ scheduled r.1 = scheduled d ++ (sweepJob <$> l)
  ∧ r.2 = Z.of_nat (length l).
Proof.
  intros l r. subst r. unfold processAutoPublish, getPendingAutoPublish.
  fold l.
  destruct (sweep_loop now l d 0) as (H1 & H2 & H3 & H4).
  - apply (sublist_NoDup _ (pendingScan now d).*1); [apply NoDup_pendingScan|].
    apply fmap_sublist, sublist_take.
  - intros kv Hkv.
    apply elem_of_take_pendingScan, elem_of_pendingScan in Hkv.
    unfold eligible in Hkv. tauto.
  - repeat split; assumption.
Qed.

(** After a run, a post is due only if it was due before and was not in the
    batch. *)
Lemma pendingScan_after_sweep now d id post :
  (id, post) ∈ pendingScan now (processAutoPublish now d).1 →
  (id ∉ sweepBatch now d) ∧ posts d !! id = Some post ∧ eligible now post.
Proof.
  intros [Hp He]%elem_of_pendingScan. cbn [fst snd] in Hp, He.
  destruct (processAutoPublish_loop now d) as (H1 & H2 & _ & _).
  destruct (decide (id ∈ sweepBatch now d)) as [Hin|Hout].
  - exfalso. apply sweepBatch_elem in Hin as (post0 & Hin & _ & _).
    specialize (H1 _ Hin). cbn [fst snd] in H1. rewrite H1 in Hp.
    injection Hp as <-. destruct He as [He _]. discriminate He.
  - split; [assumption|]. split; [|assumption].
    rewrite <- H2; [assumption|]. by rewrite <- sweepBatch_unfold.
Qed.

(** C3 (amended).  One run of the sweep at time [now] picks exactly the
    first 100 due posts in index order: the picked posts are distinct, all
    of them were due, there are 100 of them, or as many as are due when
    these are fewer, and every picked post comes before every due post
    that is left over.  Every picked post becomes [auto_published] with
    [publishedAt = now] and [isHumanVerified = false]; every other post is
    unchanged.  When at most 100 posts were due, every due post is picked
    and an immediate second run does nothing; in general a second run only
    picks posts that were already due before the first run and were left
    over by it. *)
Theorem sweep_transitions_first_batch (now : Z) (d : Db) :
  let batch := sweepBatch now d in
  let d' := (processAutoPublish now d).1 in
  (∀ id, id ∈ batch →
     ∃ post post',
       posts d !! id = Some post ∧ eligible now post
       ∧ posts d' !! id = Some post'
       ∧ post' = autoPublish_patch now post
       ∧ p_status post' = auto_published
       ∧ p_publishedAt post' = Some now
       ∧ p_isHumanVerified post' = Some false)
  ∧ (∀ id, id ∉ batch → posts d' !! id = posts d !! id)
  ∧ NoDup batch
  ∧ length batch = Nat.min 100 (length (eligible_posts now d))
  ∧ (processAutoPublish now d).2 = Z.of_nat (length batch)
  ∧ ((length (eligible_posts now d) ≤ 100)%nat →
       (∀ id post, posts d !! id = Some post → eligible now post → id ∈ batch)
       ∧ processAutoPublish now d' = (d', 0))
  ∧ (∀ id, id ∈ sweepBatch now d' →
       (id ∉ batch) ∧ ∃ post, posts d !! id = Some post ∧ eligible now post)
  ∧ (∀ id post id' post',
       id ∈ batch → posts d !! id = Some post →
       id' ∉ batch → posts d !! id' = Some post' → eligible now post' →
       index_le (id, post) (id', post')).
Proof.
  intros batch d'.
  destruct (processAutoPublish_loop now d) as (H1 & H2 & _ & H4).
  fold d' in H1, H2.
  assert (Hbatch : batch = (take 100 (pendingScan now d)).*1)
    by apply sweepBatch_unfold.
  split; [|split; [|split; [|split; [|split; [|split; [|split]]]]]].
  - intros id Hin. apply sweepBatch_elem in Hin as (post & Hin & Hp & He).
    exists post, (autoPublish_patch now post).
    specialize (H1 _ Hin). cbn in H1. repeat split; try assumption; apply He.
  - intros id Hout. apply H2. by rewrite <- Hbatch.
  - rewrite Hbatch.
    apply (sublist_NoDup _ (pendingScan now d).*1); [apply NoDup_pendingScan|].
    apply fmap_sublist, sublist_take.
  - rewrite Hbatch, length_fmap, length_take.
    by rewrite (Permutation_length (pendingScan_eligible_posts now d)).
  - rewrite H4, Hbatch, length_fmap. reflexivity.
  - intros Hle.
    assert (Hall : take 100 (pendingScan now d) = pendingScan now d).
    { apply take_ge. by rewrite pendingScan_eligible_posts. }
    assert (Hpick : ∀ id post,
      posts d !! id = Some post → eligible now post → id ∈ batch).
    { intros id post Hp He. rewrite Hbatch, Hall.
      apply list_elem_of_fmap. exists (id, post). split; [reflexivity|].
      by apply elem_of_pendingScan. }
    split; [exact Hpick|].
    assert (Hnone : pendingScan now d' = []).
    { apply elem_of_nil_inv. intros [id post] Hkv.
      apply pendingScan_after_sweep in Hkv as (Hout & Hp & He).
      apply Hout. by apply (Hpick _ post). }
    unfold processAutoPublish, getPendingAutoPublish. rewrite Hnone.
    reflexivity.
  - intros id Hin. apply sweepBatch_elem in Hin as (post & Hin & _ & _).
    apply elem_of_take_pendingScan, pendingScan_after_sweep in Hin
      as (Hout & Hp & He).
    split; [exact Hout|]. by exists post.
  - intros id post id' post' Hin Hp Hout Hp' He'.
    apply sweepBatch_elem in Hin as (post0 & Hin & Hp0 & _).
    assert (post0 = post) as -> by congruence.
    pose proof (pendingScan_sorted now d) as Hsorted.
    rewrite <- (take_drop 100 (pendingScan now d)) in Hsorted.
    apply (StronglySorted_app_1_elem_of _ _ _ _ _ Hsorted Hin).
    assert (Hscan : (id', post') ∈ pendingScan now d)
      by (by apply elem_of_pendingScan).
    rewrite <- (take_drop 100 (pendingScan now d)) in Hscan.
    apply elem_of_app in Hscan as [Htake|Hdrop]; [|exact Hdrop].
    exfalso. apply Hout. rewrite Hbatch.
    apply list_elem_of_fmap. by exists (id', post').
Qed.

(** The amended statement at work on three posts: only the overdue,
    undeleted one is published, and a second run does nothing; and of 101
    overdue posts one run picks 100. *)
Lemma sweep_transitions_first_batch_witness :
  sweepBatch 10 db3 = [0%nat]
  ∧ processAutoPublish 10 (processAutoPublish 10 db3).1
    = ((processAutoPublish 10 db3).1, 0)
  ∧ length (sweepBatch 10 db101) = 100%nat.
Proof.
  pose proof (sweep_transitions_first_batch 10 db3) as H. cbv zeta in H.
  split; [vm_compute; reflexivity|]. split.
  - apply H. vm_compute. lia.
  - pose proof (sweep_transitions_first_batch 10 db101) as H'. cbv zeta in H'.
    destruct H' as (_ & _ & _ & Hlen & _). rewrite Hlen.
    vm_compute. reflexivity.
Defined.

(** C3 (counterexample).  With 101 overdue posts the first run publishes
    100 of them and an immediate second run publishes one more: post 100
    is still in review after the first run and published after the
    second. *)
Lemma second_sweep_publishes_more :
  let d1 := (processAutoPublish 10 db101).1 in
  let r2 := processAutoPublish 10 d1 in
  (processAutoPublish 10 db101).2 = 100
  ∧ r2.2 = 1
  ∧ p_status <$> posts d1 !! 100%nat = Some needs_review
  ∧ p_status <$> posts r2.1 !! 100%nat = Some auto_published.
Proof. vm_compute. repeat split. Qed.

(** The sweep addresses each notice to the [userId] stored on the post. *)
Lemma sweep_notifies_post_userId now d :
  scheduled (processAutoPublish now d).1
  = scheduled d ++ (sweepJob <$> take 100 (pendingScan now d)).
Proof. apply (processAutoPublish_loop now d). Qed.

(** C5 (code evaluated at the failing input).  A self-registered agent is
    linked to human 7 and posts; the review request goes to the linked
    human, but when the deadline passes the sweep addresses the
    auto-published notice to the post's legacy [userId], the placeholder
    account 0, and not to the agent's [linkedUserId]. *)
Theorem sweep_notifies_legacy_user_not_linked_human :
  ∃ d, linkedThenSwept = Some d
    ∧ (agents d !! 1%nat) ≫= a_linkedUserId = Some 7%nat
    ∧ p_status <$> posts d !! 0%nat = Some auto_published
    ∧ scheduled d = [sendNewPostNotification 0 7;
                     sendAutoPublishedNotification 0 0].
Proof. eexists. split; [vm_compute; reflexivity|]. vm_compute. repeat split. Qed.

(** ** E-mail actions and soft deletion *)

(** C10.  A soft-deleted post that is still in review is approved by
    [approveViaEmail] and declined by [declineViaEmail], each reporting
    [alreadyProcessed = false], while the read path hides it, [autoPublish]
    leaves it alone and the sweep never picks it. *)
Theorem email_actions_ignore_soft_delete
    (now : Z) (postId : Id) (post : Post) (d : Db) :
  posts d !! postId = Some post →
  p_isDeleted post = true →
  p_status post = needs_review →
  (approveViaEmail now postId d
     = (mkEmailResult false None,
        set_posts (insert postId (approveViaEmail_patch now post)) d)
   ∧ p_status (approveViaEmail_patch now post) = approved
   ∧ p_isDeleted (approveViaEmail_patch now post) = true)
  ∧ (declineViaEmail now postId d
       = (mkEmailResult false None,
          set_posts (insert postId (declineViaEmail_patch now post)) d)
     ∧ p_status (declineViaEmail_patch now post) = declined
     ∧ p_isDeleted (declineViaEmail_patch now post) = true)
  ∧ autoPublish now postId d = d
  ∧ get postId d = None
  ∧ (∀ now', postId ∉ sweepBatch now' d).
Proof.
  intros Hp Hd Hs. repeat split.
  - unfold approveViaEmail. rewrite Hp, Hs. reflexivity.
  - exact Hd.
  - unfold declineViaEmail. rewrite Hp, Hs. reflexivity.
  - exact Hd.
  - unfold autoPublish. rewrite Hp, Hs, Hd. reflexivity.
  - unfold get. rewrite Hp, Hd. reflexivity.
  - intros now' Hin. apply sweepBatch_elem in Hin as (post' & _ & Hp' & He).
    rewrite Hp in Hp'. injection Hp' as <-.
    destruct He as (_ & He & _). congruence.
Qed.

Lemma email_actions_ignore_soft_delete_witness :
  (approveViaEmail 10 2%nat db3).1 = mkEmailResult false None
  ∧ p_status <$> posts (approveViaEmail 10 2%nat db3).2 !! 2%nat = Some approved
  ∧ (declineViaEmail 10 2%nat db3).1 = mkEmailResult false None
  ∧ p_status <$> posts (declineViaEmail 10 2%nat db3).2 !! 2%nat = Some declined
  ∧ autoPublish 10 2%nat db3 = db3
  ∧ get 2%nat db3 = None.
Proof.
  destruct (email_actions_ignore_soft_delete 10 2%nat (reviewPost 5 true) db3)
    as ((Ha & _) & (Hd & _) & Hp & Hg & _); [reflexivity..|].
  rewrite Ha, Hd. cbn [fst snd posts set_posts].
  rewrite !lookup_insert_eq. repeat split; assumption.
Defined.

(** ** Review actions: who may approve and who may decline *)

Lemma linkedTo_spec d agentId userId :
  linkedTo d agentId userId = true
  ↔ ∃ agent, agents d !! agentId = Some agent ∧ a_linkedUserId agent = Some userId.
Proof.
  unfold linkedTo. destruct (agents d !! agentId) as [agent|].
  - rewrite bool_decide_eq_true. split; [eauto|]. by intros (? & [= <-] & ?).
  - split; [discriminate|]. by intros (? & [=] & _).
Qed.

Lemma decline_hasPermission_spec d userId post :
  decline_hasPermission d userId post = true
  ↔ isLinkedHuman d userId post ∨ isLegacyOwner userId post.
Proof.
  unfold decline_hasPermission, isLinkedHuman, isLegacyOwner.
  destruct (p_agentId post) as [agentId|].
  - destruct (linkedTo d agentId userId) eqn:Hl; cbn.
    + split; [|done]. intros _. left.
      apply linkedTo_spec in Hl as (agent & ? & ?). by exists agentId, agent.
    + case_bool_decide as Ho; split; try done; [by right|].
      intros [(a & agent & [= <-] & Ha & Hu)|?]; [|done].
      assert (linkedTo d agentId userId = true) by (apply linkedTo_spec; eauto).
      congruence.
  - cbn. case_bool_decide as Ho; split; try done; [by right|].
    by intros [(a & agent & [=] & _)|?].
Qed.

(** [approve] grants what [decline] grants, and admins besides. *)
Lemma approve_hasPermission_decline d isAdmin userId post :
  approve_hasPermission d isAdmin userId post
  = isAdmin || decline_hasPermission d userId post.
Proof.
  unfold approve_hasPermission, decline_hasPermission.
  destruct isAdmin, (p_agentId post) as [agentId|]; cbn; reflexivity.
Qed.

Lemma approve_hasPermission_spec d userId post :
  approve_hasPermission d (callerIsAdmin d userId) userId post = true
  ↔ callerIsAdmin d userId = true
    ∨ isLinkedHuman d userId post ∨ isLegacyOwner userId post.
Proof.
  rewrite approve_hasPermission_decline, orb_true_iff.
  by rewrite decline_hasPermission_spec.
Qed.

(** [decline] on an existing post, step by step. *)
Lemma decline_unfold now userId postId reason post d :
  posts d !! postId = Some post →
  decline now (Some userId) postId reason d
  = if decline_hasPermission d userId post then
      if bool_decide (p_status post = needs_review)
      then Ok (set_posts (insert postId (decline_patch now userId reason post)) d)
      else Ok d
    else Err FORBIDDEN.
Proof.
  intros Hp. unfold decline. cbn. rewrite Hp. cbn.
  destruct (decline_hasPermission d userId post); cbn; [|reflexivity].
  by case_bool_decide.
Qed.

(** [approve] on an existing post when no new author is passed. *)
Lemma approve_unfold now userId postId title content post d :
  posts d !! postId = Some post →
  approve now (Some userId) (mkApproveArgs postId title content None) d
  = if approve_hasPermission d (callerIsAdmin d userId) userId post then
      if bool_decide (p_status post = needs_review)
      then Ok (set_posts
                 (insert postId
                    (approve_patch now userId
                       (mkApproveArgs postId title content None) post)) d)
      else Ok d
    else Err FORBIDDEN.
Proof.
  intros Hp. unfold approve. cbn. rewrite Hp. cbn. fold (callerIsAdmin d userId).
  destruct (approve_hasPermission _ _ _ _); cbn; [|reflexivity].
  by case_bool_decide.
Qed.

(** C6 (amended).  [decline] is permitted exactly to the human linked to
    the post's agent and to the legacy owner; [approve] is permitted to
    these two and to admins.  So whoever may decline may approve, and the
    callers who may approve but not decline are the admins who are neither
    the linked human nor the legacy owner: they get FORBIDDEN. *)
Theorem decline_permission_is_approve_without_admin
    (now : Z) (userId postId : Id) (post : Post) (reason : option string)
    (title content : option string) (d : Db) :
  posts d !! postId = Some post →
  let declined := decline now (Some userId) postId reason d in
  let approved := approve now (Some userId) (mkApproveArgs postId title content None) d in
  let owns := isLinkedHuman d userId post ∨ isLegacyOwner userId post in
  ((∃ d', declined = Ok d') ↔ owns)
  ∧ (declined = Err FORBIDDEN ↔ ¬ owns)
  ∧ ((∃ d', approved = Ok d') ↔ callerIsAdmin d userId = true ∨ owns)
  ∧ (approved = Err FORBIDDEN ↔ ¬ (callerIsAdmin d userId = true ∨ owns))
  ∧ ((∃ d', declined = Ok d') → ∃ d', approved = Ok d').
Proof.
  intros Hp declined approved owns. subst declined approved owns.
  rewrite (decline_unfold _ _ _ _ _ _ Hp), (approve_unfold _ _ _ _ _ _ _ Hp).
  rewrite <- decline_hasPermission_spec.
  pose proof (approve_hasPermission_decline d (callerIsAdmin d userId) userId post) as Ha.
  destruct (decline_hasPermission d userId post), (callerIsAdmin d userId);
    cbn in Ha; rewrite Ha;
    destruct (bool_decide (p_status post = needs_review));
    repeat split; intros; try done; eauto;
    repeat match goal with
    | H : ∃ _, _ |- _ => destruct H
    | H : _ ∨ _ |- _ => destruct H
    end; try done; intuition eauto; try discriminate.
Qed.

Lemma decline_permission_is_approve_without_admin_witness :
  (∃ d', decline 100 (Some 7%nat) 0%nat None reviewDb = Ok d')
  ∧ (∃ d', approve 100 (Some 7%nat) (mkApproveArgs 0%nat None None None) reviewDb = Ok d').
Proof.
  pose proof (decline_permission_is_approve_without_admin
                100 7%nat 0%nat (reviewPost 500 false) None None None reviewDb
                eq_refl) as (Hd & _ & Ha & _).
  split.
  - apply Hd. left. exists 1%nat. eexists. repeat split; reflexivity.
  - apply Ha. right. left. exists 1%nat. eexists. repeat split; reflexivity.
Defined.

(** C6 (counterexample).  The admin 9 is neither the linked human nor the
    legacy owner of post 0: approving succeeds, declining is FORBIDDEN. *)
Lemma admin_cannot_decline :
  callerIsAdmin reviewDb 9%nat = true
  ∧ decline 100 (Some 9%nat) 0%nat None reviewDb = Err FORBIDDEN
  ∧ (p_status <$> posts reviewDb !! 0%nat) = Some needs_review
  ∧ match approve 100 (Some 9%nat) (mkApproveArgs 0%nat None None None) reviewDb with
    | Ok d' => (p_status <$> posts d' !! 0%nat) = Some approved
    | Err _ => False
    end.
Proof. vm_compute. repeat split. Qed.

(** ** Review actions: applying them twice *)

(** [approve] on an existing post, with any arguments. *)
Lemma approve_unfold_args now userId args post d :
  posts d !! ap_postId args = Some post →
  approve now (Some userId) args d
  = if approve_hasPermission d (callerIsAdmin d userId) userId post then
      if bool_decide (p_status post = needs_review) then
        match ap_agentId args with
        | Some agentId =>
            if callerIsAdmin d userId then
              match agents d !! agentId with
              | Some _ =>
                  Ok (set_posts (insert (ap_postId args)
                                   (approve_patch now userId args post)) d)
              | None => Err NOT_FOUND
              end
            else Err FORBIDDEN
        | None =>
            Ok (set_posts (insert (ap_postId args)
                             (approve_patch now userId args post)) d)
        end
      else Ok d
    else Err FORBIDDEN.
Proof.
  intros Hp. unfold approve. cbn. rewrite Hp. cbn. fold (callerIsAdmin d userId).
  destruct (approve_hasPermission _ _ _ _); cbn; [|reflexivity].
  case_bool_decide; cbn; [|reflexivity].
  destruct (ap_agentId args) as [agentId|]; cbn; [|reflexivity].
  destruct (callerIsAdmin d userId); cbn; [|reflexivity].
  destruct (agents d !! agentId); reflexivity.
Qed.

(** Patching a post leaves the caller's standing as it was, as long as the
    post keeps its agent and its legacy owner. *)
Lemma decline_hasPermission_set_posts f d userId post post' :
  p_agentId post' = p_agentId post → p_userId post' = p_userId post →
  decline_hasPermission (set_posts f d) userId post'
  = decline_hasPermission d userId post.
Proof.
  intros Ha Hu. unfold decline_hasPermission. rewrite Ha, Hu. reflexivity.
Qed.

(** A successful [approve] leaves a state on which any further [approve] of
    the same post by the same caller succeeds and changes nothing. *)
Lemma approve_then_approve now now' userId args args' post d d1 :
  posts d !! ap_postId args = Some post →
  ap_postId args' = ap_postId args →
  approve now (Some userId) args d = Ok d1 →
  approve now' (Some userId) args' d1 = Ok d1.
Proof.
  intros Hp Hid Hok.
  rewrite (approve_unfold_args _ _ _ _ _ Hp) in Hok.
  destruct (approve_hasPermission d _ userId post) eqn:Hperm; [|discriminate].
  case_bool_decide as Hs.
  - assert (Hd1 : d1 = set_posts (insert (ap_postId args)
                                    (approve_patch now userId args post)) d
                  ∧ (callerIsAdmin d userId = true ∨ ap_agentId args = None)).
    { destruct (ap_agentId args) as [agentId|]; [|injection Hok as <-; auto].
      destruct (callerIsAdmin d userId); [|discriminate].
      destruct (agents d !! agentId); [|discriminate].
      injection Hok as <-. auto. }
    destruct Hd1 as [-> Hwho].
    rewrite (approve_unfold_args _ _ _ (approve_patch now userId args post)).
    2:{ rewrite Hid. cbn. apply lookup_insert_eq. }
    change (callerIsAdmin (set_posts _ d) userId) with (callerIsAdmin d userId).
    rewrite approve_hasPermission_decline in Hperm |- *.
    destruct Hwho as [Hadm|Hnone].
    + rewrite Hadm. reflexivity.
    + rewrite (decline_hasPermission_set_posts _ _ _ post);
        [|cbn; by rewrite Hnone|reflexivity].
      rewrite Hperm. reflexivity.
  - injection Hok as <-.
    rewrite (approve_unfold_args _ _ _ post) by (by rewrite Hid).
    rewrite Hperm. by rewrite bool_decide_eq_false_2.
Qed.

Lemma decline_then_decline now now' userId postId reason reason' post d d1 :
  posts d !! postId = Some post →
  decline now (Some userId) postId reason d = Ok d1 →
  decline now' (Some userId) postId reason' d1 = Ok d1.
Proof.
  intros Hp Hok.
  rewrite (decline_unfold _ _ _ _ _ _ Hp) in Hok.
  destruct (decline_hasPermission d userId post) eqn:Hperm; [|discriminate].
  case_bool_decide as Hs; injection Hok as <-.
  - rewrite (decline_unfold _ _ _ _ (decline_patch now userId reason post))
      by apply lookup_insert_eq.
    rewrite (decline_hasPermission_set_posts _ _ _ post) by reflexivity.
    rewrite Hperm. reflexivity.
  - rewrite (decline_unfold _ _ _ _ _ _ Hp), Hperm.
    by rewrite bool_decide_eq_false_2.
Qed.

(** C4.  For a caller who passes the ownership check, [approve] (and
    [decline]) succeeds, and applying it again to the resulting state
    succeeds and returns that very state, so no field of the post, in
    particular [reviewedAt] and [publishedAt], changes the second time.
    On a post that is not in review both actions return the state they
    were given. *)
Theorem review_actions_idempotent (userId postId : Id) (post : Post) (d : Db) :
  posts d !! postId = Some post →
  (approve_hasPermission d (callerIsAdmin d userId) userId post = true →
     ∀ now now' title content,
       let args := mkApproveArgs postId title content None in
       ∃ d1, approve now (Some userId) args d = Ok d1
             ∧ approve now' (Some userId) args d1 = Ok d1)
  ∧ (∀ now now' args args' d1,
       ap_postId args = postId → ap_postId args' = postId →
       approve now (Some userId) args d = Ok d1 →
       approve now' (Some userId) args' d1 = Ok d1)
  ∧ (decline_hasPermission d userId post = true →
     ∀ now now' reason reason',
       ∃ d1, decline now (Some userId) postId reason d = Ok d1
             ∧ decline now' (Some userId) postId reason' d1 = Ok d1)
  ∧ (p_status post ≠ needs_review →
       (approve_hasPermission d (callerIsAdmin d userId) userId post = true →
          ∀ now args, ap_postId args = postId →
            approve now (Some userId) args d = Ok d)
       ∧ (decline_hasPermission d userId post = true →
            ∀ now reason, decline now (Some userId) postId reason d = Ok d)).
Proof.
  intros Hp. split; [|split; [|split]].
  - intros Hperm now now' title content args.
    assert (∃ d1, approve now (Some userId) args d = Ok d1) as [d1 Hok].
    { subst args. rewrite (approve_unfold _ _ _ _ _ _ _ Hp), Hperm.
      case_bool_decide; eauto. }
    exists d1. split; [assumption|].
    by apply (approve_then_approve now now' userId args args post d d1).
  - intros now now' args args' d1 <- Hid Hok.
    by apply (approve_then_approve now now' userId args args' post d d1).
  - intros Hperm now now' reason reason'.
    assert (∃ d1, decline now (Some userId) postId reason d = Ok d1) as [d1 Hok].
    { rewrite (decline_unfold _ _ _ _ _ _ Hp), Hperm. case_bool_decide; eauto. }
    exists d1. split; [assumption|].
    by apply (decline_then_decline now now' userId postId reason reason' post d d1).
  - intros Hs. split.
    + intros Hperm now args <-.
      rewrite (approve_unfold_args _ _ _ _ _ Hp), Hperm.
      by rewrite bool_decide_eq_false_2.
    + intros Hperm now reason.
      rewrite (decline_unfold _ _ _ _ _ _ Hp), Hperm.
      by rewrite bool_decide_eq_false_2.
Qed.

(** The linked human approves post 0 at time 100 and again at time 200:
    the second call returns the state of the first, with [reviewedAt] and
    [publishedAt] still 100. *)
Lemma review_actions_idempotent_witness :
  ∃ d1, approve 100 (Some 7%nat) (mkApproveArgs 0%nat None None None) reviewDb = Ok d1
    ∧ approve 200 (Some 7%nat) (mkApproveArgs 0%nat None None None) d1 = Ok d1
    ∧ (p_reviewedAt <$> posts d1 !! 0%nat) = Some (Some 100)
    ∧ (p_publishedAt <$> posts d1 !! 0%nat) = Some (Some 100).
Proof.
  destruct (review_actions_idempotent 7%nat 0%nat (reviewPost 500 false) reviewDb eq_refl)
    as (Happ & _).
  destruct (Happ eq_refl 100 200 None None) as (d1 & H1 & H2).
  exists d1. split; [exact H1|]. split; [exact H2|].
  vm_compute in H1. injection H1 as <-. vm_compute. split; reflexivity.
Defined.

(** ** Handle validation on the creation path and on the rename path *)

Lemma handle_pattern_starts_with_letter s :
  handle_pattern s = true → starts_with_letter s = true.
Proof. destruct s as [|c r]; cbn; [done|]. by intros [? _]%andb_true_iff. Qed.

Lemma single_letter_length s : single_letter s = true → Js.strlen s = 1.
Proof. destruct s as [|c [|c' r]]; cbn; done. Qed.

Lemma handle_pattern_length s : handle_pattern s = true → 2 ≤ Js.strlen s.
Proof.
  destruct s as [|c [|c' r]]; cbn; try done.
  - by rewrite andb_false_r.
  - intros _. unfold Js.strlen. cbn [String.length]. lia.
Qed.

(** [validateHandle] accepts exactly the handles of the format rules. *)
Lemma validateHandle_spec handle :
  validateHandle handle = None ↔ spec_validHandle handle = true.
Proof.
  unfold validateHandle, spec_validHandle, HANDLE_MIN_LENGTH, HANDLE_MAX_LENGTH.
  destruct (Z.ltb_spec (Js.strlen handle) 3), (Z.ltb_spec 30 (Js.strlen handle)),
    (Z.leb_spec 3 (Js.strlen handle)), (Z.leb_spec (Js.strlen handle) 30);
    try lia; cbn; try done.
  destruct (starts_with_letter handle), (handle_pattern_or_letter handle),
    (Js.has_double_hyphen handle); cbn; done.
Qed.

(** The checks of the rename path accept exactly the format rules. *)
Lemma update_formatCheck_spec newHandle :
  update_formatCheck newHandle = Ok tt ↔ spec_validHandle newHandle = true.
Proof.
  unfold update_formatCheck, spec_validHandle, handle_pattern_or_letter.
  pose proof (handle_pattern_starts_with_letter newHandle) as Hstart.
  pose proof (single_letter_length newHandle) as Hone.
  destruct (Z.ltb_spec (Js.strlen newHandle) 3), (Z.ltb_spec 30 (Js.strlen newHandle)),
    (Z.leb_spec 3 (Js.strlen newHandle)), (Z.leb_spec (Js.strlen newHandle) 30),
    (Z.ltb_spec 1 (Js.strlen newHandle));
    try lia; cbn; try done.
  destruct (handle_pattern newHandle); cbn.
  - rewrite Hstart by done. cbn. by destruct (Js.has_double_hyphen newHandle).
  - destruct (single_letter newHandle); [specialize (Hone eq_refl); lia|].
    by rewrite andb_false_r.
Qed.

(** The checks of the creation path accept the pattern and the length;
    consecutive hyphens are not looked at. *)
Lemma create_formatCheck_spec handle :
  create_formatCheck handle = Ok tt
  ↔ handle_pattern_or_letter handle = true
    ∧ 3 ≤ Js.strlen handle ≤ 30.
Proof.
  unfold create_formatCheck.
  destruct (handle_pattern_or_letter handle); cbn;
    [|split; [done | by intros [? _]]].
  destruct (Z.ltb_spec (Js.strlen handle) 3), (Z.ltb_spec 30 (Js.strlen handle));
    cbn; split; try done; try lia; intros [_ ?]; lia.
Qed.

Lemma create_formatCheck_no_double_hyphen handle :
  Js.has_double_hyphen handle = false →
  create_formatCheck handle = Ok tt ↔ spec_validHandle handle = true.
Proof.
  intros Hh. rewrite create_formatCheck_spec.
  unfold spec_validHandle, handle_pattern_or_letter. rewrite Hh.
  pose proof (handle_pattern_starts_with_letter handle) as Hstart.
  pose proof (single_letter_length handle) as Hone.
  destruct (Z.leb_spec 3 (Js.strlen handle)), (Z.leb_spec (Js.strlen handle) 30);
    cbn; try (split; [intros [_ ?]; lia | done]).
  destruct (handle_pattern handle); cbn.
  - rewrite Hstart by done. split; [done|]. intros _. split; [done|lia].
  - destruct (single_letter handle); [specialize (Hone eq_refl); lia|].
    rewrite andb_false_r. split; [by intros [? _]|done].
Qed.

Lemma formatCheck_result (r : Result unit) :
  (r = Ok tt ∨ r = Err INVALID_HANDLE) → accepts r ↔ r = Ok tt.
Proof. unfold accepts. intros [->| ->]; split; done. Qed.

Lemma update_formatCheck_cases newHandle :
  update_formatCheck newHandle = Ok tt
  ∨ update_formatCheck newHandle = Err INVALID_HANDLE.
Proof.
  unfold update_formatCheck.
  repeat (match goal with |- context [throwIf ?c _] => destruct c end; cbn; auto).
Qed.

Lemma create_formatCheck_cases handle :
  create_formatCheck handle = Ok tt
  ∨ create_formatCheck handle = Err INVALID_HANDLE.
Proof.
  unfold create_formatCheck.
  repeat (match goal with |- context [throwIf ?c _] => destruct c end; cbn; auto).
Qed.

(** The creation path answers INVALID_HANDLE exactly when its format
    checks fail, for a handle that is not the empty string. *)
Lemma create_customHandle_accepts handle d :
  handle ≠ "" →
  accepts (create_customHandle handle d) ↔ create_formatCheck handle = Ok tt.
Proof.
  intros Hne. unfold create_customHandle, accepts.
  rewrite bool_decide_eq_false_2 by done.
  destruct (create_formatCheck_cases handle) as [-> | ->]; cbn; [|done].
  destruct (handleTaken handle d); cbn; split; done.
Qed.

(** The rename path, for a caller with access to the agent, answers
    INVALID_HANDLE exactly when the checks fail on the normalised handle. *)
Lemma update_accepts now userId agentId agent handle d :
  agents d !! agentId = Some agent →
  a_createdByUserId agent = Some userId ∨ a_linkedUserId agent = Some userId →
  accepts (update now (Some userId) (renameArgs agentId handle) d)
  ↔ update_formatCheck (normalise handle) = Ok tt.
Proof.
  intros Ha Hacc. unfold update, accepts. cbn. rewrite Ha. cbn.
  assert (negb (bool_decide (a_createdByUserId agent = Some userId))
          && negb (bool_decide (a_linkedUserId agent = Some userId)) = false) as ->.
  { destruct Hacc as [H|H]; rewrite (bool_decide_eq_true_2 _ H); cbn;
      [done | by rewrite andb_false_r]. }
  cbn. fold (normalise handle).
  destruct (update_formatCheck_cases (normalise handle)) as [-> | ->]; cbn; [|done].
  case_bool_decide; cbn; [split; done|].
  destruct (handleTaken (normalise handle) d); cbn; split; done.
Qed.

(** C9 (amended).  The rename path validates the trimmed, lower-cased
    handle and accepts it exactly when that normal form obeys the format
    rules.  On a handle that is not empty and has no consecutive hyphens,
    the creation path accepts exactly when the handle as given obeys the
    format rules.  Hence on handles that are already in normal form, not
    empty and free of consecutive hyphens, both paths give the same
    verdict. *)
Theorem handle_checks_agree_on_normal_forms
    (now : Z) (userId agentId : Id) (agent : Agent) (handle : string) (d : Db) :
  agents d !! agentId = Some agent →
  a_createdByUserId agent = Some userId ∨ a_linkedUserId agent = Some userId →
  let renamed := update now (Some userId) (renameArgs agentId handle) d in
  let created := create_customHandle handle d in
  (accepts renamed ↔ spec_validHandle (normalise handle) = true)
  ∧ (handle ≠ "" → Js.has_double_hyphen handle = false →
       (accepts created ↔ spec_validHandle handle = true))
  ∧ (normalise handle = handle → handle ≠ "" →
     Js.has_double_hyphen handle = false →
       (accepts created ↔ accepts renamed)).
Proof.
  intros Ha Hacc renamed created. subst renamed created.
  rewrite (update_accepts _ _ _ _ _ _ Ha Hacc), update_formatCheck_spec.
  split; [reflexivity|]. split.
  - intros Hne Hh.
    by rewrite create_customHandle_accepts, create_formatCheck_no_double_hyphen.
  - intros Hn Hne Hh. rewrite Hn.
    by rewrite create_customHandle_accepts, create_formatCheck_no_double_hyphen.
Qed.

Lemma handle_checks_agree_on_normal_forms_witness :
  accepts (create_customHandle "molty-2" reviewDb)
  ↔ accepts (update 100 (Some 7%nat) (renameArgs 1%nat "molty-2") reviewDb).
Proof.
  pose proof (handle_checks_agree_on_normal_forms 100 7%nat 1%nat
                (mkAgent "molty" None (Some 7%nat) (Some 60) (Some OvReview) 50 60)
                "molty-2" reviewDb eq_refl (or_intror eq_refl)) as (_ & _ & H).
  apply H; [reflexivity | discriminate | reflexivity].
Defined.

(** C9 (counterexample).  ["Molty-2"] has a capital letter: the creation
    path refuses it, the rename path accepts it and stores ["molty-2"]. *)
Lemma rename_accepts_what_create_rejects :
  create_customHandle "Molty-2" reviewDb = Err INVALID_HANDLE
  ∧ match update 100 (Some 7%nat) (renameArgs 1%nat "Molty-2") reviewDb with
    | Ok d' => (a_handle <$> agents d' !! 1%nat) = Some "molty-2"
    | Err _ => False
    end.
Proof. vm_compute. split; reflexivity. Qed.

(** The creation path has no check for consecutive hyphens, which
    [validateHandle] and the rename path both have. *)
Lemma create_accepts_double_hyphen :
  create_customHandle "a--b" reviewDb = Ok (Some "a--b")
  ∧ update 100 (Some 7%nat) (renameArgs 1%nat "a--b") reviewDb = Err INVALID_HANDLE
  ∧ validateHandle "a--b" = Some "Handle cannot contain consecutive hyphens".
Proof. vm_compute. repeat split. Qed.

(** ** The signup rate limiter *)

Lemma filter_all {A} (P : A → Prop) `{!∀ x, Decision (P x)} (l : list A) :
  Forall P l → filter P l = l.
Proof.
  induction 1 as [|x l Hx _ IH]; [done|].
  by rewrite filter_cons_True, IH.
Qed.

Lemma filter_none {A} (P : A → Prop) `{!∀ x, Decision (P x)} (l : list A) :
  Forall (λ x, ¬ P x) l → filter P l = [].
Proof.
  induction 1 as [|x l Hx _ IH]; [done|].
  by rewrite filter_cons_False.
Qed.

(** [ceil_div x 1000] is the least number of whole seconds covering [x]
    milliseconds. *)
Lemma ceil_div_spec x :
  1000 * (ceil_div x 1000 - 1) < x ≤ 1000 * ceil_div x 1000.
Proof.
  unfold ceil_div.
  pose proof (Z.div_mod (- x) 1000 ltac:(lia)).
  pose proof (Z.mod_pos_bound (- x) 1000 ltac:(lia)). lia.
Qed.

Lemma ceil_div_pos x : 0 < x → 0 < ceil_div x 1000.
Proof. intros Hx. pose proof (ceil_div_spec x). lia. Qed.

(** The first request of a fingerprint creates its record. *)
Lemma checkInitRateLimit_first now fingerprint d :
  agentSignupRateLimits d !! fingerprint = None →
  checkInitRateLimit now fingerprint d
  = (mkRateResult true None,
     set_rateLimits (insert fingerprint (mkRateLimit [now] now)) d).
Proof. intros H. unfold checkInitRateLimit. by rewrite H. Qed.

(** Fewer than five recorded requests, all inside the window: allowed, and
    [now] is appended. *)
Lemma checkInitRateLimit_allowed now fingerprint existing d :
  agentSignupRateLimits d !! fingerprint = Some existing →
  Forall (λ ts, now - ts < windowMs) (rl_timestamps existing) →
  (length (rl_timestamps existing) < 5)%nat →
  checkInitRateLimit now fingerprint d
  = (mkRateResult true None,
     set_rateLimits
       (insert fingerprint (mkRateLimit (rl_timestamps existing ++ [now]) now)) d).
Proof.
  intros H Hall Hlen. unfold checkInitRateLimit. rewrite H.
  rewrite (filter_all _ _ Hall).
  rewrite bool_decide_eq_false_2; [reflexivity|]. unfold MAX_INIT_PER_HOUR. lia.
Qed.

(** Five or more recorded requests inside the window: denied, nothing is
    written. *)
Lemma checkInitRateLimit_denied now fingerprint existing d :
  agentSignupRateLimits d !! fingerprint = Some existing →
  Forall (λ ts, now - ts < windowMs) (rl_timestamps existing) →
  (5 ≤ length (rl_timestamps existing))%nat →
  checkInitRateLimit now fingerprint d
  = (mkRateResult false
       (Some (ceil_div (Math_min (rl_timestamps existing) + windowMs - now) 1000)),
     d).
Proof.
  intros H Hall Hlen. unfold checkInitRateLimit. rewrite H.
  rewrite (filter_all _ _ Hall).
  rewrite bool_decide_eq_true_2; [reflexivity|]. unfold MAX_INIT_PER_HOUR. lia.
Qed.

(** Every recorded request has left the window: allowed, and the record
    restarts from [now]. *)
Lemma checkInitRateLimit_elapsed now fingerprint existing d :
  agentSignupRateLimits d !! fingerprint = Some existing →
  Forall (λ ts, windowMs ≤ now - ts) (rl_timestamps existing) →
  checkInitRateLimit now fingerprint d
  = (mkRateResult true None,
     set_rateLimits (insert fingerprint (mkRateLimit [now] now)) d).
Proof.
  intros H Hall. unfold checkInitRateLimit. rewrite H.
  rewrite filter_none.
  - rewrite bool_decide_eq_false_2; [reflexivity|].
    unfold MAX_INIT_PER_HOUR. cbn. lia.
  - eapply Forall_impl; [exact Hall|]. cbn. lia.
Qed.

Lemma rateLimits_insert fingerprint r d :
  agentSignupRateLimits (set_rateLimits (insert fingerprint r) d) !! fingerprint
  = Some r.
Proof. cbn. apply lookup_insert_eq. Qed.

Ltac within_window := repeat constructor; cbn; lia.

(** C8.  From an empty record, five requests at times [t1 ≤ ... ≤ t5] are
    all allowed; a sixth at [t6], less than an hour after [t1], is denied
    with [retryAfter] the positive number of seconds, rounded up, until
    [t1] (the oldest retained timestamp) leaves the window, and writes
    nothing; a request at [t7], an hour or more after [t5], is allowed
    again. *)
Theorem rate_limit_boundary
    (fingerprint : string) (d : Db) (t1 t2 t3 t4 t5 t6 t7 : Z) :
  agentSignupRateLimits d !! fingerprint = None →
  t1 ≤ t2 → t2 ≤ t3 → t3 ≤ t4 → t4 ≤ t5 → t5 ≤ t6 →
  t6 - t1 < windowMs →
  windowMs ≤ t7 - t5 →
  let r5 := requests fingerprint [t1; t2; t3; t4; t5] d in
  let r6 := checkInitRateLimit t6 fingerprint r5.2 in
  let r7 := checkInitRateLimit t7 fingerprint r6.2 in
  r5.1 = replicate 5 (mkRateResult true None)
  ∧ recordOf fingerprint r5.2 = Some [t1; t2; t3; t4; t5]
  ∧ allowed r6.1 = false
  ∧ retryAfter r6.1 = Some (ceil_div (t1 + windowMs - t6) 1000)
  ∧ 0 < ceil_div (t1 + windowMs - t6) 1000
  ∧ Math_min [t1; t2; t3; t4; t5] = t1
  ∧ r6.2 = r5.2
  ∧ allowed r7.1 = true
  ∧ recordOf fingerprint r7.2 = Some [t7].
Proof.
  intros Hnone H12 H23 H34 H45 H56 Hwin Hgone r5 r6 r7.
  assert (Hmin : Math_min [t1; t2; t3; t4; t5] = t1) by (cbn; lia).
  assert (H5 : ∃ d5 lu,
    r5 = (replicate 5 (mkRateResult true None), d5)
    ∧ agentSignupRateLimits d5 !! fingerprint
      = Some (mkRateLimit [t1; t2; t3; t4; t5] lu)).
  { subst r5. unfold requests. cbn [foldl fst snd].
    rewrite (checkInitRateLimit_first _ _ _ Hnone). cbn [fst snd].
    erewrite checkInitRateLimit_allowed;
      [|apply rateLimits_insert|within_window|cbn; lia].
    cbn [fst snd rl_timestamps app].
    erewrite checkInitRateLimit_allowed;
      [|apply rateLimits_insert|within_window|cbn; lia].
    cbn [fst snd rl_timestamps app].
    erewrite checkInitRateLimit_allowed;
      [|apply rateLimits_insert|within_window|cbn; lia].
    cbn [fst snd rl_timestamps app].
    erewrite checkInitRateLimit_allowed;
      [|apply rateLimits_insert|within_window|cbn; lia].
    cbn [fst snd rl_timestamps app].
    eexists _, _. split; [reflexivity|]. apply rateLimits_insert. }
  destruct H5 as (d5 & lu & Hr5 & Hrec).
  assert (H6 : r6 = (mkRateResult false
                       (Some (ceil_div (t1 + windowMs - t6) 1000)), d5)).
  { subst r6. rewrite Hr5. cbn [snd].
    erewrite checkInitRateLimit_denied; [|exact Hrec|within_window|cbn; lia].
    cbn [rl_timestamps]. by rewrite Hmin. }
  assert (H7 : r7 = (mkRateResult true None,
                     set_rateLimits (insert fingerprint (mkRateLimit [t7] t7)) d5)).
  { subst r7. rewrite H6. cbn [snd].
    erewrite checkInitRateLimit_elapsed; [reflexivity|exact Hrec|within_window]. }
  rewrite H7, H6, Hr5. cbn [fst snd allowed retryAfter].
  unfold recordOf. rewrite Hrec, rateLimits_insert.
  repeat split; try done. apply ceil_div_pos. lia.
Qed.

Lemma foldl_min_elem (l : list Z) : ∀ x, foldl Z.min x l ∈ x :: l.
Proof.
  induction l as [|y l IH]; intros x; cbn; [left|].
  pose proof (IH (Z.min x y)) as Hm. apply elem_of_cons in Hm as [Hm|Hm].
  - rewrite Hm. destruct (Z.min_spec x y) as [[_ ->]|[_ ->]];
      [left | right; left].
  - right. by right.
Qed.

(** Waiting for the announced [retryAfter] seconds is enough: by then the
    oldest retained timestamp has left the window and the request is
    admitted. *)
Lemma retry_after_admits now fingerprint existing d :
  agentSignupRateLimits d !! fingerprint = Some existing →
  length (rl_timestamps existing) = 5%nat →
  Forall (λ ts, now - ts < windowMs) (rl_timestamps existing) →
  let r := checkInitRateLimit now fingerprint d in
  ∃ secs, retryAfter r.1 = Some secs
    ∧ allowed (checkInitRateLimit (now + 1000 * secs) fingerprint r.2).1 = true.
Proof.
  intros Hrec Hlen Hall r. subst r.
  rewrite (checkInitRateLimit_denied _ _ _ _ Hrec Hall) by lia.
  eexists. split; [reflexivity|]. cbn [fst snd].
  set (secs := ceil_div _ _).
  unfold checkInitRateLimit. rewrite Hrec.
  rewrite bool_decide_eq_false_2; [reflexivity|].
  unfold MAX_INIT_PER_HOUR. apply Nat.lt_nge. rewrite <- Hlen.
  destruct (rl_timestamps existing) as [|x l] eqn:Hl; [discriminate Hlen|].
  apply (length_filter_lt _ _ (Math_min (x :: l))).
  - apply foldl_min_elem.
  - pose proof (ceil_div_spec (Math_min (x :: l) + windowMs - now)). lia.
Qed.

(** Requests at 0, 1, 2, 3 and 4 s; the sixth at 5 s has to wait 3595 s;
    a request one hour after the fifth passes. *)
Lemma rate_limit_boundary_witness :
  let r5 := requests "ip" [0; 1000; 2000; 3000; 4000] emptyDb in
  let r6 := checkInitRateLimit 5000 "ip" r5.2 in
  let r7 := checkInitRateLimit 3604000 "ip" r6.2 in
  r5.1 = replicate 5 (mkRateResult true None)
  ∧ r6.1 = mkRateResult false (Some 3595)
  ∧ allowed r7.1 = true.
Proof.
  pose proof (rate_limit_boundary "ip" emptyDb 0 1000 2000 3000 4000 5000 3604000
                eq_refl) as H.
  cbv zeta in H.
  destruct H as (H5 & _ & _ & _ & _ & _ & _ & H7 & _); try (vm_compute; congruence).
  cbv zeta. split; [exact H5|]. split; [vm_compute; reflexivity | exact H7].
Defined.

(** ** Link tokens *)

Lemma code_inj c1 c2 : Js.code c1 = Js.code c2 → c1 = c2.
Proof.
  unfold Js.code. intros H.
  rewrite <- (ascii_N_embedding c1), <- (ascii_N_embedding c2). by rewrite H.
Qed.

Lemma xor_fold_zero a : ∀ b result,
  String.length a = String.length b →
  xor_fold result a b = 0%N ↔ result = 0%N ∧ a = b.
Proof.
  induction a as [|x a IH]; intros [|y b] result Hlen; try discriminate Hlen.
  - cbn. split; [done | by intros [? _]].
  - cbn [xor_fold]. injection Hlen as Hlen. rewrite (IH _ _ Hlen).
    rewrite N.lor_eq_0_iff, N.lxor_eq_0_iff. split.
    + intros [[? Hc] ->]. by rewrite (code_inj _ _ Hc).
    + intros [? [= -> ->]]. done.
Qed.

(** The comparison is equality of strings. *)
Lemma constantTimeEqual_spec a b : constantTimeEqual a b = true ↔ a = b.
Proof.
  unfold constantTimeEqual.
  destruct (Nat.eqb_spec (String.length a) (String.length b)) as [Hlen|Hlen]; cbn.
  - rewrite N.eqb_eq, (xor_fold_zero _ _ _ Hlen). split; [by intros [_ ?]|done].
  - split; [done|]. intros ->. done.
Qed.

Lemma flip_char_neq bit c :
  (bit < 8)%nat →
  ascii_of_N (N.lxor (Js.code c) (N.shiftl 1 (N.of_nat bit))) ≠ c.
Proof.
  intros Hbit.
  do 8 (destruct bit as [|bit]; [destruct c as [[] [] [] [] [] [] [] []]; by vm_compute|]).
  lia.
Qed.

(** Flipping one bit of one character changes the string. *)
Lemma flip_bit_neq i bit s :
  (i < String.length s)%nat → (bit < 8)%nat → flip_bit i bit s ≠ s.
Proof.
  revert i. induction s as [|c r IH]; intros i Hi Hbit; [cbn in Hi; lia|].
  destruct i as [|i]; cbn [flip_bit].
  - intros [= Hc]. by apply (flip_char_neq bit c).
  - intros [= Hr]. apply (IH i); [cbn in Hi; lia | done | done].
Qed.

(** *** Numbers *)

Lemma round_to_double_safe (m : Z) : 0 ≤ m ≤ two53 → round_to_double m = m.
Proof.
  intros Hm. unfold round_to_double.
  destruct (decide (m = two53)) as [->|Hne]; [reflexivity|].
  assert (Hbits : Z.log2 m + 1 ≤ 53).
  { destruct (decide (m = 0)) as [->|H0]; [cbn; lia|].
    assert (Z.log2 m < 53); [|lia].
    apply Z.log2_lt_pow2; [lia|]. change (2 ^ 53) with two53. lia. }
  apply Z.leb_le in Hbits. by rewrite Hbits.
Qed.

(** Up to [2^53] in size an integer is its own Number. *)
Lemma toNumber_safe (z : Z) : - two53 ≤ z ≤ two53 → toNumber z = Integer z.
Proof.
  intros Hz. unfold toNumber.
  rewrite round_to_double_safe by (unfold two53 in *; lia).
  assert (Hsmall : (Z.shiftl 1 1024 <=? Z.abs z) = false).
  { apply Z.leb_gt. apply Z.le_lt_trans with two53; [unfold two53 in *; lia|].
    reflexivity. }
  rewrite Hsmall. f_equal. lia.
Qed.

(** *** [parseInt] *)

(** [parseInt] reads a numeric prefix: white space and a sign may precede
    it; a number too large for a double is rounded to one. *)
Example parseInt_examples :
  parseInt "1738000000000" = Some (Integer 1738000000000)
  ∧ parseInt "" = None ∧ parseInt "abc" = None ∧ parseInt "-" = None
  ∧ parseInt " 42" = Some (Integer 42) ∧ parseInt "-7" = Some (Integer (-7))
  ∧ parseInt "9007199254740993" = Some (Integer 9007199254740992).
Proof. vm_compute. repeat split. Qed.

Lemma digit_not_space c : Js.is_digit c = true → Js.is_space c = false.
Proof.
  unfold Js.is_digit, Js.is_space, Js.in_range.
  intros [H1 H2]%andb_true_iff.
  apply N.leb_le in H1. apply N.leb_le in H2.
  repeat (apply orb_false_iff; split).
  - apply andb_false_iff. right. apply N.leb_gt. lia.
  - apply N.eqb_neq. lia.
  - apply N.eqb_neq. lia.
Qed.

Lemma digit_no_sign {A} c r (neg pos : string → A) other :
  Js.is_digit c = true →
  match String c r with
  | String "-"%char r' => neg r'
  | String "+"%char r' => pos r'
  | _ => other
  end = other.
Proof.
  intros Hc. destruct c as [[] [] [] [] [] [] [] []]; try reflexivity;
    discriminate Hc.
Qed.

Lemma leading_digits_all (e : string) :
  all_chars Js.is_digit e = true → leading_digits e = list_ascii_of_string e.
Proof.
  induction e as [|c e IH]; [reflexivity|].
  cbn [all_chars leading_digits list_ascii_of_string].
  intros [-> He]%andb_true_iff. by rewrite (IH He).
Qed.

(** A field of decimal digits is read as their value. *)
Lemma parseInt_all_digits (e : string) :
  e ≠ "" → all_chars Js.is_digit e = true →
  parseInt e = Some (toNumber (digits_value (list_ascii_of_string e))).
Proof.
  intros Hne Hall. pose proof (leading_digits_all e Hall) as Hlead.
  destruct e as [|c e]; [done|].
  cbn [all_chars] in Hall. apply andb_true_iff in Hall as [Hc _].
  unfold parseInt. cbn [Js.trimStart]. rewrite (digit_not_space c Hc).
  rewrite (digit_no_sign c _ _ _ _ Hc), Hlead.
  cbn [list_ascii_of_string]. do 2 f_equal; lia.
Qed.

Lemma trimStart_all_chars (p : ascii → bool) (e : string) :
  all_chars p e = true → all_chars p (Js.trimStart e) = true.
Proof.
  induction e as [|c e IH]; [done|].
  cbn [Js.trimStart]. destruct (Js.is_space c); [|done].
  cbn [all_chars]. intros [_ He]%andb_true_iff. by apply IH.
Qed.

(** A field without a digit is not a number. *)
Lemma parseInt_no_digit (e : string) :
  all_chars (λ c, negb (Js.is_digit c)) e = true → parseInt e = None.
Proof.
  intros Hall%trimStart_all_chars. unfold parseInt.
  assert (Hlead : ∀ s, all_chars (λ c, negb (Js.is_digit c)) s = true →
                       leading_digits s = []).
  { intros [|c s]; [done|]. cbn [all_chars leading_digits].
    intros [Hc _]%andb_true_iff. apply negb_true_iff in Hc. by rewrite Hc. }
  destruct (Js.trimStart e) as [|c s]; [reflexivity|].
  pose proof Hall as Hall'. cbn [all_chars] in Hall'.
  apply andb_true_iff in Hall' as [_ Hs].
  assert (Hcs := Hlead _ Hall). assert (Hs' := Hlead _ Hs).
  destruct c as [[] [] [] [] [] [] [] []];
    first [by rewrite Hs' | by rewrite Hcs].
Qed.

Section TokenProperties.

Variable hmacSha256Hex : string → string → option string.
Variable EMAIL_ACTION_SECRET : option string.
Variable decodeId : string → option DocRef.

Local Abbreviation verify := (verifyClaimToken hmacSha256Hex).
Local Abbreviation claim :=
  (claimAgentPublic hmacSha256Hex EMAIL_ACTION_SECRET decodeId).
Local Abbreviation secretInUse := (actionSecret EMAIL_ACTION_SECRET).

(** [verifyClaimToken] once the token decodes into three fields. *)
Lemma verifyClaimToken_fields token secret decoded id e sig :
  atob (Js.replaceAll "_" "/" (Js.replaceAll "-" "+" token)) = Some decoded →
  Js.split ":" decoded = [id; e; sig] →
  verify token secret
  = x ← parseInt e;
    expectedSig ← hmacSha256Hex secret (id +:+ ":" +:+ e);
    Some (mkVerified id x (constantTimeEqual sig expectedSig)).
Proof.
  intros Hd Hs. unfold verifyClaimToken. rewrite Hd. cbn. rewrite Hs. reflexivity.
Qed.

Lemma verifyClaimToken_bad_signature token secret decoded id e sig :
  atob (Js.replaceAll "_" "/" (Js.replaceAll "-" "+" token)) = Some decoded →
  Js.split ":" decoded = [id; e; sig] →
  hmacSha256Hex secret (id +:+ ":" +:+ e) ≠ Some sig →
  ∀ v, verify token secret = Some v → isValid v = false.
Proof.
  intros Hd Hs Hsig v. rewrite (verifyClaimToken_fields _ _ _ _ _ _ Hd Hs).
  destruct (parseInt e) as [x|]; cbn; [|done].
  destruct (hmacSha256Hex secret _) as [expected|]; cbn; [|done].
  intros [= <-]. cbn. apply not_true_is_false.
  rewrite constantTimeEqual_spec. congruence.
Qed.

(** [claimAgentPublic] for a signed-in human, up to the expiry check. *)
Lemma claimAgentPublic_until_expiry now userId user token d :
  users d !! userId = Some user → u_isAgentCreated user = false →
  (∀ v, verify token secretInUse = Some v → isValid v = true →
        before (expiry v) now = false → False) →
  claim now (Some userId) token d
  = Some (rejected (match verify token secretInUse with
                    | Some v => if isValid v then "expired" else "invalid_token"
                    | None => "invalid_token"
                    end), d).
Proof.
  intros Hu Ha Hexp. unfold claimAgentPublic. rewrite Hu, Ha.
  destruct (verify token secretInUse) as [v|]; [|reflexivity].
  destruct (isValid v) eqn:Hv; cbn; [|reflexivity].
  destruct (before (expiry v) now) eqn:Hb; [reflexivity|].
  exfalso. by apply (Hexp v).
Qed.

(** C7 (amended).  [verifyClaimToken] returns null when base64 decoding
    fails, when the decoded text does not have exactly three fields, and
    when the expiry field does not start with a number ([parseInt] gives
    NaN), as every field without a digit; when the signature field differs
    from the HMAC of [id:expiry], for instance by one flipped bit, the
    result is null or has [isValid = false]; and a token whose expiry field
    is a decimal number and whose signature is that HMAC is valid, with
    that number as its expiry.  [claimAgentPublic] turns away a caller who
    is not signed in, who is unknown, or who is agent-created, before it
    looks at the token, with the reason of that check.  For a signed-in
    user who exists and is not agent-created it answers [invalid_token] in
    all the former cases and [expired] for a validly signed token whose
    expiry is before [now], and only for such a token.  Each of these
    answers leaves the database unchanged. *)
Theorem link_token_rejections (token secret : string) :
  let base64 := Js.replaceAll "_" "/" (Js.replaceAll "-" "+" token) in
  (atob base64 = None → verify token secret = None)
  ∧ (∀ decoded, atob base64 = Some decoded →
       length (Js.split ":" decoded) ≠ 3%nat → verify token secret = None)
  ∧ (∀ decoded id e sig,
       atob base64 = Some decoded → Js.split ":" decoded = [id; e; sig] →
       (parseInt e = None → verify token secret = None)
       ∧ (all_chars (λ c, negb (Js.is_digit c)) e = true →
            verify token secret = None)
       ∧ (hmacSha256Hex secret (id +:+ ":" +:+ e) ≠ Some sig →
            ∀ v, verify token secret = Some v → isValid v = false)
       ∧ (∀ good i bit,
            hmacSha256Hex secret (id +:+ ":" +:+ e) = Some good →
            sig = flip_bit i bit good →
            (i < String.length good)%nat → (bit < 8)%nat →
            ∀ v, verify token secret = Some v → isValid v = false)
       ∧ (e ≠ "" → all_chars Js.is_digit e = true →
            hmacSha256Hex secret (id +:+ ":" +:+ e) = Some sig →
            verify token secret
            = Some (mkVerified id
                      (toNumber (digits_value (list_ascii_of_string e))) true)))
  ∧ (∀ now d,
       claim now None token d = Some (rejected "not_authenticated", d)
       ∧ ∀ userId,
           (users d !! userId = None →
              claim now (Some userId) token d
              = Some (rejected "user_not_found", d))
           ∧ (∀ user, users d !! userId = Some user →
                u_isAgentCreated user = true →
                claim now (Some userId) token d
                = Some (rejected "agent_cannot_claim", d)))
  ∧ (∀ now userId user d,
       users d !! userId = Some user → u_isAgentCreated user = false →
       ((verify token secretInUse = None
         ∨ ∃ v, verify token secretInUse = Some v ∧ isValid v = false) →
          claim now (Some userId) token d = Some (rejected "invalid_token", d))
       ∧ (∀ v, verify token secretInUse = Some v → isValid v = true →
            (expiry v = NegInfinity ∨ ∃ x, expiry v = Integer x ∧ x < now) →
            claim now (Some userId) token d = Some (rejected "expired", d))
       ∧ (claim now (Some userId) token d = Some (rejected "expired", d) →
            ∃ v, verify token secretInUse = Some v ∧ isValid v = true
              ∧ (expiry v = NegInfinity ∨ ∃ x, expiry v = Integer x ∧ x < now))).
Proof.
  intros base64. split; [|split; [|split; [|split]]].
  - intros Hd. unfold verifyClaimToken. fold base64. by rewrite Hd.
  - intros decoded Hd Hlen. unfold verifyClaimToken. fold base64. rewrite Hd. cbn.
    destruct (Js.split ":" decoded) as [|a [|b [|c [|]]]]; cbn in Hlen |- *; done.
  - intros decoded id e sig Hd Hs.
    assert (Hnan : parseInt e = None → verify token secret = None).
    { intros He. rewrite (verifyClaimToken_fields _ _ _ _ _ _ Hd Hs). by rewrite He. }
    split; [exact Hnan|]. split; [|split; [|split]].
    + intros Hno. by apply Hnan, parseInt_no_digit.
    + by apply (verifyClaimToken_bad_signature _ _ decoded).
    + intros good i bit Hgood -> Hi Hbit.
      apply (verifyClaimToken_bad_signature _ _ decoded id e (flip_bit i bit good));
        [done..|].
      rewrite Hgood. intros [= Heq]. symmetry in Heq.
      by apply (flip_bit_neq i bit good).
    + intros Hne Hall Hsig. rewrite (verifyClaimToken_fields _ _ _ _ _ _ Hd Hs).
      rewrite (parseInt_all_digits e Hne Hall), Hsig. cbn. do 2 f_equal.
      by apply constantTimeEqual_spec.
  - intros now d. split; [reflexivity|]. intros userId. split.
    + intros Hu. unfold claimAgentPublic. by rewrite Hu.
    + intros user Hu Ha. unfold claimAgentPublic. by rewrite Hu, Ha.
  - intros now userId user d Hu Ha. split; [|split].
    + intros Hbad. rewrite (claimAgentPublic_until_expiry _ _ _ _ _ Hu Ha).
      * destruct Hbad as [-> | (v & -> & ->)]; reflexivity.
      * intros v Hv Hvalid _. destruct Hbad as [Hn | (v' & Hv' & Hinv)]; congruence.
    + intros v Hv Hvalid Hexp. rewrite (claimAgentPublic_until_expiry _ _ _ _ _ Hu Ha).
      * by rewrite Hv, Hvalid.
      * intros v' Hv' _ Hle. assert (v' = v) as -> by congruence.
        destruct Hexp as [Hinf | (x & Hx & Hlt)].
        -- by rewrite Hinf in Hle.
        -- rewrite Hx in Hle. cbn in Hle. apply Z.ltb_ge in Hle. lia.
    + unfold claimAgentPublic. rewrite Hu, Ha.
      destruct (verify token secretInUse) as [v|]; [|discriminate].
      destruct (isValid v) eqn:Hvalid; cbn; [|discriminate].
      destruct (before (expiry v) now) eqn:Hb.
      * intros _. exists v. split; [reflexivity|]. split; [exact Hvalid|].
        destruct (expiry v) as [x| |]; [right|discriminate Hb|by left].
        exists x. split; [reflexivity|]. by apply Z.ltb_lt.
      * destruct (decodeId _) as [ref|]; [|discriminate]. cbn.
        destruct (claimFields _ _ _) as [[[a|] [k|]]|]; try discriminate.
        destruct (users d !! a) as [agentUser|]; [|discriminate].
        case_bool_decide; [discriminate|].
        by destruct (performClaimMigration _ _ _ _ _).
Qed.

End TokenProperties.

(** The amended statement at the platform's HMAC: the token minted for
    request [jd7f3k2m9x] with expiry 500 is valid, and at time 1000 the
    human 7 is told [expired] while the database stays as it was. *)
Lemma link_token_rejections_witness :
  generateClaimToken webCryptoHmac "jd7f3k2m9x" 500 "dev-secret-change-in-prod"
    = Some expiredToken
  ∧ claimAgentPublic webCryptoHmac None requestIds 1000 (Some 7%nat)
      expiredToken registeredDb
    = Some (rejected "expired", registeredDb).
Proof.
  split; [vm_compute; reflexivity|].
  pose proof (link_token_rejections webCryptoHmac None requestIds expiredToken
                "dev-secret-change-in-prod") as H.
  cbv zeta in H. destruct H as (_ & _ & _ & _ & H).
  destruct (H 1000 7%nat human registeredDb eq_refl eq_refl) as (_ & Hexp & _).
  apply (Hexp (mkVerified "jd7f3k2m9x" (Integer 500) true));
    [vm_compute; reflexivity | reflexivity |].
  right. exists 500. split; [reflexivity | lia].
Defined.

(** C7 (counterexample).  The token of request [jd7f3k2m9x] is validly
    signed and expired at 500; at time 1000 a caller who is not signed in
    is told [not_authenticated], not [expired]. *)
Lemma signed_out_caller_is_not_told_expired :
  verifyClaimToken webCryptoHmac expiredToken "dev-secret-change-in-prod"
    = Some (mkVerified "jd7f3k2m9x" (Integer 500) true)
  ∧ 500 < 1000
  ∧ claimAgentPublic webCryptoHmac None requestIds 1000 None
      expiredToken registeredDb
    = Some (rejected "not_authenticated", registeredDb)
  ∧ rejected "not_authenticated" ≠ rejected "expired".
Proof.
  split; [vm_compute; reflexivity|]. split; [lia|].
  split; [reflexivity | discriminate].
Qed.

(** What the amended statement leaves open: an expiry field that starts
    with digits and goes on with other text.  [parseInt] reads the digits,
    so the token that carries [12abc] with a matching signature is taken
    as valid with expiry 12. *)
Example expiry_with_trailing_text :
  atob prefixToken
    = Some "jd7f3k2m9x:12abc:dc227f7e127e9c4ff72a21dfa28ccbebf66b3dd8668bda1a3c1eb4ac8a50171f"
  ∧ verifyClaimToken webCryptoHmac prefixToken "dev-secret-change-in-prod"
    = Some (mkVerified "jd7f3k2m9x" (Integer 12) true).
Proof. vm_compute. repeat split. Qed.

(** * Further properties *)

(** ** The life of a post under all mutations *)

Lemma posts_set_agents f d : posts (set_agents f d) = posts d.
Proof. reflexivity. Qed.

Lemma posts_set_rateLimits f d : posts (set_rateLimits f d) = posts d.
Proof. reflexivity. Qed.

Lemma createInternal_keeps now args d postId post :
  posts d !! postId = Some post →
  posts (createInternal now args d).2 !! postId = Some post.
Proof.
  intros Hp. unfold createInternal. cbn [snd posts set_posts].
  rewrite lookup_insert_ne; [assumption|].
  intros <-. apply (is_fresh (dom (posts d))).
  apply elem_of_dom. by exists post.
Qed.

Lemma createInternal_new now args d postId post :
  posts d !! postId = None →
  posts (createInternal now args d).2 !! postId = Some post →
  post = createInternal_doc now args.
Proof.
  unfold createInternal. cbn [snd posts set_posts]. intros Hn.
  destruct (decide (fresh (dom (posts d)) = postId)) as [<-|Hne].
  - rewrite lookup_insert_eq. congruence.
  - rewrite lookup_insert_ne by assumption. congruence.
Qed.

Lemma performClaimMigration_posts now agentUserId humanUserId apiKeyId d d' :
  performClaimMigration now agentUserId humanUserId apiKeyId d = Some d' →
  posts d' = posts d
  ∨ posts d' = migrate_post agentUserId humanUserId <$> posts d.
Proof.
  unfold performClaimMigration, linkAgentToHuman.
  destruct (apiKeys d !! apiKeyId ≫= k_agentId) as [agentId|].
  - destruct (agents d !! agentId); cbn; [|discriminate].
    intros [= <-]. by left.
  - destruct (apiKeys d !! apiKeyId); cbn; [|discriminate].
    destruct (users d !! agentUserId); cbn; [|discriminate].
    intros [= <-]. by right.
Qed.

(** A call of [claimAgentPublic] that returns either leaves the database
    as it is or is one run of [performClaimMigration]. *)
Lemma claimAgentPublic_cases hmac secret decodeId now caller token d r d' :
  claimAgentPublic hmac secret decodeId now caller token d = Some (r, d') →
  d' = d
  ∨ ∃ agentUserId humanUserId apiKeyId,
      performClaimMigration now agentUserId humanUserId apiKeyId d = Some d'.
Proof.
  unfold claimAgentPublic. intros H.
  destruct caller as [userId|]; [|left; congruence].
  destruct (users d !! userId) as [user|]; [|left; congruence].
  destruct (u_isAgentCreated user); [left; congruence|].
  destruct (verifyClaimToken _ _ _) as [v|]; [|left; congruence].
  destruct (negb (isValid v)); [left; congruence|].
  destruct (before _ _); [left; congruence|].
  cbv zeta in H.
  destruct (decodeId _) as [ref|]; [|discriminate]. cbn [mbind option_bind] in H.
  destruct (claimFields _ _ _) as [[[a|] [k|]]|]; try (left; congruence).
  destruct (users d !! a) as [agentUser|]; [|left; congruence].
  case_bool_decide; [left; congruence|].
  destruct (performClaimMigration now a userId k d) as [d1|] eqn:Hm;
    [|discriminate].
  cbn in H. right. exists a, userId, k. congruence.
Qed.

Lemma claimAgentPublic_posts hmac secret decodeId now caller token d r d' :
  claimAgentPublic hmac secret decodeId now caller token d = Some (r, d') →
  posts d' = posts d
  ∨ ∃ agentUserId humanUserId,
      posts d' = migrate_post agentUserId humanUserId <$> posts d.
Proof.
  intros [->|(a & h & k & Hm)]%claimAgentPublic_cases; [by left|].
  apply performClaimMigration_posts in Hm as [->|Hm]; eauto.
Qed.

Lemma claimAgent_posts now requestId humanUserId d d' :
  claimAgent now requestId humanUserId d = Some (inr d') →
  posts d' = posts d
  ∨ ∃ agentUserId, posts d' = migrate_post agentUserId humanUserId <$> posts d.
Proof.
  unfold claimAgent. intros H.
  repeat (case_match; simplify_eq/=; auto).
  match goal with
  | H : performClaimMigration _ ?a ?h ?k _ ≫= _ = _ |- _ =>
      destruct (performClaimMigration now a h k d) as [d1|] eqn:Hm;
        cbn in H; [|discriminate]
  end.
  simplify_eq. apply performClaimMigration_posts in Hm as [->|Hm]; eauto.
Qed.

(** [createAgentUserAndKey] and [revoke] leave the posts and the queue
    alone. *)
Lemma createAgentUserAndKey_posts hmac secret now requestId handle apiKey d r d' :
  createAgentUserAndKey hmac secret now requestId handle apiKey d
    = Some (Ok (r, d')) →
  posts d' = posts d ∧ scheduled d' = scheduled d.
Proof.
  unfold createAgentUserAndKey. intros H.
  repeat (case_match; simplify_eq/=).
  destruct (generateClaimToken _ _ _ _) as [linkToken|]; cbn in H; [|discriminate].
  match type of H with
  | context [?m !! requestId] => destruct (m !! requestId); cbn in H; [|discriminate]
  end.
  by simplify_eq.
Qed.

Lemma revoke_posts caller keyId d d' :
  revoke caller keyId d = Ok d' →
  posts d' = posts d ∧ scheduled d' = scheduled d.
Proof.
  unfold revoke, throwIf, orThrow. intros H.
  destruct caller as [userId|]; [|discriminate]. cbn in H.
  repeat (case_match; simplify_eq/=); done.
Qed.

(** [deletePost] on an existing post, step by step. *)
Lemma deletePost_unfold now userId postId post d :
  posts d !! postId = Some post →
  deletePost now (Some userId) postId d
  = if decline_hasPermission d userId post then
      if p_isDeleted post then Ok d
      else Ok (set_posts (insert postId (delete_patch now post)) d)
    else Err FORBIDDEN.
Proof.
  intros Hp. unfold deletePost. cbn. rewrite Hp. cbn.
  by destruct (decline_hasPermission d userId post).
Qed.

(** [updatePost] on an existing post, step by step. *)
Lemma updatePost_unfold now userId args post d :
  posts d !! upd_postId args = Some post →
  updatePost now (Some userId) args d
  = if callerIsAdmin d userId then
      if p_isDeleted post then Err NOT_FOUND
      else
        match upd_agentId args with
        | Some agentId =>
            match agents d !! agentId with
            | Some _ =>
                Ok (set_posts (insert (upd_postId args)
                                 (updatePost_patch now args post)) d)
            | None => Err NOT_FOUND
            end
        | None =>
            Ok (set_posts (insert (upd_postId args)
                             (updatePost_patch now args post)) d)
        end
    else Err FORBIDDEN.
Proof.
  intros Hp. unfold updatePost. cbn. fold (callerIsAdmin d userId).
  destruct (callerIsAdmin d userId); cbn; [|reflexivity].
  rewrite Hp. cbn. destruct (p_isDeleted post); cbn; [reflexivity|].
  destruct (upd_agentId args) as [agentId|]; cbn; [|reflexivity].
  by destruct (agents d !! agentId).
Qed.

Lemma updatePost_missing now caller args d :
  posts d !! upd_postId args = None → ∀ d', updatePost now caller args d ≠ Ok d'.
Proof.
  intros Hp d'. unfold updatePost. destruct caller as [userId|]; cbn; [|done].
  destruct (negb _); cbn; [done|]. by rewrite Hp.
Qed.

(** [agents.update] writes the [agents] table and nothing else. *)
Lemma update_only_agents now caller args d d' :
  update now caller args d = Ok d' → ∃ f, d' = set_agents f d.
Proof.
  unfold update, update_formatCheck, throwIf, orThrow. intros H.
  destruct caller as [userId|]; [|discriminate]. cbn in H.
  repeat (case_match; simplify_eq/=); eauto.
Qed.

Ltac bool_hyps :=
  repeat match goal with
  | H : bool_decide _ = true |- _ => apply bool_decide_eq_true in H
  | H : bool_decide _ = false |- _ => apply bool_decide_eq_false in H
  | H : negb _ = true |- _ => apply negb_true_iff in H
  | H : negb _ = false |- _ => apply negb_false_iff in H
  | H : _ || _ = false |- _ => apply orb_false_iff in H as [? ?]
  | H : _ && _ = true |- _ => apply andb_true_iff in H as [? ?]
  end.

(** The effect of one transition on a post that was there before. *)
Lemma transition_post_change d d' postId post :
  Transition d d' → posts d !! postId = Some post →
  ∃ post', posts d' !! postId = Some post' ∧ PostChange post post'.
Proof.
  intros Ht Hp. destruct Ht.
  - exists post. split; [by apply createInternal_keeps | constructor].
  - exists post. split; [|constructor].
    unfold postsRoute.
    destruct (createInternal nowDb (http_createArgs auth body) d) as [i d1] eqn:Hc.
    assert (posts d1 !! postId = Some post) as Hd1.
    { change d1 with (i, d1).2. rewrite <- Hc. by apply createInternal_keeps. }
    destruct (http_shouldAutoPublish auth); cbn [snd];
      by rewrite posts_http_notify.
  - destruct caller as [userId|]; [|discriminate].
    destruct (posts d !! ap_postId args) as [target|] eqn:Ht;
      [|unfold approve in H; cbn in H; rewrite Ht in H; discriminate].
    rewrite (approve_unfold_args _ _ _ _ _ Ht) in H.
    repeat (case_match; simplify_eq/=);
      try (exists post; split; [assumption|constructor]).
    all: destruct (decide (ap_postId args = postId)) as [<-|Hne];
      [rewrite lookup_insert_eq; simplify_eq; eexists; split; [reflexivity|];
       bool_hyps; by apply pc_approve
      |rewrite lookup_insert_ne by assumption; exists post; split;
       [assumption|constructor]].
  - destruct caller as [userId|]; [|discriminate].
    destruct (posts d !! postId0) as [target|] eqn:Ht;
      [|unfold decline in H; cbn in H; rewrite Ht in H; discriminate].
    rewrite (decline_unfold _ _ _ _ _ _ Ht) in H.
    repeat (case_match; simplify_eq/=);
      try (exists post; split; [assumption|constructor]).
    destruct (decide (postId0 = postId)) as [<-|Hne];
      [rewrite lookup_insert_eq; simplify_eq; eexists; split; [reflexivity|];
       bool_hyps; by apply pc_decline
      |rewrite lookup_insert_ne by assumption; exists post; split;
       [assumption|constructor]].
  - destruct caller as [userId|]; [|discriminate].
    destruct (posts d !! postId0) as [target|] eqn:Ht;
      [|unfold deletePost in H; cbn in H; rewrite Ht in H; discriminate].
    rewrite (deletePost_unfold _ _ _ _ _ Ht) in H.
    repeat (case_match; simplify_eq/=);
      try (exists post; split; [assumption|constructor]).
    destruct (decide (postId0 = postId)) as [<-|Hne];
      [rewrite lookup_insert_eq; simplify_eq; eexists; split; [reflexivity|];
       by apply pc_delete
      |rewrite lookup_insert_ne by assumption; exists post; split;
       [assumption|constructor]].
  - destruct caller as [userId|]; [|discriminate].
    destruct (posts d !! upd_postId args) as [target|] eqn:Ht;
      [|by apply updatePost_missing in H].
    rewrite (updatePost_unfold _ _ _ _ _ Ht) in H.
    repeat (case_match; simplify_eq/=).
    all: destruct (decide (upd_postId args = postId)) as [Heq|Hne];
      [rewrite Heq in *; rewrite lookup_insert_eq; simplify_eq; eexists;
       split; [reflexivity|]; by apply pc_update
      |rewrite lookup_insert_ne by assumption; exists post; split;
       [assumption|constructor]].
  - unfold approveViaEmail. repeat (case_match; simplify_eq/=);
      try (exists post; split; [assumption|constructor]).
    destruct (decide (postId0 = postId)) as [<-|Hne];
      [rewrite lookup_insert_eq; simplify_eq; eexists; split; [reflexivity|];
       bool_hyps; by apply pc_approveViaEmail
      |rewrite lookup_insert_ne by assumption; exists post; split;
       [assumption|constructor]].
  - unfold declineViaEmail. repeat (case_match; simplify_eq/=);
      try (exists post; split; [assumption|constructor]).
    destruct (decide (postId0 = postId)) as [<-|Hne];
      [rewrite lookup_insert_eq; simplify_eq; eexists; split; [reflexivity|];
       bool_hyps; by apply pc_declineViaEmail
      |rewrite lookup_insert_ne by assumption; exists post; split;
       [assumption|constructor]].
  - unfold autoPublish. repeat (case_match; simplify_eq/=);
      try (exists post; split; [assumption|constructor]).
    destruct (decide (postId0 = postId)) as [<-|Hne];
      [rewrite lookup_insert_eq; simplify_eq; eexists; split; [reflexivity|];
       bool_hyps; by apply pc_autoPublish
      |rewrite lookup_insert_ne by assumption; exists post; split;
       [assumption|constructor]].
  - destruct (processAutoPublish_loop now d) as (H1 & H2 & _ & _).
    destruct (decide (postId ∈ sweepBatch now d)) as [Hin|Hout].
    + apply sweepBatch_elem in Hin as (post0 & Hin & Hp0 & He).
      assert (post0 = post) as -> by congruence.
      exists (autoPublish_patch now post). split; [apply (H1 _ Hin)|].
      destruct He as (? & ? & _). by apply pc_autoPublish.
    + exists post. split; [|constructor].
      rewrite H2; [assumption|]. by rewrite <- sweepBatch_unfold.
  - exists post. split; [|constructor].
    by apply update_only_agents in H as [f ->].
  - exists post. split; [|constructor].
    unfold checkInitRateLimit. repeat (case_match; simplify_eq/=); assumption.
  - exists post. split; [assumption|constructor].
  - apply claimAgentPublic_posts in H as [->|(a & h & ->)].
    + exists post. split; [assumption|constructor].
    + exists (migrate_post a h post). split; [|constructor].
      by rewrite lookup_fmap, Hp.
  - apply claimAgent_posts in H as [->|(a & ->)].
    + exists post. split; [assumption|constructor].
    + exists (migrate_post a humanUserId post). split; [|constructor].
      by rewrite lookup_fmap, Hp.
  - apply createAgentUserAndKey_posts in H as [-> _].
    exists post. split; [assumption|constructor].
  - apply revoke_posts in H as [-> _].
    exists post. split; [assumption|constructor].
Qed.

Lemma approvedDb_to_laterDb : rtc Transition approvedDb laterDb.
Proof.
  eapply rtc_l; [apply (t_decline 200 (Some 7%nat) 0%nat None); reflexivity|].
  eapply rtc_l; [apply (t_deletePost 300 (Some 7%nat) 0%nat); reflexivity|].
  apply rtc_once, (t_processAutoPublish 1000).
Qed.

Lemma reviewDb_to_laterDb : rtc Transition reviewDb laterDb.
Proof.
  eapply rtc_l; [apply (t_approveViaEmail 100 0%nat)|].
  apply approvedDb_to_laterDb.
Qed.

(** What every change of a post leaves alone. *)
Lemma PostChange_fixed post post' :
  PostChange post post' →
  p_reviewDeadline post' = p_reviewDeadline post
  ∧ p_createdAt post' = p_createdAt post
  ∧ p_creationTime post' = p_creationTime post
  ∧ p_apiKeyId post' = p_apiKeyId post
  ∧ p_package post' = p_package post
  ∧ p_language post' = p_language post
  ∧ p_version post' = p_version post
  ∧ p_tags post' = p_tags post.
Proof.
  destruct 1; repeat split; try reflexivity;
    unfold migrate_post; case_bool_decide; reflexivity.
Qed.

Lemma PostChange_final post post' :
  PostChange post post' → p_status post ≠ needs_review →
  p_status post' = p_status post
  ∧ p_publishedAt post' = p_publishedAt post
  ∧ p_reviewedAt post' = p_reviewedAt post
  ∧ p_reviewedBy post' = p_reviewedBy post
  ∧ p_declineReason post' = p_declineReason post
  ∧ p_isHumanVerified post' = p_isHumanVerified post.
Proof.
  destruct 1; intros Hs; try done; repeat split; try reflexivity;
    unfold migrate_post; case_bool_decide; reflexivity.
Qed.

Lemma PostChange_deleted post post' :
  PostChange post post' → p_isDeleted post = true → p_isDeleted post' = true.
Proof.
  destruct 1; intros Hd; try done; try congruence.
  unfold migrate_post; by case_bool_decide.
Qed.

Lemma PostChange_consistent post post' :
  PostChange post post' →
  post_consistent post → post_consistent post'.
Proof.
  unfold post_consistent.
  destruct 1; intros Hc; try done;
    try (rewrite ?H in Hc; cbn; destruct Hc as (? & ? & ?); by eauto).
  unfold migrate_post; by case_bool_decide.
Qed.

(** X1.  Once a post has left review, no sequence of mutations changes its
    status or its review record ([publishedAt], [reviewedAt], [reviewedBy],
    [declineReason], [isHumanVerified]); the post is never removed. *)
Theorem reviewed_post_is_final (d d' : Db) (postId : Id) (post : Post) :
  rtc Transition d d' →
  posts d !! postId = Some post →
  p_status post ≠ needs_review →
  ∃ post', posts d' !! postId = Some post'
    ∧ p_status post' = p_status post
    ∧ p_publishedAt post' = p_publishedAt post
    ∧ p_reviewedAt post' = p_reviewedAt post
    ∧ p_reviewedBy post' = p_reviewedBy post
    ∧ p_declineReason post' = p_declineReason post
    ∧ p_isHumanVerified post' = p_isHumanVerified post.
Proof.
  intros Hrtc. revert post.
  induction Hrtc as [d|d d1 d' Hstep _ IH]; intros post Hp Hs.
  - exists post. by repeat split.
  - destruct (transition_post_change _ _ _ _ Hstep Hp) as (post1 & Hp1 & Hc).
    destruct (PostChange_final _ _ Hc Hs) as (E1 & E2 & E3 & E4 & E5 & E6).
    destruct (IH post1 Hp1) as (post' & Hp' & F); [congruence|].
    exists post'. split; [assumption|].
    rewrite <- E1, <- E2, <- E3, <- E4, <- E5, <- E6. exact F.
Qed.

Lemma reviewed_post_is_final_witness :
  ∃ post', posts laterDb !! 0%nat = Some post'
    ∧ p_status post' = approved
    ∧ p_publishedAt post' = Some 100.
Proof.
  destruct (reviewed_post_is_final approvedDb laterDb 0%nat
              (approveViaEmail_patch 100 (reviewPost 500 false))
              approvedDb_to_laterDb eq_refl)
    as (post' & Hp & Hs & Hpub & _); [discriminate|].
  exists post'. by repeat split.
Defined.

(** X2.  The review deadline, the creation time, the authoring key and
    the package context of a post are fixed at creation: no sequence of
    mutations changes them. *)
Theorem review_deadline_is_fixed (d d' : Db) (postId : Id) (post : Post) :
  rtc Transition d d' →
  posts d !! postId = Some post →
  ∃ post', posts d' !! postId = Some post'
    ∧ p_reviewDeadline post' = p_reviewDeadline post
    ∧ p_createdAt post' = p_createdAt post
    ∧ p_creationTime post' = p_creationTime post
    ∧ p_apiKeyId post' = p_apiKeyId post
    ∧ p_package post' = p_package post
    ∧ p_language post' = p_language post
    ∧ p_version post' = p_version post
    ∧ p_tags post' = p_tags post.
Proof.
  intros Hrtc. revert post.
  induction Hrtc as [d|d d1 d' Hstep _ IH]; intros post Hp.
  - exists post. by repeat split.
  - destruct (transition_post_change _ _ _ _ Hstep Hp) as (post1 & Hp1 & Hc).
    destruct (PostChange_fixed _ _ Hc) as (E1 & E2 & E3 & E4 & E5 & E6 & E7 & E8).
    destruct (IH post1 Hp1) as (post' & Hp' & F).
    exists post'. split; [assumption|].
    rewrite <- E1, <- E2, <- E3, <- E4, <- E5, <- E6, <- E7, <- E8. exact F.
Qed.

Lemma review_deadline_is_fixed_witness :
  ∃ post', posts laterDb !! 0%nat = Some post' ∧ p_reviewDeadline post' = 500.
Proof.
  destruct (review_deadline_is_fixed reviewDb laterDb 0%nat (reviewPost 500 false)
              reviewDb_to_laterDb eq_refl) as (post' & Hp & Hd & _).
  by exists post'.
Defined.

(** X3.  Soft deletion is permanent: after any sequence of mutations a
    deleted post is still stored, still deleted, and [get] still hides
    it. *)
Theorem soft_delete_is_permanent (d d' : Db) (postId : Id) (post : Post) :
  rtc Transition d d' →
  posts d !! postId = Some post →
  p_isDeleted post = true →
  (∃ post', posts d' !! postId = Some post' ∧ p_isDeleted post' = true)
  ∧ get postId d' = None.
Proof.
  intros Hrtc Hp Hd.
  assert (∃ post', posts d' !! postId = Some post' ∧ p_isDeleted post' = true)
    as (post' & Hp' & Hd').
  { revert post Hp Hd.
    induction Hrtc as [d|d d1 d' Hstep _ IH]; intros post Hp Hd; [eauto|].
    destruct (transition_post_change _ _ _ _ Hstep Hp) as (post1 & Hp1 & Hc).
    apply (IH post1 Hp1). by apply (PostChange_deleted post). }
  split; [eauto|]. unfold get. by rewrite Hp', Hd'.
Qed.

Lemma soft_delete_is_permanent_witness :
  get 0%nat laterDb = None.
Proof.
  apply (soft_delete_is_permanent deletedDb laterDb 0%nat
           (delete_patch 300 (approveViaEmail_patch 100 (reviewPost 500 false)))).
  - apply rtc_once, (t_processAutoPublish 1000 deletedDb).
  - reflexivity.
  - reflexivity.
Defined.

Lemma insert_over_existing {A} (m : gmap Id A) i j x y :
  m !! i = Some x → m !! j = None → <[i:=y]> m !! j = None.
Proof. intros Hi Hj. rewrite lookup_insert_ne; [assumption|congruence]. Qed.

(** A transition adds posts only through [createInternal]. *)
Lemma transition_new_post d d' postId post' :
  Transition d d' →
  posts d !! postId = None → posts d' !! postId = Some post' →
  ∃ now args, post' = createInternal_doc now args.
Proof.
  intros Ht Hn Hp'. destruct Ht.
  - eauto using createInternal_new.
  - exists nowDb, (http_createArgs auth body).
    apply (createInternal_new _ _ d postId); [assumption|].
    revert Hp'. unfold postsRoute.
    destruct (createInternal nowDb (http_createArgs auth body) d) as [i d1].
    destruct (http_shouldAutoPublish auth); cbn [snd];
      by rewrite posts_http_notify.
  - exfalso. destruct caller as [userId|]; [|discriminate].
    destruct (posts d !! ap_postId args) as [target|] eqn:Ht;
      [|unfold approve in H; cbn in H; rewrite Ht in H; discriminate].
    rewrite (approve_unfold_args _ _ _ _ _ Ht) in H.
    repeat (case_match; simplify_eq/=); try congruence;
      rewrite (insert_over_existing _ _ _ _ _ Ht Hn) in Hp'; discriminate.
  - exfalso. destruct caller as [userId|]; [|discriminate].
    destruct (posts d !! postId0) as [target|] eqn:Ht;
      [|unfold decline in H; cbn in H; rewrite Ht in H; discriminate].
    rewrite (decline_unfold _ _ _ _ _ _ Ht) in H.
    repeat (case_match; simplify_eq/=); try congruence;
      rewrite (insert_over_existing _ _ _ _ _ Ht Hn) in Hp'; discriminate.
  - exfalso. destruct caller as [userId|]; [|discriminate].
    destruct (posts d !! postId0) as [target|] eqn:Ht;
      [|unfold deletePost in H; cbn in H; rewrite Ht in H; discriminate].
    rewrite (deletePost_unfold _ _ _ _ _ Ht) in H.
    repeat (case_match; simplify_eq/=); try congruence;
      rewrite (insert_over_existing _ _ _ _ _ Ht Hn) in Hp'; discriminate.
  - exfalso. destruct caller as [userId|]; [|discriminate].
    destruct (posts d !! upd_postId args) as [target|] eqn:Ht;
      [|by apply updatePost_missing in H].
    rewrite (updatePost_unfold _ _ _ _ _ Ht) in H.
    repeat (case_match; simplify_eq/=); try congruence;
      rewrite (insert_over_existing _ _ _ _ _ Ht Hn) in Hp'; discriminate.
  - exfalso. revert Hp'. unfold approveViaEmail.
    destruct (posts d !! postId0) as [target|] eqn:Ht; cbn; [|congruence].
    case_match; cbn; [congruence|].
    by rewrite (insert_over_existing _ _ _ _ _ Ht Hn).
  - exfalso. revert Hp'. unfold declineViaEmail.
    destruct (posts d !! postId0) as [target|] eqn:Ht; cbn; [|congruence].
    case_match; cbn; [congruence|].
    by rewrite (insert_over_existing _ _ _ _ _ Ht Hn).
  - exfalso. revert Hp'. unfold autoPublish.
    destruct (posts d !! postId0) as [target|] eqn:Ht; cbn; [|congruence].
    case_match; cbn; [congruence|].
    by rewrite (insert_over_existing _ _ _ _ _ Ht Hn).
  - exfalso. destruct (processAutoPublish_loop now d) as (_ & H2 & _ & _).
    rewrite H2 in Hp'; [congruence|].
    rewrite <- sweepBatch_unfold. intros Hin.
    apply sweepBatch_elem in Hin as (? & _ & ? & _). congruence.
  - exfalso. apply update_only_agents in H as [f ->]. cbn in Hp'. congruence.
  - exfalso. revert Hp'. unfold checkInitRateLimit.
    repeat (case_match; simplify_eq/=); congruence.
  - exfalso. cbn in Hp'. congruence.
  - exfalso. apply claimAgentPublic_posts in H as [Heq|(a & h & Heq)];
      rewrite Heq in Hp'; [congruence|].
    rewrite lookup_fmap, Hn in Hp'. discriminate.
  - exfalso. apply claimAgent_posts in H as [Heq|(a & Heq)];
      rewrite Heq in Hp'; [congruence|].
    rewrite lookup_fmap, Hn in Hp'. discriminate.
  - exfalso. apply createAgentUserAndKey_posts in H as [Heq _]. congruence.
  - exfalso. apply revoke_posts in H as [Heq _]. congruence.
Qed.

Lemma createInternal_doc_consistent now args :
  post_consistent (createInternal_doc now args)
  ∧ p_reviewDeadline (createInternal_doc now args)
    = p_createdAt (createInternal_doc now args) + SEVEN_DAYS_MS.
Proof.
  unfold post_consistent, createInternal_doc. cbn.
  destruct (createInternal_shouldAutoPublish args); cbn; by eauto.
Qed.

(** X4.  Starting from the empty database, after any sequence of
    mutations every stored post has [reviewDeadline = createdAt + 7 days]
    and the publication fields that go with its status: [publishedAt] is
    set exactly on approved and auto-published posts, [isHumanVerified] is
    true on approved and false on auto-published ones and unset otherwise,
    and [reviewedAt] is set exactly on approved and declined posts. *)
Theorem reachable_posts_are_consistent (d : Db) :
  rtc Transition emptyDb d → posts_consistent d.
Proof.
  revert d. apply rtc_ind_r.
  - intros postId post Hp. cbn in Hp. by rewrite lookup_empty in Hp.
  - intros d1 d _ Hstep IH postId post' Hp'.
    destruct (posts d1 !! postId) as [post|] eqn:Hp.
    + destruct (transition_post_change _ _ _ _ Hstep Hp) as (post1 & Hp1 & Hc).
      assert (post1 = post') as -> by congruence.
      destruct (IH postId post Hp) as [Hcons Hdl].
      split; [by apply (PostChange_consistent post)|].
      destruct (PostChange_fixed _ _ Hc) as (-> & -> & _). exact Hdl.
    + destruct (transition_new_post _ _ _ _ Hstep Hp Hp') as (now & args & ->).
      apply createInternal_doc_consistent.
Qed.

Lemma reachable_posts_are_consistent_witness :
  posts_consistent (postsRoute 100 101 (unlinkedAuth 1 0 2) sampleBody emptyDb).2.
Proof.
  apply reachable_posts_are_consistent.
  apply rtc_once, t_postsRoute.
Defined.

(** ** [deletePost] and [updatePost] *)

(** X5.  [deletePost] is open to the human linked to the post's agent and
    to the legacy owner, and to nobody else (an admin who is neither gets
    FORBIDDEN).  For them it succeeds, hides the post from [get], keeps its
    status and every other post, and a second call returns the same
    state. *)
Theorem deletePost_hides_and_repeats
    (now now' : Z) (userId postId : Id) (post : Post) (d : Db) :
  posts d !! postId = Some post →
  (isLinkedHuman d userId post ∨ isLegacyOwner userId post →
     ∃ d1 post1,
       deletePost now (Some userId) postId d = Ok d1
       ∧ posts d1 !! postId = Some post1
       ∧ p_isDeleted post1 = true
       ∧ p_status post1 = p_status post
       ∧ get postId d1 = None
       ∧ (∀ other, other ≠ postId → posts d1 !! other = posts d !! other)
       ∧ deletePost now' (Some userId) postId d1 = Ok d1)
  ∧ (¬ (isLinkedHuman d userId post ∨ isLegacyOwner userId post) →
       deletePost now (Some userId) postId d = Err FORBIDDEN).
Proof.
  intros Hp. rewrite <- decline_hasPermission_spec.
  rewrite (deletePost_unfold _ _ _ _ _ Hp). split.
  - intros Hperm. rewrite Hperm. destruct (p_isDeleted post) eqn:Hd.
    + exists d, post. repeat split; try done.
      * unfold get. by rewrite Hp, Hd.
      * by rewrite (deletePost_unfold _ _ _ _ _ Hp), Hperm, Hd.
    + eexists _, (delete_patch now post). split; [reflexivity|].
      assert (Hl : posts (set_posts (insert postId (delete_patch now post)) d)
                   !! postId = Some (delete_patch now post))
        by apply lookup_insert_eq.
      repeat split; try done.
      * unfold get. by rewrite Hl.
      * intros other Hne. cbn. by rewrite lookup_insert_ne.
      * rewrite (deletePost_unfold _ _ _ _ _ Hl).
        by rewrite (decline_hasPermission_set_posts _ _ _ post), Hperm.
  - intros Hperm. apply not_true_is_false in Hperm. by rewrite Hperm.
Qed.

Lemma deletePost_hides_and_repeats_witness :
  (∃ d1, deletePost 300 (Some 7%nat) 0%nat reviewDb = Ok d1 ∧ get 0%nat d1 = None)
  ∧ deletePost 300 (Some 9%nat) 0%nat reviewDb = Err FORBIDDEN.
Proof.
  destruct (deletePost_hides_and_repeats 300 400 7%nat 0%nat
              (reviewPost 500 false) reviewDb eq_refl) as [H7 _].
  destruct (deletePost_hides_and_repeats 300 400 9%nat 0%nat
              (reviewPost 500 false) reviewDb eq_refl) as [_ H9].
  split.
  - destruct H7 as (d1 & post1 & Hok & _ & _ & _ & Hget & _).
    + left. exists 1%nat. eexists. repeat split; reflexivity.
    + by exists d1.
  - apply H9. intros [(a & agent & Ha & Hag & Hl)|Ho]; [|discriminate Ho].
    injection Ha as <-. vm_compute in Hag. injection Hag as <-. discriminate Hl.
Defined.

(** X6.  [updatePost] is for admins only: any other signed-in caller, the
    linked human included, gets FORBIDDEN whether or not the post exists.
    For an admin it refuses a missing post, a deleted post and an unknown
    new author with NOT_FOUND, and otherwise succeeds: it rewrites title,
    content and search text (and the author when one is passed) while the
    status, the review record, the deadline and the deletion flag stay as
    they were. *)
Theorem updatePost_is_admin_only
    (now : Z) (userId : Id) (args : UpdatePostArgs) (d : Db) :
  (callerIsAdmin d userId = false →
     updatePost now (Some userId) args d = Err FORBIDDEN)
  ∧ (callerIsAdmin d userId = true →
     (posts d !! upd_postId args = None →
        updatePost now (Some userId) args d = Err NOT_FOUND)
     ∧ (∀ post, posts d !! upd_postId args = Some post →
          (p_isDeleted post = true →
             updatePost now (Some userId) args d = Err NOT_FOUND)
          ∧ (∀ agentId, upd_agentId args = Some agentId →
               agents d !! agentId = None →
               updatePost now (Some userId) args d = Err NOT_FOUND)
          ∧ (p_isDeleted post = false →
             (∀ agentId, upd_agentId args = Some agentId →
                is_Some (agents d !! agentId)) →
             ∃ d' post',
               updatePost now (Some userId) args d = Ok d'
               ∧ posts d' !! upd_postId args = Some post'
               ∧ p_title post' = default (p_title post) (upd_title args)
               ∧ p_content post' = default (p_content post) (upd_content args)
               ∧ p_agentId post'
                 = from_option Some (p_agentId post) (upd_agentId args)
               ∧ p_status post' = p_status post
               ∧ p_publishedAt post' = p_publishedAt post
               ∧ p_reviewedAt post' = p_reviewedAt post
               ∧ p_isHumanVerified post' = p_isHumanVerified post
               ∧ p_reviewDeadline post' = p_reviewDeadline post
               ∧ p_isDeleted post' = false
               ∧ (∀ other, other ≠ upd_postId args →
                    posts d' !! other = posts d !! other)))).
Proof.
  split.
  - intros Hadm. unfold updatePost. cbn. fold (callerIsAdmin d userId).
    by rewrite Hadm.
  - intros Hadm. split.
    + intros Hn. unfold updatePost. cbn. fold (callerIsAdmin d userId).
      rewrite Hadm. cbn. by rewrite Hn.
    + intros post Hp. rewrite (updatePost_unfold _ _ _ _ _ Hp), Hadm.
      split; [by intros ->|]. split.
      * intros agentId Ha Hn. rewrite Ha, Hn. by destruct (p_isDeleted post).
      * intros Hd Hag. rewrite Hd.
        exists (set_posts (insert (upd_postId args)
                            (updatePost_patch now args post)) d),
               (updatePost_patch now args post).
        split.
        { destruct (upd_agentId args) as [agentId|] eqn:Ha; [|reflexivity].
          destruct (Hag agentId eq_refl) as [agent ->]. reflexivity. }
        split; [apply lookup_insert_eq|].
        repeat (split; [by (reflexivity || (cbn; destruct (upd_agentId args)))|]).
        intros other Hne. cbn. by rewrite lookup_insert_ne.
Qed.

Lemma updatePost_is_admin_only_witness :
  updatePost 300 (Some 7%nat) (mkUpdatePostArgs 0%nat (Some "T") None None) reviewDb
    = Err FORBIDDEN.
Proof.
  destruct (updatePost_is_admin_only 300 7%nat
              (mkUpdatePostArgs 0%nat (Some "T") None None) reviewDb) as [H7 _].
  by apply H7.
Defined.

(** ** The signup rate limiter as a sliding window *)

Lemma filter_within_later (t now : Z) (l : list Z) :
  t ≤ now → filter (within now) (filter (within t) l) = filter (within now) l.
Proof.
  intros Hle. induction l as [|x l IH]; [reflexivity|].
  rewrite !filter_cons.
  destruct (decide (t - x < windowMs)) as [Ht|Ht].
  - rewrite filter_cons. destruct (decide (now - x < windowMs)); by rewrite IH.
  - rewrite IH. destruct (decide (now - x < windowMs)); [lia|reflexivity].
Qed.

Lemma filter_within_self (t : Z) : filter (within t) [t] = [t].
Proof.
  rewrite filter_cons. destruct (decide (t - t < windowMs)) as [|Hn]; [reflexivity|].
  exfalso. apply Hn. unfold windowMs. lia.
Qed.

Lemma recorded_Some fingerprint existing d :
  agentSignupRateLimits d !! fingerprint = Some existing →
  recorded fingerprint d = rl_timestamps existing.
Proof. intros H. unfold recorded, recordOf. by rewrite H. Qed.

Lemma recorded_None fingerprint d :
  agentSignupRateLimits d !! fingerprint = None → recorded fingerprint d = [].
Proof. intros H. unfold recorded, recordOf. by rewrite H. Qed.

Lemma recorded_insert fingerprint r d :
  recorded fingerprint (set_rateLimits (insert fingerprint r) d) = rl_timestamps r.
Proof. apply recorded_Some, rateLimits_insert. Qed.

(** The verdict and the new record, in terms of the timestamps on
    record. *)
Lemma checkInitRateLimit_recorded now fingerprint d :
  let recent := filter (within now) (recorded fingerprint d) in
  let r := checkInitRateLimit now fingerprint d in
  allowed r.1 = bool_decide (length recent < MAX_INIT_PER_HOUR)%nat
  ∧ recorded fingerprint r.2
    = (if allowed r.1 then recent ++ [now] else recorded fingerprint d)
  ∧ (allowed r.1 = false → r.2 = d).
Proof.
  cbv zeta. unfold checkInitRateLimit.
  destruct (agentSignupRateLimits d !! fingerprint) as [existing|] eqn:Hrec.
  - rewrite (recorded_Some _ _ _ Hrec).
    case_bool_decide as Hfull; cbn [fst snd allowed].
    + rewrite bool_decide_eq_false_2 by lia.
      rewrite (recorded_Some _ _ _ Hrec). done.
    + rewrite bool_decide_eq_true_2 by lia.
      rewrite recorded_insert. done.
  - rewrite (recorded_None _ _ Hrec). cbn [fst snd allowed].
    rewrite recorded_insert. done.
Qed.

Lemma window_agrees_step now fingerprint past d :
  window_agrees fingerprint past d →
  let r := checkInitRateLimit now fingerprint d in
  window_agrees fingerprint (past ++ (if allowed r.1 then [now] else [])) r.2.
Proof.
  intros Hinv r.
  destruct (checkInitRateLimit_recorded now fingerprint d) as (_ & Hrec & Hsame).
  fold r in Hrec, Hsame. intros t Hall.
  destruct (allowed r.1) eqn:Hal.
  - apply Forall_app in Hall as [Hpast Hnow].
    apply Forall_inv in Hnow. cbn in Hnow.
    rewrite Hrec, !filter_app, filter_within_later by assumption.
    by rewrite (Hinv t Hpast).
  - rewrite app_nil_r in *. rewrite (Hsame eq_refl). by apply Hinv.
Qed.

Lemma window_agrees_serve fingerprint times : ∀ past d,
  window_agrees fingerprint past d →
  window_agrees fingerprint (past ++ (serve fingerprint times d).1)
    (serve fingerprint times d).2.
Proof.
  induction times as [|now later IH]; intros past d Hinv; cbn [serve fst snd].
  - by rewrite app_nil_r.
  - rewrite app_assoc. apply IH. by apply window_agrees_step.
Qed.

Lemma serve_times fingerprint times : ∀ d,
  (serve fingerprint times d).1 ⊆ times.
Proof.
  induction times as [|now later IH]; intros d; cbn [serve fst snd]; [done|].
  intros x Hx. apply elem_of_app in Hx as [Hx|Hx].
  - destruct (allowed _); [|by apply elem_of_nil in Hx].
    apply list_elem_of_singleton in Hx as ->. left.
  - right. exact (IH _ x Hx).
Qed.

Lemma serve_app fingerprint l1 l2 : ∀ d,
  serve fingerprint (l1 ++ l2) d
  = ((serve fingerprint l1 d).1
       ++ (serve fingerprint l2 (serve fingerprint l1 d).2).1,
     (serve fingerprint l2 (serve fingerprint l1 d).2).2).
Proof.
  induction l1 as [|now l1 IH]; intros d; cbn [serve app fst snd].
  - by destruct (serve fingerprint l2 d).
  - rewrite IH. cbn [fst snd]. by rewrite app_assoc.
Qed.

Lemma recorded_capped_step now fingerprint d :
  (length (recorded fingerprint d) ≤ 5)%nat →
  (length (recorded fingerprint (checkInitRateLimit now fingerprint d).2) ≤ 5)%nat.
Proof.
  intros Hcap.
  destruct (checkInitRateLimit_recorded now fingerprint d) as (Hal & Hrec & _).
  rewrite Hrec, Hal. case_bool_decide as Hlt; [|exact Hcap].
  rewrite length_app. cbn. unfold MAX_INIT_PER_HOUR in Hlt. lia.
Qed.

Lemma recorded_capped_serve fingerprint times : ∀ d,
  (length (recorded fingerprint d) ≤ 5)%nat →
  (length (recorded fingerprint (serve fingerprint times d).2) ≤ 5)%nat.
Proof.
  induction times as [|now later IH]; intros d Hcap; cbn [serve fst snd]; [done|].
  by apply IH, recorded_capped_step.
Qed.

(** X7.  The limiter is a sliding window over the admitted requests: for a
    fingerprint that starts without a record, a request at a time [t] not
    earlier than the requests before it is allowed exactly when fewer than
    five of the earlier requests that were let through lie less than an
    hour before [t]; so no window of an hour ending at a request ever
    holds more than five admitted requests. *)
Theorem limiter_is_sliding_window
    (fingerprint : string) (before : list Z) (t : Z) (d : Db) :
  agentSignupRateLimits d !! fingerprint = None →
  Forall (λ earlier, earlier ≤ t) before →
  let s := serve fingerprint before d in
  allowed (checkInitRateLimit t fingerprint s.2).1
  = bool_decide (length (filter (λ ts, (t - ts < windowMs)%Z) s.1) < 5)%nat
  ∧ (length (filter (λ ts, (t - ts < windowMs)%Z)
               (serve fingerprint (before ++ [t]) d).1) ≤ 5)%nat.
Proof.
  intros Hnone Hle s.
  assert (Hinv : window_agrees fingerprint s.1 s.2).
  { apply (window_agrees_serve fingerprint before [] d).
    intros now _. by rewrite (recorded_None _ _ Hnone). }
  assert (Hpast : Forall (λ ts, ts ≤ t) s.1).
  { rewrite Forall_forall in *. intros x Hx.
    apply Hle. by apply (serve_times fingerprint before d). }
  destruct (checkInitRateLimit_recorded t fingerprint s.2) as (Hal & _ & _).
  rewrite <- (Hinv t Hpast) in Hal. fold MAX_INIT_PER_HOUR.
  split; [exact Hal|].
  rewrite serve_app. cbn [serve fst snd]. fold s.
  rewrite app_nil_r, filter_app, length_app, Hal.
  case_bool_decide as Hlt; cbn [length].
  - rewrite filter_within_self. cbn. lia.
  - rewrite filter_nil. cbn. rewrite (Hinv t Hpast), Nat.add_0_r.
    etrans; [apply length_filter|].
    apply recorded_capped_serve. rewrite (recorded_None _ _ Hnone). cbn. lia.
Qed.

(** Five requests in five seconds: a sixth one second later is refused. *)
Lemma limiter_is_sliding_window_witness :
  allowed (checkInitRateLimit 5000 "ip"
             (serve "ip" [0; 1000; 2000; 3000; 4000] emptyDb).2).1 = false.
Proof.
  destruct (limiter_is_sliding_window "ip" [0; 1000; 2000; 3000; 4000] 5000 emptyDb)
    as [H _].
  - reflexivity.
  - repeat constructor; lia.
  - rewrite H. vm_compute. reflexivity.
Defined.

(** ** [retryAfter] *)

Lemma foldl_min_le (l : list Z) : ∀ x y, y ∈ x :: l → foldl Z.min x l ≤ y.
Proof.
  induction l as [|z l IH]; intros x y Hy; cbn.
  - apply list_elem_of_singleton in Hy. lia.
  - apply elem_of_cons in Hy as [->|Hy].
    + pose proof (IH (Z.min x z) (Z.min x z) ltac:(left)). lia.
    + apply elem_of_cons in Hy as [->|Hy].
      * pose proof (IH (Z.min x z) (Z.min x z) ltac:(left)). lia.
      * apply IH. by right.
Qed.

Lemma filter_full {A} (P : A → Prop) `{∀ x, Decision (P x)} (l : list A) :
  (length l ≤ length (filter P l))%nat → filter P l = l.
Proof.
  induction l as [|x l IH]; [reflexivity|].
  rewrite filter_cons. destruct (decide (P x)); cbn; intros Hlen.
  - f_equal. apply IH. lia.
  - pose proof (length_filter P l). lia.
Qed.

(** X8.  A refusal writes nothing and announces a positive [retryAfter]
    that is exact to the second: with at most five timestamps on record,
    every request of that fingerprint at or after [now + retryAfter]
    seconds is allowed, and every request up to [retryAfter - 1] seconds
    after [now] is still refused (as long as the record is the same). *)
Theorem retry_after_is_exact (now : Z) (fingerprint : string) (d : Db) :
  (length (recorded fingerprint d) ≤ 5)%nat →
  allowed (checkInitRateLimit now fingerprint d).1 = false →
  ∃ secs,
    retryAfter (checkInitRateLimit now fingerprint d).1 = Some secs
    ∧ 0 < secs
    ∧ (checkInitRateLimit now fingerprint d).2 = d
    ∧ (∀ later, now + 1000 * secs ≤ later →
         allowed (checkInitRateLimit later fingerprint d).1 = true)
    ∧ (∀ t, t ≤ now + 1000 * (secs - 1) →
         allowed (checkInitRateLimit t fingerprint d).1 = false).
Proof.
  intros Hcap Hden.
  destruct (checkInitRateLimit_recorded now fingerprint d) as (Hal & _ & Hsame).
  rewrite Hden in Hal. symmetry in Hal. apply bool_decide_eq_false in Hal.
  unfold MAX_INIT_PER_HOUR in Hal.
  assert (Hfull : filter (λ ts, now - ts < windowMs) (recorded fingerprint d)
                  = recorded fingerprint d).
  { apply filter_full. lia. }
  assert (Hlen : length (recorded fingerprint d) = 5%nat).
  { pose proof (length_filter (λ ts, now - ts < windowMs) (recorded fingerprint d)).
    lia. }
  destruct (agentSignupRateLimits d !! fingerprint) as [existing|] eqn:Hrec;
    [|by rewrite (recorded_None _ _ Hrec) in Hlen].
  rewrite (recorded_Some _ _ _ Hrec) in *.
  assert (Hall : Forall (λ ts, now - ts < windowMs) (rl_timestamps existing)).
  { rewrite <- Hfull. apply Forall_forall. intros x Hx.
    by apply list_elem_of_filter in Hx as [? _]. }
  destruct (rl_timestamps existing) as [|x l] eqn:Hl; [discriminate Hlen|].
  set (oldest := Math_min (x :: l)).
  assert (Hin : oldest ∈ x :: l) by apply foldl_min_elem.
  assert (Hmin : ∀ ts, ts ∈ x :: l → oldest ≤ ts) by (intros; by apply foldl_min_le).
  assert (Hold : now - oldest < windowMs).
  { rewrite Forall_forall in Hall. by apply Hall. }
  pose proof (ceil_div_spec (oldest + windowMs - now)) as Hceil.
  exists (ceil_div (oldest + windowMs - now) 1000).
  rewrite (checkInitRateLimit_denied _ _ _ _ Hrec) by (rewrite Hl; first [exact Hall | lia]).
  rewrite Hl. fold oldest. cbn [fst snd retryAfter].
  split; [reflexivity|]. split; [apply ceil_div_pos; lia|]. split; [reflexivity|].
  split.
  - intros later Hlater.
    destruct (checkInitRateLimit_recorded later fingerprint d) as (-> & _ & _).
    rewrite (recorded_Some _ _ _ Hrec), Hl.
    apply bool_decide_eq_true. unfold MAX_INIT_PER_HOUR. rewrite <- Hlen.
    apply (length_filter_lt _ _ oldest); [exact Hin|lia].
  - intros t Ht.
    destruct (checkInitRateLimit_recorded t fingerprint d) as (-> & _ & _).
    rewrite (recorded_Some _ _ _ Hrec), Hl.
    apply bool_decide_eq_false. unfold MAX_INIT_PER_HOUR.
    rewrite filter_all; [lia|].
    apply Forall_forall. intros ts Hts. specialize (Hmin ts Hts). lia.
Qed.

(** After five requests in five seconds, the sixth is told to wait 3595 s:
    3594 s later it is still refused, 3595 s later it passes. *)
Lemma retry_after_is_exact_witness :
  let d5 := (serve "ip" [0; 1000; 2000; 3000; 4000] emptyDb).2 in
  retryAfter (checkInitRateLimit 5000 "ip" d5).1 = Some 3595
  ∧ allowed (checkInitRateLimit 3599000 "ip" d5).1 = false
  ∧ allowed (checkInitRateLimit 3600000 "ip" d5).1 = true.
Proof.
  intros d5.
  destruct (retry_after_is_exact 5000 "ip" d5) as (secs & Hs & _ & _ & Hlater & Hearly).
  - vm_compute. lia.
  - reflexivity.
  - assert (secs = 3595) as -> by (vm_compute in Hs; congruence).
    split; [exact Hs|]. split; [apply Hearly | apply Hlater]; vm_compute; congruence.
Defined.

(** ** [cleanupOldRateLimits] *)

Lemma cleanup_loop_lookup now (entries : list (string * RateLimit)) :
  ∀ (m : gmap string RateLimit) (c : Z) (fingerprint : string),
    (foldl (cleanupOne now) (m, c) entries).1 !! fingerprint
    = if bool_decide (Exists (λ e, e.1 = fingerprint ∧ stale now e.2) entries)
      then None else m !! fingerprint.
Proof.
  induction entries as [|e entries IH]; intros m c fingerprint; cbn [foldl].
  - rewrite bool_decide_eq_false_2; [reflexivity|]. by intros H%Exists_nil.
  - unfold cleanupOne at 2. fold (stale now e.2).
    case_bool_decide as Hstale; rewrite IH; cbn [fst snd].
    + destruct (decide (e.1 = fingerprint)) as [Heq|Hne].
      * rewrite (bool_decide_eq_true_2 (Exists _ (e :: entries)))
          by (left; by split).
        rewrite Heq, lookup_delete_eq. by case_bool_decide.
      * rewrite lookup_delete_ne by exact Hne.
        apply (f_equal (λ b : bool, if b then None else m !! fingerprint)).
        apply bool_decide_ext. rewrite Exists_cons. tauto.
    + apply (f_equal (λ b : bool, if b then None else m !! fingerprint)).
      apply bool_decide_ext. rewrite Exists_cons. tauto.
Qed.

Lemma cleanup_loop_count now (entries : list (string * RateLimit)) :
  ∀ (m : gmap string RateLimit) (c : Z),
    (foldl (cleanupOne now) (m, c) entries).2
    = c + Z.of_nat (length (filter (λ e, stale now e.2) entries)).
Proof.
  induction entries as [|e entries IH]; intros m c; cbn [foldl].
  - cbn. lia.
  - unfold cleanupOne at 2. fold (stale now e.2). rewrite filter_cons.
    case_bool_decide as Hstale; rewrite IH; cbn [fst snd].
    + rewrite decide_True by exact Hstale. cbn [length]. lia.
    + by rewrite decide_False by exact Hstale.
Qed.

Lemma cleanup_lookup now fingerprint d :
  agentSignupRateLimits (cleanupOldRateLimits now d).1 !! fingerprint
  = match agentSignupRateLimits d !! fingerprint with
    | Some record => if bool_decide (stale now record) then None else Some record
    | None => None
    end.
Proof.
  unfold cleanupOldRateLimits. cbn [fst]. cbn. rewrite cleanup_loop_lookup.
  destruct (agentSignupRateLimits d !! fingerprint) as [record|] eqn:Hrec.
  - apply (f_equal (λ b : bool, if b then None else Some record)).
    apply bool_decide_ext. rewrite Exists_exists. split.
    + intros ([k r] & Hin & Hk & Hst). cbn in Hk, Hst. subst k.
      apply elem_of_map_to_list in Hin. congruence.
    + intros Hst. exists (fingerprint, record). split; [|by split].
      by apply elem_of_map_to_list.
  - case_bool_decide as Hex; [|reflexivity].
    apply Exists_exists in Hex as ([k r] & Hin & Hk & _). cbn in Hk. subst k.
    apply elem_of_map_to_list in Hin. congruence.
Qed.

Lemma cleanup_loop_none now (entries : list (string * RateLimit)) :
  ∀ (m : gmap string RateLimit) (c : Z),
    Forall (λ e, ¬ stale now e.2) entries →
    foldl (cleanupOne now) (m, c) entries = (m, c).
Proof.
  induction entries as [|e entries IH]; intros m c Hall; cbn [foldl]; [reflexivity|].
  apply Forall_cons in Hall as [He Hall].
  unfold cleanupOne at 2. fold (stale now e.2).
  rewrite bool_decide_eq_false_2 by exact He. by apply IH.
Qed.

(** The verdict for a fingerprint and its new record depend on the
    database through the record of that fingerprint only. *)
Lemma checkInitRateLimit_local now fingerprint d1 d2 :
  agentSignupRateLimits d1 !! fingerprint = agentSignupRateLimits d2 !! fingerprint →
  (checkInitRateLimit now fingerprint d1).1 = (checkInitRateLimit now fingerprint d2).1
  ∧ agentSignupRateLimits (checkInitRateLimit now fingerprint d1).2 !! fingerprint
    = agentSignupRateLimits (checkInitRateLimit now fingerprint d2).2 !! fingerprint.
Proof.
  intros Heq. unfold checkInitRateLimit. rewrite Heq.
  destruct (agentSignupRateLimits d2 !! fingerprint) as [existing|] eqn:Hrec.
  - case_bool_decide; cbn [fst snd]; [by rewrite Hrec|].
    by rewrite !rateLimits_insert.
  - cbn [fst snd]. by rewrite !rateLimits_insert.
Qed.

(** With a clock that does not go backwards, no timestamp of a record is
    later than its [lastUpdated]. *)
Lemma checkInitRateLimit_keeps_order now fingerprint d :
  (∀ record, agentSignupRateLimits d !! fingerprint = Some record →
     rl_lastUpdated record ≤ now
     ∧ Forall (λ ts, ts ≤ rl_lastUpdated record) (rl_timestamps record)) →
  ∀ record,
    agentSignupRateLimits (checkInitRateLimit now fingerprint d).2 !! fingerprint
      = Some record →
    Forall (λ ts, ts ≤ rl_lastUpdated record) (rl_timestamps record).
Proof.
  intros Hord record. unfold checkInitRateLimit.
  destruct (agentSignupRateLimits d !! fingerprint) as [existing|] eqn:Hrec.
  - destruct (Hord existing eq_refl) as [Hlast Hall].
    case_bool_decide; cbn [snd].
    + rewrite Hrec. by intros [= <-].
    + rewrite rateLimits_insert. intros [= <-]. cbn.
      apply Forall_app. split; [|repeat constructor; lia].
      apply Forall_forall. intros ts Hts.
      apply list_elem_of_filter in Hts as [_ Hts].
      rewrite Forall_forall in Hall. specialize (Hall ts Hts). lia.
  - cbn [snd]. rewrite rateLimits_insert. intros [= <-]. cbn.
    repeat constructor. lia.
Qed.

(** X9.  [cleanupOldRateLimits] deletes exactly the records whose
    [lastUpdated] is more than 24 hours before [now], leaves every other
    record as it is, returns the number of records it deleted, and finds
    nothing to delete when run again at the same time.  The limiter does
    not notice it: for a record whose timestamps are not later than its
    [lastUpdated], any request at [now] or later gets the same verdict,
    and leaves the same record for its fingerprint, with and without the
    clean-up. *)
Theorem cleanup_is_invisible_to_the_limiter (now : Z) (d : Db) :
  let r := cleanupOldRateLimits now d in
  (∀ fingerprint,
     agentSignupRateLimits r.1 !! fingerprint
     = match agentSignupRateLimits d !! fingerprint with
       | Some record =>
           if bool_decide (stale now record) then None else Some record
       | None => None
       end)
  ∧ r.2 = Z.of_nat (length (filter (λ e, stale now e.2)
                              (map_to_list (agentSignupRateLimits d))))
  ∧ cleanupOldRateLimits now r.1 = (r.1, 0)
  ∧ (∀ fingerprint later,
       now ≤ later →
       (∀ record, agentSignupRateLimits d !! fingerprint = Some record →
          Forall (λ ts, ts ≤ rl_lastUpdated record) (rl_timestamps record)) →
       (checkInitRateLimit later fingerprint r.1).1
         = (checkInitRateLimit later fingerprint d).1
       ∧ agentSignupRateLimits (checkInitRateLimit later fingerprint r.1).2
           !! fingerprint
         = agentSignupRateLimits (checkInitRateLimit later fingerprint d).2
           !! fingerprint).
Proof.
  intros r. split; [intros; apply cleanup_lookup|].
  split; [apply (cleanup_loop_count now _ _ 0)|]. split.
  - unfold cleanupOldRateLimits at 1. rewrite cleanup_loop_none.
    + cbn [fst snd]. by destruct r.1.
    + apply Forall_forall. intros [k record] Hin. cbn.
      apply elem_of_map_to_list in Hin. subst r.
      rewrite cleanup_lookup in Hin.
      destruct (agentSignupRateLimits d !! k) as [record'|]; [|discriminate].
      case_bool_decide; [discriminate|]. congruence.
  - intros fingerprint later Hlater Hord.
    pose proof (cleanup_lookup now fingerprint d) as Hl. fold r in Hl.
    destruct (agentSignupRateLimits d !! fingerprint) as [record|] eqn:Hrec.
    + case_bool_decide as Hstale.
      * rewrite (checkInitRateLimit_first _ _ _ Hl).
        rewrite (checkInitRateLimit_elapsed _ _ _ _ Hrec).
        { cbn [fst snd]. by rewrite !rateLimits_insert. }
        eapply Forall_impl; [exact (Hord record eq_refl)|].
        intros ts Hts. cbn in Hts.
        unfold stale, rateLimitMaxAge in Hstale. unfold windowMs. lia.
      * apply checkInitRateLimit_local. by rewrite Hl, Hrec.
    + apply checkInitRateLimit_local. by rewrite Hl, Hrec.
Qed.

(** A record last touched at time 0 is gone after a clean-up 25 hours
    later, and a request after that is admitted as it would have been. *)
Lemma cleanup_is_invisible_to_the_limiter_witness :
  let d1 := (serve "ip" [0] emptyDb).2 in
  let r := cleanupOldRateLimits 90000000 d1 in
  r.2 = 1
  ∧ agentSignupRateLimits r.1 !! "ip" = None
  ∧ (checkInitRateLimit 90000001 "ip" r.1).1
    = (checkInitRateLimit 90000001 "ip" d1).1.
Proof.
  intros d1 r.
  destruct (cleanup_is_invisible_to_the_limiter 90000000 d1)
    as (Hlook & Hcount & _ & Hsame).
  split; [vm_compute; reflexivity|].
  split; [vm_compute; reflexivity|].
  apply (Hsame "ip" 90000001); [lia|].
  intros record Hrec. vm_compute in Hrec. injection Hrec as <-.
  repeat constructor. cbn. lia.
Defined.

(** ** The scheduler's queue *)

Lemma only_posts_changed_refl d : only_posts_changed d d.
Proof. unfold only_posts_changed. by destruct d. Qed.

Lemma only_posts_changed_set f d : only_posts_changed d (set_posts f d).
Proof. unfold only_posts_changed. by destruct d. Qed.

Create HintDb frame.
#[local] Hint Resolve only_posts_changed_refl only_posts_changed_set : frame.

Lemma createInternal_frame now args d :
  only_posts_changed d (createInternal now args d).2.
Proof. unfold createInternal. cbn [snd]. auto with frame. Qed.

Lemma approve_frame now caller args d d' :
  approve now caller args d = Ok d' → only_posts_changed d d'.
Proof.
  intros H. destruct caller as [userId|]; [|discriminate].
  destruct (posts d !! ap_postId args) as [target|] eqn:Ht;
    [|unfold approve in H; cbn in H; rewrite Ht in H; discriminate].
  rewrite (approve_unfold_args _ _ _ _ _ Ht) in H.
  repeat (case_match; simplify_eq/=); auto with frame.
Qed.

Lemma decline_frame now caller postId reason d d' :
  decline now caller postId reason d = Ok d' → only_posts_changed d d'.
Proof.
  intros H. destruct caller as [userId|]; [|discriminate].
  destruct (posts d !! postId) as [target|] eqn:Ht;
    [|unfold decline in H; cbn in H; rewrite Ht in H; discriminate].
  rewrite (decline_unfold _ _ _ _ _ _ Ht) in H.
  repeat (case_match; simplify_eq/=); auto with frame.
Qed.

Lemma deletePost_frame now caller postId d d' :
  deletePost now caller postId d = Ok d' → only_posts_changed d d'.
Proof.
  intros H. destruct caller as [userId|]; [|discriminate].
  destruct (posts d !! postId) as [target|] eqn:Ht;
    [|unfold deletePost in H; cbn in H; rewrite Ht in H; discriminate].
  rewrite (deletePost_unfold _ _ _ _ _ Ht) in H.
  repeat (case_match; simplify_eq/=); auto with frame.
Qed.

Lemma updatePost_frame now caller args d d' :
  updatePost now caller args d = Ok d' → only_posts_changed d d'.
Proof.
  intros H. destruct caller as [userId|]; [|discriminate].
  destruct (posts d !! upd_postId args) as [target|] eqn:Ht;
    [|by apply updatePost_missing in H].
  rewrite (updatePost_unfold _ _ _ _ _ Ht) in H.
  repeat (case_match; simplify_eq/=); auto with frame.
Qed.

Lemma approveViaEmail_frame now postId d :
  only_posts_changed d (approveViaEmail now postId d).2.
Proof.
  unfold approveViaEmail. repeat (case_match; simplify_eq/=); auto with frame.
Qed.

Lemma declineViaEmail_frame now postId d :
  only_posts_changed d (declineViaEmail now postId d).2.
Proof.
  unfold declineViaEmail. repeat (case_match; simplify_eq/=); auto with frame.
Qed.

Lemma autoPublish_frame now postId d :
  only_posts_changed d (autoPublish now postId d).
Proof.
  unfold autoPublish. repeat (case_match; simplify_eq/=); auto with frame.
Qed.

Lemma performClaimMigration_scheduled now agentUserId humanUserId apiKeyId d d' :
  performClaimMigration now agentUserId humanUserId apiKeyId d = Some d' →
  scheduled d' = scheduled d.
Proof.
  unfold performClaimMigration, linkAgentToHuman.
  destruct (apiKeys d !! apiKeyId ≫= k_agentId) as [agentId|].
  - destruct (agents d !! agentId); cbn; [|discriminate]. by intros [= <-].
  - destruct (apiKeys d !! apiKeyId); cbn; [|discriminate].
    destruct (users d !! agentUserId); cbn; [|discriminate]. by intros [= <-].
Qed.

Lemma claimAgentPublic_scheduled hmac secret decodeId now caller token d r d' :
  claimAgentPublic hmac secret decodeId now caller token d = Some (r, d') →
  scheduled d' = scheduled d.
Proof.
  intros [->|(a & h & k & Hm)]%claimAgentPublic_cases; [reflexivity|].
  by apply performClaimMigration_scheduled in Hm.
Qed.

Lemma claimAgent_scheduled now requestId humanUserId d d' :
  claimAgent now requestId humanUserId d = Some (inr d') →
  scheduled d' = scheduled d.
Proof.
  unfold claimAgent. intros H.
  repeat (case_match; simplify_eq/=; auto).
  match goal with
  | H : performClaimMigration _ ?a ?h ?k _ ≫= _ = _ |- _ =>
      destruct (performClaimMigration now a h k d) as [d1|] eqn:Hm;
        cbn in H; [|discriminate]
  end.
  simplify_eq. by apply performClaimMigration_scheduled in Hm.
Qed.

Lemma scheduled_http_notify auth postId d :
  ∃ new, scheduled (http_notify auth postId d) = scheduled d ++ new
    ∧ ∀ j, j ∈ new → jobPost j = postId
           ∧ ∀ p u, j ≠ sendAutoPublishedNotification p u.
Proof.
  unfold http_notify.
  repeat case_match;
    first [ exists []; split; [by rewrite app_nil_r|]; by intros j ?%elem_of_nil
          | eexists [_]; split; [reflexivity|];
            intros j ->%list_elem_of_singleton; by split ].
Qed.

(** What one transition does to the queue: it appends jobs, each of them
    justified in the new state. *)
Lemma transition_scheduled d d' :
  Transition d d' →
  ∃ new, scheduled d' = scheduled d ++ new ∧ ∀ j, j ∈ new → job_justified d' j.
Proof.
  assert (Hsame : ∀ d d' : Db, scheduled d' = scheduled d →
    ∃ new, scheduled d' = scheduled d ++ new ∧ ∀ j, j ∈ new → job_justified d' j).
  { intros ?? ->. exists []. split; [by rewrite app_nil_r|].
    by intros j ?%elem_of_nil. }
  assert (Hframe : ∀ d d' : Db, only_posts_changed d d' →
    scheduled d' = scheduled d).
  { intros ?? ->. reflexivity. }
  intros Ht. destruct Ht.
  - apply Hsame, Hframe, createInternal_frame.
  - pose proof (storedPost_postsRoute nowDb nowHttp auth body d) as Hst.
    unfold storedPost in Hst. revert Hst. unfold postsRoute.
    destruct (createInternal nowDb (http_createArgs auth body) d) as [i d1] eqn:Hc.
    assert (Hs1 : scheduled d1 = scheduled d).
    { change d1 with (i, d1).2. rewrite <- Hc.
      apply Hframe, createInternal_frame. }
    destruct (scheduled_http_notify auth i d1) as (new & Hnew & Hj).
    destruct (http_shouldAutoPublish auth); cbn [fst snd resp_id]; intros Hst;
      (exists new; split; [by rewrite Hnew, Hs1|]);
      intros j Hin; destruct (Hj j Hin) as [Hid Hns];
      (eexists; split; [rewrite Hid; exact Hst|]);
      destruct j; try done; by destruct (Hns postId userId).
  - apply Hsame, Hframe. eapply approve_frame, H.
  - apply Hsame, Hframe. eapply decline_frame, H.
  - apply Hsame, Hframe. eapply deletePost_frame, H.
  - apply Hsame, Hframe. eapply updatePost_frame, H.
  - apply Hsame, Hframe, approveViaEmail_frame.
  - apply Hsame, Hframe, declineViaEmail_frame.
  - apply Hsame, Hframe, autoPublish_frame.
  - destruct (processAutoPublish_loop now d) as (H1 & _ & H3 & _).
    eexists. split; [exact H3|].
    intros j ([id post] & -> & Hin)%list_elem_of_fmap.
    exists (autoPublish_patch now post). split; [apply (H1 _ Hin)|].
    by split.
  - apply Hsame. by apply update_only_agents in H as [f ->].
  - apply Hsame. unfold checkInitRateLimit.
    repeat (case_match; simplify_eq/=); reflexivity.
  - by apply Hsame.
  - apply Hsame. eapply claimAgentPublic_scheduled, H.
  - apply Hsame. eapply claimAgent_scheduled, H.
  - apply Hsame. eapply createAgentUserAndKey_posts, H.
  - apply Hsame. eapply revoke_posts, H.
Qed.

Lemma job_justified_step d d' j :
  Transition d d' → job_justified d j → job_justified d' j.
Proof.
  intros Ht (post & Hp & Hj).
  destruct (transition_post_change _ _ _ _ Ht Hp) as (post' & Hp' & Hc).
  exists post'. split; [exact Hp'|].
  destruct j; try done. destruct Hj as [Hs Hv].
  destruct (PostChange_final _ _ Hc) as (E1 & _ & _ & _ & _ & E6);
    [by rewrite Hs|].
  by rewrite E1, E6.
Qed.

(** X10.  The scheduler's queue only grows, and every queued e-mail job
    is about a stored post: in any state reached from the empty database,
    the post named by a job exists, and the post of an "auto-published"
    notice of the sweep is auto-published and not human-verified, for
    good. *)
Theorem queued_jobs_name_stored_posts (d d' : Db) :
  rtc Transition emptyDb d →
  rtc Transition d d' →
  scheduled d `prefix_of` scheduled d'
  ∧ ∀ j, j ∈ scheduled d' → job_justified d' j.
Proof.
  intros Hd Hd'. split.
  - clear Hd. induction Hd' as [d|d d1 d' Hstep _ IH]; [done|].
    destruct (transition_scheduled _ _ Hstep) as (new & Hnew & _).
    etrans; [|exact IH]. rewrite Hnew. by apply prefix_app_r.
  - assert (Hall : rtc Transition emptyDb d') by (etrans; eassumption).
    clear Hd Hd' d. revert d' Hall.
    apply (rtc_ind_r (λ d', ∀ j, j ∈ scheduled d' → job_justified d' j)).
    + by intros j ?%elem_of_nil.
    + intros d1 d' _ Hstep IH j Hin.
      destruct (transition_scheduled _ _ Hstep) as (new & Hnew & Hj).
      rewrite Hnew in Hin. apply elem_of_app in Hin as [Hin|Hin].
      * by apply (job_justified_step d1), IH.
      * by apply Hj.
Qed.

(** A post under review that the sweep publishes: the review request and
    the sweep's notice are both about the stored post 0. *)
Lemma queued_jobs_name_stored_posts_witness :
  scheduled postedDb `prefix_of` scheduled sweptDb
  ∧ length (scheduled sweptDb) = 2%nat
  ∧ ∀ j, j ∈ scheduled sweptDb → job_justified sweptDb j.
Proof.
  destruct (queued_jobs_name_stored_posts postedDb sweptDb) as [Hpre Hall].
  - apply rtc_once, t_postsRoute.
  - apply rtc_once, t_processAutoPublish.
  - split; [exact Hpre|]. split; [vm_compute; reflexivity | exact Hall].
Defined.

(** ** Who hears of a new post *)

Lemma scheduled_postsRoute nowDb nowHttp auth body d :
  scheduled (postsRoute nowDb nowHttp auth body d).2
  = scheduled (http_notify auth (resp_id (postsRoute nowDb nowHttp auth body d).1) d).
Proof.
  unfold postsRoute, createInternal, http_notify.
  destruct (http_shouldAutoPublish auth); cbn [fst snd resp_id];
    repeat case_match; reflexivity.
Qed.

(** X11.  What [POST /api/v1/posts] schedules follows the status it
    answers, not the status it stores.  Answering [needs_review], it
    stores [needs_review] and queues one review request, for the linked
    human or else the key's user.  Answering [auto_published] while the
    stored post is [needs_review], it queues nothing: nobody is told of
    the post that awaits review.  Otherwise it queues at most one
    "immediately published" notice. *)
Theorem unreported_review_posts_notify_nobody
    (nowDb nowHttp : Z) (auth : AuthInfo) (body : PostBody) (d : Db) :
  let r := postsRoute nowDb nowHttp auth body d in
  let stored := p_status <$> storedPost r in
  (resp_status r.1 = needs_review →
     stored = Some needs_review
     ∧ scheduled r.2
       = scheduled d
           ++ [sendNewPostNotification (resp_id r.1)
                 (default (auth_userId auth) (auth_linkedUserId auth))])
  ∧ (resp_status r.1 = auto_published → stored = Some needs_review →
     scheduled r.2 = scheduled d)
  ∧ (resp_status r.1 = auto_published → stored = Some auto_published →
     scheduled r.2 = scheduled d
     ∨ ∃ userId,
         scheduled r.2
         = scheduled d ++ [sendImmediateAutoPostNotification (resp_id r.1) userId]).
Proof.
  intros r stored. subst r stored.
  rewrite stored_status_characterisation, resp_status_postsRoute,
    scheduled_postsRoute.
  generalize (resp_id (postsRoute nowDb nowHttp auth body d).1). intros postId.
  destruct auth as [ag [l|] [[]|] u k []]; cbn;
    (split; [|split]); intros; try done; eauto.
Qed.

(** A self-registered agent, not linked and with no level set: the answer
    is [auto_published], the stored post is in review, and the queue stays
    empty. *)
Lemma unreported_review_posts_notify_nobody_witness :
  let r := postsRoute 100 101 (unlinkedAuth 1 0 2) sampleBody emptyDb in
  resp_status r.1 = auto_published
  ∧ p_status <$> storedPost r = Some needs_review
  ∧ scheduled r.2 = [].
Proof.
  intros r.
  destruct (unreported_review_posts_notify_nobody 100 101 (unlinkedAuth 1 0 2)
              sampleBody emptyDb) as (_ & Hsilent & _).
  split; [reflexivity|]. split; [reflexivity|].
  apply Hsilent; reflexivity.
Defined.

(** ** API keys *)

#[global] Instance key_le_total : Total key_le.
Proof. intros x y. unfold key_le. lia. Qed.

#[global] Instance key_le_trans : Transitive key_le.
Proof. intros x y z. unfold key_le. lia. Qed.

(** The by-hash lookup returns the stored key with that hash that has the
    least id, and nothing exactly when no stored key has the hash. *)
Lemma keyByHash_Some keyHash d keyId key :
  keyByHash keyHash d = Some (keyId, key) →
  apiKeys d !! keyId = Some key ∧ k_keyHash key = keyHash
  ∧ ∀ keyId' key', apiKeys d !! keyId' = Some key' → k_keyHash key' = keyHash →
      (keyId ≤ keyId')%nat.
Proof.
  unfold keyByHash.
  set (l := filter _ _). intros Hhead.
  assert (Hsorted : StronglySorted key_le (merge_sort key_le l))
    by (apply StronglySorted_merge_sort; apply _).
  destruct (merge_sort key_le l) as [|x sorted] eqn:Hs; [discriminate|].
  injection Hhead as ->.
  assert (Hin : ∀ y, y ∈ (keyId, key) :: sorted ↔ y ∈ l).
  { intros y. by rewrite <- Hs, merge_sort_Permutation. }
  assert (Hx : (keyId, key) ∈ l) by (apply Hin; left).
  apply list_elem_of_filter in Hx as [Hhash Hx]. cbn in Hhash.
  apply elem_of_map_to_list in Hx. split; [exact Hx|]. split; [exact Hhash|].
  intros keyId' key' Hk' Hh'.
  assert (Hy : (keyId', key') ∈ (keyId, key) :: sorted).
  { apply Hin, list_elem_of_filter. split; [exact Hh'|].
    by apply elem_of_map_to_list. }
  apply elem_of_cons in Hy as [[= -> ->]|Hy]; [lia|].
  apply StronglySorted_inv in Hsorted as [_ Hall].
  rewrite Forall_forall in Hall. exact (Hall _ Hy).
Qed.

Lemma keyByHash_None keyHash d :
  keyByHash keyHash d = None ↔
  ∀ keyId key, apiKeys d !! keyId = Some key → k_keyHash key ≠ keyHash.
Proof.
  unfold keyByHash. set (l := filter _ _).
  assert (Hin : ∀ y, y ∈ merge_sort key_le l ↔ y ∈ l)
    by (intros y; by rewrite merge_sort_Permutation).
  split.
  - intros Hhead keyId key Hk Hh.
    destruct (merge_sort key_le l) as [|x sorted]; [|discriminate].
    apply (elem_of_nil (keyId, key)), Hin, list_elem_of_filter.
    split; [exact Hh|]. by apply elem_of_map_to_list.
  - intros Hnone. destruct (merge_sort key_le l) as [|[keyId key] sorted]; [done|].
    exfalso. assert (Hx : (keyId, key) ∈ l) by (apply Hin; left).
    apply list_elem_of_filter in Hx as [Hhash Hx].
    apply elem_of_map_to_list in Hx. by apply (Hnone keyId key).
Qed.

Lemma keyByHash_answersFor keyHash d keyId key :
  apiKeys d !! keyId = Some key → answersFor d keyHash keyId →
  keyByHash keyHash d = Some (keyId, key).
Proof.
  intros Hk [(key0 & Hk0 & Hh) Hleast].
  assert (key0 = key) as -> by congruence.
  destruct (keyByHash keyHash d) as [[keyId' key']|] eqn:Hby.
  - apply keyByHash_Some in Hby as (Hk' & Hh' & Hleast').
    assert (keyId' = keyId) as ->.
    { pose proof (Hleast _ _ Hk' Hh'). pose proof (Hleast' _ _ Hk Hh). lia. }
    congruence.
  - exfalso. rewrite keyByHash_None in Hby. by apply (Hby keyId key).
Qed.

Lemma prefix_app (p s : string) : String.prefix p (p +:+ s) = true.
Proof.
  induction p as [|c p IH]; [by destruct s|].
  change (String c p +:+ s) with (String c (p +:+ s)).
  cbn. rewrite IH. by destruct (Ascii.ascii_dec c c).
Qed.

Lemma substring_all (s : string) : String.substring 0 (String.length s) s = s.
Proof. induction s as [|c s IH]; [reflexivity|]. cbn. by rewrite IH. Qed.

Lemma sliceFrom_app (p s : string) : sliceFrom (String.length p) (p +:+ s) = s.
Proof.
  unfold sliceFrom. induction p as [|c p IH].
  - change ("" +:+ s) with s. cbn [String.length].
    rewrite Nat.sub_0_r. apply substring_all.
  - change (String c p +:+ s) with (String c (p +:+ s)). cbn. exact IH.
Qed.

Lemma revoke_unfold userId keyId key d :
  apiKeys d !! keyId = Some key →
  revoke (Some userId) keyId d
  = if bool_decide (k_userId key = userId) then
      if k_isRevoked key then Ok d
      else Ok (set_apiKeys
                 (insert keyId
                    (mkApiKey (k_userId key) (k_agentId key) (k_keyHash key) true
                              (k_allowAutoPost key))) d)
    else Err FORBIDDEN.
Proof.
  intros Hk. unfold revoke. cbn. rewrite Hk. cbn.
  by case_bool_decide.
Qed.

(** X12.  [revoke] is for the key's owner: a missing key gives NOT_FOUND,
    another user's key FORBIDDEN.  For the owner it succeeds and is
    idempotent; afterwards the key is stored as revoked with the same
    owner, agent and hash, every other key and table is as before, and
    when the key is the one that answers for its hash, [validateKey] on
    that hash returns nothing and a request that bears the key is turned
    away with 401. *)
Theorem revoke_locks_the_key_out (userId keyId : Id) (d : Db) :
  (apiKeys d !! keyId = None → revoke (Some userId) keyId d = Err NOT_FOUND)
  ∧ ∀ key, apiKeys d !! keyId = Some key →
      (k_userId key ≠ userId → revoke (Some userId) keyId d = Err FORBIDDEN)
      ∧ (k_userId key = userId →
         ∃ d' key',
           revoke (Some userId) keyId d = Ok d'
           ∧ revoke (Some userId) keyId d' = Ok d'
           ∧ apiKeys d' !! keyId = Some key'
           ∧ k_isRevoked key' = true
           ∧ k_userId key' = userId
           ∧ k_agentId key' = k_agentId key
           ∧ k_keyHash key' = k_keyHash key
           ∧ (∀ other, other ≠ keyId → apiKeys d' !! other = apiKeys d !! other)
           ∧ d' = set_apiKeys (λ _, apiKeys d') d
           ∧ (answersFor d (k_keyHash key) keyId →
                validateKey (k_keyHash key) d' = None
                ∧ ∀ apiKey, hashKey apiKey = k_keyHash key →
                    authenticateApiKey (Some ("Bearer " +:+ apiKey)) d'
                    = inl (if String.prefix "molt_" apiKey
                           then InvalidOrRevokedKey else InvalidKeyFormat))).
Proof.
  split.
  - intros Hn. unfold revoke. cbn. by rewrite Hn.
  - intros key Hk. rewrite (revoke_unfold _ _ _ _ Hk). split.
    + intros Hne. by rewrite bool_decide_eq_false_2.
    + intros Hown. rewrite bool_decide_eq_true_2 by exact Hown.
      set (key' := mkApiKey (k_userId key) (k_agentId key) (k_keyHash key) true
                            (k_allowAutoPost key)).
      assert (Hd' : ∃ d', (if k_isRevoked key then Ok d
                           else Ok (set_apiKeys (insert keyId key') d)) = Ok d'
                ∧ apiKeys d' = <[keyId := key']> (apiKeys d)
                ∧ d' = set_apiKeys (λ _, apiKeys d') d).
      { destruct (k_isRevoked key) eqn:Hrev.
        - exists d. split; [reflexivity|]. split; [|by destruct d].
          symmetry. apply insert_id. rewrite Hk. f_equal.
          subst key'. destruct key. cbn in *. by subst.
        - eexists. split; [reflexivity|]. split; [reflexivity|]. by destruct d. }
      destruct Hd' as (d' & -> & Hkeys & Hframe).
      assert (Hk' : apiKeys d' !! keyId = Some key')
        by (rewrite Hkeys; apply lookup_insert_eq).
      exists d', key'. split; [reflexivity|].
      split.
      { rewrite (revoke_unfold _ _ _ _ Hk'). cbn.
        by rewrite bool_decide_eq_true_2. }
      split; [exact Hk'|]. repeat (split; [done|]).
      split; [intros other Hne; by rewrite Hkeys, lookup_insert_ne|].
      split; [exact Hframe|].
      intros Hans.
      assert (Hby : keyByHash (k_keyHash key) d' = Some (keyId, key')).
      { apply keyByHash_answersFor; [exact Hk'|].
        destruct Hans as [_ Hleast]. split; [by exists key'|].
        intros keyId' key2 Hk2 Hh2.
        destruct (decide (keyId' = keyId)) as [->|Hne]; [lia|].
        rewrite Hkeys, lookup_insert_ne in Hk2 by done.
        by apply (Hleast keyId' key2). }
      assert (Hval : validateKey (k_keyHash key) d' = None).
      { unfold validateKey. by rewrite Hby. }
      split; [exact Hval|].
      intros apiKey Hhash. unfold authenticateApiKey.
      assert (Hsl : sliceFrom 7 ("Bearer " +:+ apiKey) = apiKey)
        by apply (sliceFrom_app "Bearer ").
      rewrite prefix_app, Hsl. cbn [negb].
      destruct (String.prefix "molt_" apiKey); cbn [negb]; [|reflexivity].
      by rewrite Hhash, Hval.
Qed.

Lemma only_posts_changed_queue d d' :
  only_posts_changed d d' → only_posts_and_queue_changed d d'.
Proof. intros ->. unfold only_posts_and_queue_changed. by destruct d. Qed.

Lemma only_posts_and_queue_changed_trans d1 d2 d3 :
  only_posts_and_queue_changed d1 d2 → only_posts_and_queue_changed d2 d3 →
  only_posts_and_queue_changed d1 d3.
Proof.
  unfold only_posts_and_queue_changed. intros H12 H23.
  rewrite H23 at 1. rewrite H12. reflexivity.
Qed.

Lemma schedule_frame j d : only_posts_and_queue_changed d (schedule j d).
Proof. reflexivity. Qed.

Lemma http_notify_frame auth postId d :
  only_posts_and_queue_changed d (http_notify auth postId d).
Proof.
  unfold http_notify.
  repeat case_match; first [apply schedule_frame | by destruct d].
Qed.

Lemma postsRoute_frame nowDb nowHttp auth body d :
  only_posts_and_queue_changed d (postsRoute nowDb nowHttp auth body d).2.
Proof.
  unfold postsRoute.
  destruct (createInternal nowDb (http_createArgs auth body) d) as [i d1] eqn:Hc.
  assert (H1 : only_posts_and_queue_changed d d1).
  { change d1 with (i, d1).2. rewrite <- Hc.
    apply only_posts_changed_queue, createInternal_frame. }
  destruct (http_shouldAutoPublish auth); cbn [snd];
    (eapply only_posts_and_queue_changed_trans; [exact H1|apply http_notify_frame]).
Qed.

Lemma sweep_loop_frame now (l : list PendingPost) : ∀ d n,
  only_posts_and_queue_changed d (foldl (processOne now) (d, n) l).1.
Proof.
  induction l as [|p l IH]; intros d n; cbn [foldl].
  - by destruct d.
  - eapply only_posts_and_queue_changed_trans; [|apply IH].
    unfold processOne. cbn [fst].
    eapply only_posts_and_queue_changed_trans; [|apply schedule_frame].
    apply only_posts_changed_queue, autoPublish_frame.
Qed.

Lemma processAutoPublish_frame now d :
  only_posts_and_queue_changed d (processAutoPublish now d).1.
Proof. apply sweep_loop_frame. Qed.

(** What [performClaimMigration] does to the keys: nothing on the linking
    path, a new owner for the agent's key on the legacy path. *)
Lemma performClaimMigration_apiKeys now agentUserId humanUserId apiKeyId d d' :
  performClaimMigration now agentUserId humanUserId apiKeyId d = Some d' →
  apiKeys d' = apiKeys d
  ∨ ∃ apiKey, apiKeys d !! apiKeyId = Some apiKey
      ∧ apiKeys d'
        = <[apiKeyId := mkApiKey humanUserId (k_agentId apiKey) (k_keyHash apiKey)
                          (k_isRevoked apiKey) (k_allowAutoPost apiKey)]> (apiKeys d).
Proof.
  unfold performClaimMigration, linkAgentToHuman.
  destruct (apiKeys d !! apiKeyId ≫= k_agentId) as [agentId|].
  - destruct (agents d !! agentId); cbn; [|discriminate].
    intros [= <-]. by left.
  - destruct (apiKeys d !! apiKeyId) as [apiKey|]; cbn; [|discriminate].
    destruct (users d !! agentUserId); cbn; [|discriminate].
    intros [= <-]. right. by exists apiKey.
Qed.

(** What one transition can do to a stored key: the owner may change (by
    the legacy claim) and the key may get revoked; its hash, its agent and
    its legacy flag stay, it is never removed and never un-revoked. *)
Lemma transition_key d d' keyId key :
  Transition d d' → apiKeys d !! keyId = Some key →
  ∃ key', apiKeys d' !! keyId = Some key'
    ∧ k_keyHash key' = k_keyHash key
    ∧ k_agentId key' = k_agentId key
    ∧ k_allowAutoPost key' = k_allowAutoPost key
    ∧ (k_isRevoked key = true → k_isRevoked key' = true).
Proof.
  intros Ht Hk.
  assert (Hsame : ∀ d' : Db, apiKeys d' = apiKeys d →
    ∃ key', apiKeys d' !! keyId = Some key'
      ∧ k_keyHash key' = k_keyHash key
      ∧ k_agentId key' = k_agentId key
      ∧ k_allowAutoPost key' = k_allowAutoPost key
      ∧ (k_isRevoked key = true → k_isRevoked key' = true)).
  { intros ? ->. exists key. by repeat split. }
  assert (Hq : ∀ d' : Db, only_posts_and_queue_changed d d' →
    apiKeys d' = apiKeys d).
  { intros ? ->. reflexivity. }
  assert (Hp : ∀ d' : Db, only_posts_changed d d' → apiKeys d' = apiKeys d).
  { intros ? ->. reflexivity. }
  assert (Hmig : ∀ now a h k d', performClaimMigration now a h k d = Some d' →
    ∃ key', apiKeys d' !! keyId = Some key'
      ∧ k_keyHash key' = k_keyHash key
      ∧ k_agentId key' = k_agentId key
      ∧ k_allowAutoPost key' = k_allowAutoPost key
      ∧ (k_isRevoked key = true → k_isRevoked key' = true)).
  { intros now a h k d0 Hm.
    apply performClaimMigration_apiKeys in Hm as [Heq|(apiKey & Hk0 & Heq)];
      [by apply Hsame|].
    rewrite Heq. destruct (decide (k = keyId)) as [->|Hne].
    - rewrite lookup_insert_eq. eexists. split; [reflexivity|].
      assert (apiKey = key) as -> by congruence. by repeat split.
    - rewrite lookup_insert_ne by done. exists key. by repeat split. }
  destruct Ht.
  - apply Hsame, Hp, createInternal_frame.
  - apply Hsame, Hq, postsRoute_frame.
  - apply Hsame. eapply Hp, approve_frame, H.
  - apply Hsame. eapply Hp, decline_frame, H.
  - apply Hsame. eapply Hp, deletePost_frame, H.
  - apply Hsame. eapply Hp, updatePost_frame, H.
  - apply Hsame, Hp, approveViaEmail_frame.
  - apply Hsame, Hp, declineViaEmail_frame.
  - apply Hsame, Hp, autoPublish_frame.
  - apply Hsame, Hq, processAutoPublish_frame.
  - apply Hsame. by apply update_only_agents in H as [f ->].
  - apply Hsame. unfold checkInitRateLimit.
    repeat (case_match; simplify_eq/=); reflexivity.
  - by apply Hsame.
  - apply claimAgentPublic_cases in H as [->|(a & h & k & Hm)];
      [by apply Hsame | by apply (Hmig _ _ _ _ _ Hm)].
  - unfold claimAgent in H.
    repeat (case_match; simplify_eq/=; try by apply Hsame).
    match goal with
    | H : performClaimMigration _ ?a ?h ?k _ ≫= _ = _ |- _ =>
        destruct (performClaimMigration now a h k d) as [d1|] eqn:Hm;
          cbn in H; [|discriminate]
    end.
    simplify_eq. by apply (Hmig _ _ _ _ _ Hm).
  - unfold createAgentUserAndKey in H.
    repeat (case_match; simplify_eq/=).
    destruct (generateClaimToken _ _ _ _) as [linkToken|]; cbn in H; [|discriminate].
    match type of H with
    | context [?m !! requestId] => destruct (m !! requestId); cbn in H; [|discriminate]
    end.
    simplify_eq. cbn. exists key. split; [|by repeat split].
    rewrite lookup_insert_ne; [exact Hk|].
    intros <-. apply (is_fresh (dom (apiKeys d))).
    apply elem_of_dom. by exists key.
  - destruct caller as [userId|]; [|discriminate].
    destruct (apiKeys d !! keyId0) as [key0|] eqn:Hk0;
      [|unfold revoke in H; cbn in H; rewrite Hk0 in H; discriminate].
    rewrite (revoke_unfold _ _ _ _ Hk0) in H.
    repeat (case_match; simplify_eq/=); try by apply Hsame.
    destruct (decide (keyId0 = keyId)) as [->|Hne].
    + rewrite lookup_insert_eq. eexists. split; [reflexivity|].
      assert (key0 = key) as -> by congruence. by repeat split.
    + rewrite lookup_insert_ne by done. exists key. by repeat split.
Qed.

(** X13.  Revocation is permanent: no sequence of these mutations removes
    a key, changes its hash or its legacy flag, takes from it the agent it
    has, or clears [isRevoked].  So a revoked key that is the one answering
    for its hash in a later state makes [validateKey] return nothing
    there.  (A key that has no agent may be given one: the migration does
    that, and writes nothing else of a key.) *)
Theorem revoked_key_stays_revoked (d d' : Db) (keyId : Id) (key : ApiKey) :
  rtc Transition d d' →
  apiKeys d !! keyId = Some key →
  ∃ key', apiKeys d' !! keyId = Some key'
    ∧ k_keyHash key' = k_keyHash key
    ∧ k_allowAutoPost key' = k_allowAutoPost key
    ∧ (∀ agentId, k_agentId key = Some agentId → k_agentId key' = Some agentId)
    ∧ (k_isRevoked key = true →
         k_isRevoked key' = true
         ∧ (answersFor d' (k_keyHash key) keyId →
              validateKey (k_keyHash key) d' = None)).
Proof.
  intros Hrtc. revert key.
  induction Hrtc as [d|d d1 d' Hstep _ IH]; intros key Hk.
  - exists key. split; [exact Hk|]. split; [reflexivity|].
    split; [reflexivity|]. split; [done|].
    intros Hrev. split; [exact Hrev|].
    intros Hans. unfold validateKey.
    by rewrite (keyByHash_answersFor _ _ _ _ Hk Hans), Hrev.
  - destruct (transition_key _ _ _ _ Hstep Hk) as (key1 & Hk1 & E1 & E2 & E3 & R1).
    destruct (IH key1 Hk1) as (key' & Hk' & F1 & F3 & F2 & R').
    exists key'. split; [exact Hk'|].
    rewrite <- E1, <- E2, <- E3.
    split; [exact F1|]. split; [exact F3|]. split; [exact F2|].
    intros Hrev. apply R', R1, Hrev.
Qed.

Lemma signedUpDb_key : apiKeys signedUpDb !! 0%nat = Some signedUpKey.
Proof. vm_compute. reflexivity. Qed.

Lemma signedUpDb_answers : answersFor signedUpDb (hashKey "molt_abc") 0%nat.
Proof.
  split; [exists signedUpKey; split; [apply signedUpDb_key | reflexivity]|].
  intros. lia.
Qed.

(** The key of a freshly signed-up agent authenticates; once its owner has
    revoked it, the same header is turned away. *)
Lemma revoke_locks_the_key_out_witness :
  (∃ auth, authenticateApiKey (Some "Bearer molt_abc") signedUpDb = inr auth)
  ∧ ∃ d', revoke (Some 0%nat) 0%nat signedUpDb = Ok d'
      ∧ authenticateApiKey (Some "Bearer molt_abc") d' = inl InvalidOrRevokedKey.
Proof.
  split; [eexists; vm_compute; reflexivity|].
  destruct (revoke_locks_the_key_out 0%nat 0%nat signedUpDb) as [_ H].
  destruct (H signedUpKey signedUpDb_key) as [_ Hown].
  destruct (Hown eq_refl)
    as (d' & key' & Hrev & _ & _ & _ & _ & _ & _ & _ & _ & Hlock).
  exists d'. split; [exact Hrev|].
  destruct (Hlock signedUpDb_answers) as [_ Hauth].
  exact (Hauth "molt_abc" eq_refl).
Defined.

(** The revoked key of [signedUpDb] is still revoked after a post has been
    made and swept. *)
Lemma revoked_key_stays_revoked_witness :
  ∃ key', apiKeys revokedLaterDb !! 0%nat = Some key' ∧ k_isRevoked key' = true.
Proof.
  destruct (revoked_key_stays_revoked revokedDb revokedLaterDb 0%nat
              (mkApiKey 0%nat (Some 0%nat) (hashKey "molt_abc") true (Some false)))
    as (key' & Hk' & _ & _ & _ & Hr').
  - eapply rtc_l; [apply t_postsRoute|]. apply rtc_once, t_processAutoPublish.
  - vm_compute. reflexivity.
  - exists key'. split; [exact Hk'|]. by apply Hr'.
Defined.

(** ** Base64 *)

Local Open Scope N_scope.

Lemma testbit_63 j : N.testbit 63 j = (j <? 6).
Proof.
  change 63 with (N.ones 6). destruct (N.ltb_spec j 6).
  - by apply N.ones_spec_low.
  - by apply N.ones_spec_high.
Qed.

Lemma testbit_255 j : N.testbit 255 j = (j <? 8).
Proof.
  change 255 with (N.ones 8). destruct (N.ltb_spec j 8).
  - by apply N.ones_spec_low.
  - by apply N.ones_spec_high.
Qed.

Lemma testbit_shiftl a n m :
  N.testbit (N.shiftl a n) m = (n <=? m) && N.testbit a (m - n).
Proof.
  destruct (N.leb_spec n m).
  - by rewrite N.shiftl_spec_high'.
  - by rewrite N.shiftl_spec_low.
Qed.

Lemma testbit_byte_high X j : X < 256 → 8 ≤ j → N.testbit X j = false.
Proof.
  intros HX Hj. rewrite <- (N.mod_small X (2 ^ 8)) by exact HX.
  by apply N.mod_pow2_bits_high.
Qed.

Lemma N_lt_8_cases i :
  i < 8 → i = 0 ∨ i = 1 ∨ i = 2 ∨ i = 3 ∨ i = 4 ∨ i = 5 ∨ i = 6 ∨ i = 7.
Proof. lia. Qed.

(** Bit by bit: the positions below 8 one at a time, and nothing above. *)
Ltac eval_closed :=
  repeat match goal with
  | |- context [N.testbit ?a ?e] =>
      let v := eval vm_compute in e in progress change e with v
  | |- context [N.leb ?a ?b] =>
      let v := eval vm_compute in (N.leb a b) in change (N.leb a b) with v
  | |- context [N.ltb ?a ?b] =>
      let v := eval vm_compute in (N.ltb a b) in change (N.ltb a b) with v
  end.

Ltac bits_step :=
  progress (rewrite ?N.land_spec, ?N.lor_spec, ?N.shiftr_spec', ?testbit_shiftl,
              ?testbit_63, ?testbit_255;
            eval_closed; cbn [andb orb]).

Ltac byte_bits HX HY HZ :=
  apply N.bits_inj; intros i;
  destruct (N.ltb_spec i 8) as [Hi|Hi];
  [ destruct (N_lt_8_cases i Hi) as [->|[->|[->|[->|[->|[->|[->| ->]]]]]]];
    repeat bits_step;
    rewrite ?(testbit_byte_high _ _ HX), ?(testbit_byte_high _ _ HY),
      ?(testbit_byte_high _ _ HZ) by (vm_compute; discriminate);
    rewrite ?andb_true_r, ?andb_false_r, ?orb_false_r, ?orb_false_l;
    try reflexivity
  | rewrite N.land_spec, testbit_255, (proj2 (N.ltb_ge i 8) Hi), andb_false_r;
    symmetry; by apply testbit_byte_high ].

Lemma decode_triple X Y Z :
  X < 256 → Y < 256 → Z < 256 →
  let n := N.lor (N.lor (N.shiftl X 16) (N.shiftl Y 8)) Z in
  let a := N.land (N.shiftr n 18) 63 in
  let b := N.land (N.shiftr n 12) 63 in
  let c := N.land (N.shiftr n 6) 63 in
  let d := N.land n 63 in
  let n' := N.lor (N.lor (N.shiftl a 18) (N.shiftl b 12)) (N.lor (N.shiftl c 6) d) in
  N.land (N.shiftr n' 16) 255 = X
  ∧ N.land (N.shiftr n' 8) 255 = Y
  ∧ N.land n' 255 = Z.
Proof.
  intros HX HY HZ n a b c d n'. subst n' a b c d n.
  split; [|split].
  - byte_bits HX HY HZ.
  - byte_bits HX HY HZ.
  - byte_bits HX HY HZ.
Qed.

Lemma decode_pair X Y :
  X < 256 → Y < 256 →
  let n := N.lor (N.shiftl X 16) (N.shiftl Y 8) in
  let a := N.land (N.shiftr n 18) 63 in
  let b := N.land (N.shiftr n 12) 63 in
  let c := N.land (N.shiftr n 6) 63 in
  let n' := N.lor (N.lor (N.shiftl a 12) (N.shiftl b 6)) c in
  N.land (N.shiftr n' 10) 255 = X ∧ N.land (N.shiftr n' 2) 255 = Y.
Proof.
  intros HX HY n a b c n'. subst n' a b c n.
  split.
  - byte_bits HX HY HY.
  - byte_bits HX HY HY.
Qed.

Lemma decode_single X :
  X < 256 →
  let n := N.shiftl X 16 in
  let a := N.land (N.shiftr n 18) 63 in
  let b := N.land (N.shiftr n 12) 63 in
  let n' := N.lor (N.shiftl a 6) b in
  N.land (N.shiftr n' 4) 255 = X.
Proof.
  intros HX n a b n'. subst n' a b n.
  byte_bits HX HX HX.
Qed.

Local Close Scope N_scope.

Lemma code_bounded (c : ascii) : (Js.code c < 256)%N.
Proof. apply N_ascii_bounded. Qed.

Lemma low_byte_code (m : N) (c : ascii) :
  N.land m 255 = Js.code c → low_byte m = c.
Proof. unfold low_byte. intros ->. apply ascii_N_embedding. Qed.

Lemma list_ind3 {A} (P : list A → Prop) :
  P [] → (∀ x, P [x]) → (∀ x y, P [x; y]) →
  (∀ x y z r, P r → P (x :: y :: z :: r)) →
  ∀ l, P l.
Proof.
  intros H0 H1 H2 H3 l.
  assert (H : P l ∧ (∀ x, P (x :: l)) ∧ (∀ x y, P (x :: y :: l))).
  { induction l as [|a l (IH0 & IH1 & IH2)]; [by repeat split|].
    split; [apply IH1|]. split; [intros x; apply IH2|].
    intros x y. by apply H3. }
  apply H.
Qed.

(** Decoding the sextets of a byte sequence gives the bytes back. *)
Lemma b64_decode_sextets (l : list ascii) : b64_decode (sextets l) = l.
Proof.
  induction l as [|x|x y|x y z r IH] using list_ind3.
  - reflexivity.
  - cbn [sextets b64_decode]. f_equal.
    apply low_byte_code, decode_single, code_bounded.
  - cbn [sextets b64_decode].
    destruct (decode_pair _ _ (code_bounded x) (code_bounded y)) as [Hx Hy].
    f_equal; [by apply low_byte_code|]. f_equal. by apply low_byte_code.
  - cbn [sextets b64_decode].
    destruct (decode_triple _ _ _ (code_bounded x) (code_bounded y) (code_bounded z))
      as (Hx & Hy & Hz).
    rewrite IH.
    f_equal; [by apply low_byte_code|].
    f_equal; [by apply low_byte_code|].
    f_equal. by apply low_byte_code.
Qed.


Lemma alphabet_ok : forallb alphabet_char_ok (seq 0 64) = true.
Proof. vm_compute. reflexivity. Qed.

Lemma b64_char_ok (n : N) :
  alphabet_char_ok (N.to_nat (N.land n 63)) = true.
Proof.
  pose proof alphabet_ok as H. rewrite forallb_forall in H. apply H.
  apply in_seq. split; [lia|].
  assert (N.land n 63 < 64)%N; [|lia].
  change 63%N with (N.ones 6). rewrite N.land_ones.
  apply N.mod_lt. discriminate.
Qed.

Lemma b64_char_facts (n : N) :
  let c := b64_char n in
  b64_value c = Some (N.land n 63)
  ∧ is_b64_space c = false
  ∧ c ≠ "="%char
  ∧ Js.replaceAll "/" "_" (Js.replaceAll "+" "-" (String c "")) ≠ "="
  ∧ fromBase64Url (Js.replaceAll "/" "_" (Js.replaceAll "+" "-" (String c "")))
    = String c "".
Proof.
  intros c. pose proof (b64_char_ok n) as H.
  unfold alphabet_char_ok in H. fold (b64_char n) in H. fold c in H.
  cbv zeta in H.
  repeat (apply andb_true_iff in H as [H ?]).
  apply bool_decide_eq_true in H. rewrite N2Nat.id in H.
  split; [exact H|].
  split; [by apply negb_true_iff|].
  split.
  { intros Heq. rewrite Heq in *. discriminate. }
  cbn [Js.replaceAll fromBase64Url].
  split.
  - intros [= Heq]. rewrite Heq in *. discriminate.
  - f_equal. by apply Ascii.eqb_eq.
Qed.

Lemma b64_char_land (m : N) : b64_char (N.land m 63) = b64_char m.
Proof. unfold b64_char. by rewrite <- N.land_assoc. Qed.

Lemma sextets_small (l : list ascii) : Forall (λ s, N.land s 63 = s) (sextets l).
Proof.
  assert (H : ∀ m, N.land (N.land m 63) 63 = N.land m 63)
    by (intros m; by rewrite <- N.land_assoc).
  induction l as [|x|x y|x y z r IH] using list_ind3; cbn [sextets];
    repeat constructor; auto.
Qed.

(** [b64_encode] writes the characters of the sextets, then the padding. *)
Lemma b64_encode_sextets (l : list ascii) :
  b64_encode l = (b64_char <$> sextets l) ++ padding l.
Proof.
  induction l as [|x|x y|x y z r IH] using list_ind3;
    cbn [b64_encode sextets padding fmap list_fmap app];
    rewrite ?b64_char_land; [reflexivity..|].
  by rewrite IH.
Qed.

Lemma sextets_shape (l : list ascii) :
  ∃ q, (length (sextets l) = 4 * q ∧ padding l = [])%nat
     ∨ (length (sextets l) = 4 * q + 3 ∧ padding l = ["="%char])%nat
     ∨ (length (sextets l) = 4 * q + 2 ∧ padding l = ["="%char; "="%char])%nat.
Proof.
  induction l as [|x|x y|x y z r [q IH]] using list_ind3.
  - exists 0%nat. by left.
  - exists 0%nat. right. by right.
  - exists 0%nat. right. by left.
  - exists (S q). cbn [sextets padding length].
    destruct IH as [[-> ->]|[[-> ->]|[-> ->]]];
      [left | right; left | right; right]; split; (lia || reflexivity).
Qed.

Lemma mod4_of (q j : nat) : (j < 4 → (4 * q + j) mod 4 = j)%nat.
Proof.
  intros Hj. rewrite Nat.add_comm, Nat.mul_comm, Nat.Div0.mod_add.
  by apply Nat.mod_small.
Qed.

Lemma strip_match_other (c : ascii) (r l : list ascii) :
  c ≠ "="%char →
  match c :: r with
  | "="%char :: "="%char :: r' => reverse r'
  | "="%char :: r' => reverse r'
  | _ => l
  end = l.
Proof.
  intros Hc. destruct c as [[] [] [] [] [] [] [] []]; try reflexivity.
  by destruct Hc.
Qed.

Lemma strip_match_one (c : ascii) (r l : list ascii) :
  c ≠ "="%char →
  match "="%char :: c :: r with
  | "="%char :: "="%char :: r' => reverse r'
  | "="%char :: r' => reverse r'
  | _ => l
  end = reverse (c :: r).
Proof.
  intros Hc. destruct c as [[] [] [] [] [] [] [] []]; try reflexivity.
  by destruct Hc.
Qed.

(** [strip_padding] on characters free of [=], alone or followed by the
    padding of a whole number of quadruples. *)
Lemma strip_padding_plain (body : list ascii) :
  Forall (λ c, c ≠ "="%char) body → strip_padding body = body.
Proof.
  intros Hall. unfold strip_padding.
  destruct (length body mod 4 =? 0)%nat; [|reflexivity].
  destruct (reverse body) as [|c r] eqn:Hr; [reflexivity|].
  apply strip_match_other.
  rewrite Forall_forall in Hall. apply Hall.
  apply elem_of_reverse. rewrite Hr. left.
Qed.

Lemma strip_padding_padded (body pad : list ascii) :
  Forall (λ c, c ≠ "="%char) body →
  (length (body ++ pad) mod 4 = 0)%nat →
  pad = [] ∨ (body ≠ [] ∧ (pad = ["="%char] ∨ pad = ["="%char; "="%char])) →
  strip_padding (body ++ pad) = body.
Proof.
  intros Hall Hlen [->|[Hne Hpad]].
  - rewrite app_nil_r. by apply strip_padding_plain.
  - unfold strip_padding. rewrite Hlen. cbn [Nat.eqb].
    assert (Hlast : ∃ c r, reverse body = c :: r ∧ c ≠ "="%char).
    { destruct (reverse body) as [|c r] eqn:Hr.
      - exfalso. apply Hne. rewrite <- (reverse_involutive body), Hr. reflexivity.
      - exists c, r. split; [reflexivity|].
        rewrite Forall_forall in Hall. apply Hall.
        apply elem_of_reverse. rewrite Hr. left. }
    destruct Hlast as (c & r & Hr & Hc).
    destruct Hpad as [-> | ->]; rewrite reverse_app.
    + change (reverse ["="%char]) with ["="%char]. cbn [app]. rewrite Hr.
      rewrite (strip_match_one c r (body ++ ["="%char]) Hc).
      by rewrite <- Hr, reverse_involutive.
    + change (reverse ["="%char; "="%char]) with ["="%char; "="%char].
      cbn [app]. by rewrite reverse_involutive.
Qed.

Lemma body_facts (l : list ascii) :
  Forall (λ c, c ≠ "="%char) (b64_char <$> sextets l)
  ∧ List.filter (λ c, negb (is_b64_space c)) (b64_char <$> sextets l)
    = b64_char <$> sextets l
  ∧ mapM b64_value (b64_char <$> sextets l) = Some (sextets l).
Proof.
  split; [|split].
  - apply Forall_fmap, Forall_forall. intros s _. apply b64_char_facts.
  - induction (sextets l) as [|s S IH]; [reflexivity|].
    rewrite fmap_cons. cbn [List.filter].
    destruct (b64_char_facts s) as (_ & Hs & _). cbv zeta in Hs.
    rewrite Hs. cbn [negb]. by rewrite IH.
  - apply mapM_fmap_Forall_Some. eapply Forall_impl; [apply sextets_small|].
    intros s Hs. cbn beta. destruct (b64_char_facts s) as (Hv & _).
    cbv zeta in Hv. by rewrite Hv, Hs.
Qed.

Lemma padding_not_space (l : list ascii) :
  List.filter (λ c, negb (is_b64_space c)) (padding l) = padding l.
Proof.
  destruct (sextets_shape l) as [q [[_ ->]|[[_ ->]|[_ ->]]]]; reflexivity.
Qed.

(** [atob] on the characters of a byte sequence, with or without their
    padding. *)
Lemma atob_sextets (l : list ascii) (pad : list ascii) :
  pad = [] ∨ pad = padding l →
  atob (string_of_list_ascii ((b64_char <$> sextets l) ++ pad))
  = Some (string_of_list_ascii l).
Proof.
  intros Hpad. unfold atob.
  rewrite list_ascii_of_string_of_list_ascii.
  destruct (body_facts l) as (Hne & Hfilter & HmapM).
  destruct (sextets_shape l) as [q Hshape].
  assert (Hf : List.filter (λ c, negb (is_b64_space c))
                 ((b64_char <$> sextets l) ++ pad)
               = (b64_char <$> sextets l) ++ pad).
  { rewrite List.filter_app, Hfilter. f_equal.
    destruct Hpad as [->| ->]; [reflexivity|apply padding_not_space]. }
  rewrite Hf.
  assert (Hstrip : strip_padding ((b64_char <$> sextets l) ++ pad)
                   = b64_char <$> sextets l).
  { destruct Hpad as [->| ->].
    - rewrite app_nil_r. by apply strip_padding_plain.
    - apply strip_padding_padded; [exact Hne | |].
      + rewrite length_app, length_fmap.
        destruct Hshape as [[-> ->]|[[-> ->]|[-> ->]]]; cbn [length].
        * apply (mod4_of q 0). lia.
        * replace (4 * q + 3 + 1)%nat with (4 * S q + 0)%nat by lia.
          apply mod4_of. lia.
        * replace (4 * q + 2 + 2)%nat with (4 * S q + 0)%nat by lia.
          apply mod4_of. lia.
      + destruct Hshape as [[_ ->]|[[Hl ->]|[Hl ->]]]; [by left|right..];
          (split; [|by auto]);
          intros Hnil; apply (f_equal length) in Hnil;
          rewrite length_fmap, Hl in Hnil; cbn in Hnil; lia. }
  rewrite Hstrip, length_fmap.
  assert (Hmod : (length (sextets l) mod 4 =? 1)%nat = false).
  { apply Nat.eqb_neq.
    destruct Hshape as [[-> _]|[[-> _]|[-> _]]].
    - rewrite <- (Nat.add_0_r (4 * q)), (mod4_of q 0); lia.
    - rewrite mod4_of; lia.
    - rewrite mod4_of; lia. }
  rewrite Hmod, HmapM. cbn. by rewrite b64_decode_sextets.
Qed.

Lemma strip_trailing_eq_cons (c : ascii) (r : string) :
  c ≠ "="%char → strip_trailing_eq (String c r) = String c (strip_trailing_eq r).
Proof.
  intros Hc. cbn [strip_trailing_eq].
  destruct (strip_trailing_eq r); [|reflexivity].
  by rewrite (proj2 (Ascii.eqb_neq c "=") Hc).
Qed.

Lemma toBase64Url_padding (l : list ascii) :
  toBase64Url (string_of_list_ascii (padding l)) = "".
Proof.
  destruct (sextets_shape l) as [q [[_ ->]|[[_ ->]|[_ ->]]]]; reflexivity.
Qed.

(** Base64url and back: the characters of the sextets, without padding. *)
Lemma fromBase64Url_toBase64Url (S : list N) (pad : list ascii) :
  toBase64Url (string_of_list_ascii pad) = "" →
  fromBase64Url (toBase64Url (string_of_list_ascii ((b64_char <$> S) ++ pad)))
  = string_of_list_ascii (b64_char <$> S).
Proof.
  intros Hpad. induction S as [|s S IH].
  - cbn [fmap list_fmap app]. by rewrite Hpad.
  - cbn [fmap list_fmap app string_of_list_ascii].
    destruct (b64_char_facts s) as (_ & _ & _ & Hurl & Hback).
    cbn [Js.replaceAll fromBase64Url] in Hurl, Hback.
    unfold toBase64Url in *. cbn [Js.replaceAll].
    rewrite strip_trailing_eq_cons by congruence.
    unfold fromBase64Url in *. cbn [Js.replaceAll].
    injection Hback as ->. f_equal. exact IH.
Qed.

(** X14.  Base64 round trip: [atob] undoes [btoa] on every string, and it
    also does so through base64url, that is after [+] and [/] have been
    replaced by [-] and [_] and the padding dropped (as the token
    generator does) and the two replacements undone (as the verifiers
    do), without the padding being restored. *)
Theorem base64_round_trip (s : string) :
  atob (btoa s) = Some s
  ∧ atob (fromBase64Url (toBase64Url (btoa s))) = Some s.
Proof.
  unfold btoa. rewrite b64_encode_sextets. split.
  - rewrite atob_sextets by (by right).
    by rewrite string_of_list_ascii_of_string.
  - rewrite fromBase64Url_toBase64Url by apply toBase64Url_padding.
    rewrite <- (app_nil_r (b64_char <$> _)).
    rewrite atob_sextets by (by left).
    by rewrite string_of_list_ascii_of_string.
Qed.

(** ** Strings, [split] and [parseInt] *)

Lemma append_assoc (a b c : string) : (a +:+ b) +:+ c = a +:+ (b +:+ c).
Proof.
  induction a as [|x a IH]; [reflexivity|].
  change ((String x a +:+ b) +:+ c) with (String x ((a +:+ b) +:+ c)).
  by rewrite IH.
Qed.

Lemma has_char_app c a b : has_char c (a +:+ b) = has_char c a || has_char c b.
Proof.
  induction a as [|x a IH]; [reflexivity|].
  change (String x a +:+ b) with (String x (a +:+ b)).
  cbn [has_char]. by rewrite IH, orb_assoc.
Qed.

Lemma split_no_sep sep s : has_char sep s = false → Js.split sep s = [s].
Proof.
  induction s as [|x s IH]; [reflexivity|].
  cbn [has_char Js.split]. intros [Hx Hs]%orb_false_iff.
  by rewrite Hx, (IH Hs).
Qed.

Lemma split_app sep a r :
  has_char sep a = false →
  Js.split sep (a +:+ String sep r) = a :: Js.split sep r.
Proof.
  induction a as [|x a IH].
  - intros _. change ("" +:+ String sep r) with (String sep r).
    cbn [Js.split]. by rewrite Ascii.eqb_refl.
  - cbn [has_char]. intros [Hx Ha]%orb_false_iff.
    change (String x a +:+ String sep r) with (String x (a +:+ String sep r)).
    cbn [Js.split]. by rewrite Hx, (IH Ha).
Qed.

(** Three fields without a colon, joined by colons, split into the three
    fields. *)
Lemma split_three a b c :
  has_char ":" a = false → has_char ":" b = false → has_char ":" c = false →
  Js.split ":" ((a +:+ ":" +:+ b) +:+ ":" +:+ c) = [a; b; c].
Proof.
  intros Ha Hb Hc.
  change (":" +:+ b) with (String ":" b). change (":" +:+ c) with (String ":" c).
  rewrite append_assoc.
  change (String ":" b +:+ String ":" c) with (String ":" (b +:+ String ":" c)).
  by rewrite (split_app _ _ _ Ha), (split_app _ _ _ Hb), (split_no_sep _ _ Hc).
Qed.

(** The decimal digit of a number below ten. *)
Lemma pretty_N_char_digit (x : N) :
  (x < 10)%N →
  Js.is_digit (pretty_N_char x) = true
  ∧ Z.of_N (Js.code (pretty_N_char x) - 48) = Z.of_N x.
Proof.
  intros Hx.
  assert (x = 0 ∨ x = 1 ∨ x = 2 ∨ x = 3 ∨ x = 4 ∨ x = 5 ∨ x = 6 ∨ x = 7
          ∨ x = 8 ∨ x = 9)%N as Hc by lia.
  repeat (destruct Hc as [-> | Hc]; [by split|]). subst. by split.
Qed.

(** [pretty_N_go x s] writes the decimal digits of [x] in front of [s]. *)
Lemma pretty_N_go_digits (x : N) : ∀ s,
  ∃ ds : string,
    pretty_N_go x s = ds +:+ s
    ∧ all_chars Js.is_digit ds = true
    ∧ (∀ rest, (∀ c r, rest = String c r → Js.is_digit c = false) →
         leading_digits (ds +:+ rest) = list_ascii_of_string ds)
    ∧ (∀ acc, foldl (λ acc c, 10 * acc + Z.of_N (Js.code c - 48)) acc
                (list_ascii_of_string ds)
              = acc * 10 ^ Z.of_nat (String.length ds) + Z.of_N x)
    ∧ ((0 < x)%N → ds ≠ "").
Proof.
  induction (N.lt_wf_0 x) as [x _ IH]. intros s.
  assert (x = 0 ∨ 0 < x)%N as [->|Hpos] by lia.
  - exists "". rewrite pretty_N_go_0. split; [reflexivity|]. split; [reflexivity|].
    split.
    { intros rest Hrest. change ("" +:+ rest) with rest.
      destruct rest as [|c r]; [reflexivity|].
      cbn [leading_digits]. by rewrite (Hrest c r eq_refl). }
    split; [intros acc; cbn; lia | lia].
  - rewrite pretty_N_go_step by exact Hpos.
    set (c := pretty_N_char (x `mod` 10)).
    destruct (pretty_N_char_digit (x `mod` 10)) as [Hdig Hval];
      [by apply N.mod_lt|]. fold c in Hdig, Hval.
    destruct (IH (x `div` 10)%N (N.div_lt x 10 Hpos eq_refl) (String c s))
      as (ds & Hgo & Hall & Hlead & Hfold & _).
    exists (ds +:+ String c ""). split.
    { rewrite Hgo, append_assoc. reflexivity. }
    assert (Hlist : list_ascii_of_string (ds +:+ String c "")
                    = list_ascii_of_string ds ++ [c]).
    { clear. induction ds as [|y ds IHd]; [reflexivity|].
      change (String y ds +:+ String c "") with (String y (ds +:+ String c "")).
      cbn [list_ascii_of_string]. by rewrite IHd. }
    assert (Hlen : String.length (ds +:+ String c "") = S (String.length ds)).
    { clear. induction ds as [|y ds IHd]; [reflexivity|].
      change (String y ds +:+ String c "") with (String y (ds +:+ String c "")).
      cbn [String.length]. by rewrite IHd. }
    split.
    { clear -Hall Hdig. induction ds as [|y ds IHd].
      - change ("" +:+ String c "") with (String c "").
        cbn [all_chars]. by rewrite Hdig.
      - change (String y ds +:+ String c "") with (String y (ds +:+ String c "")).
        cbn [all_chars] in *. apply andb_true_iff in Hall as [-> Hall].
        by rewrite IHd. }
    split.
    { intros rest Hrest. rewrite append_assoc.
      change (String c "" +:+ rest) with (String c rest).
      rewrite Hlist.
      clear -Hall Hdig Hrest. induction ds as [|y ds IHd].
      - change ("" +:+ String c rest) with (String c rest).
        cbn [leading_digits list_ascii_of_string app]. rewrite Hdig. f_equal.
        destruct rest as [|c' r]; [reflexivity|].
        cbn [leading_digits]. by rewrite (Hrest c' r eq_refl).
      - change (String y ds +:+ String c rest)
          with (String y (ds +:+ String c rest)).
        cbn [all_chars] in Hall. apply andb_true_iff in Hall as [Hy Hall].
        cbn [leading_digits list_ascii_of_string app]. rewrite Hy.
        f_equal. by apply IHd. }
    split.
    { intros acc. rewrite Hlist, foldl_app, Hfold, Hlen. cbn [foldl].
      rewrite Hval, Nat2Z.inj_succ, Z.pow_succ_r by lia.
      rewrite (N.div_mod x 10) at 3 by discriminate.
      rewrite N2Z.inj_add, N2Z.inj_mul. change (Z.of_N 10) with 10%Z. lia. }
    intros _. by destruct ds.
Qed.

(** [parseInt] reads a run of digits that ends the string or is followed by
    something that is not a digit. *)
Lemma parseInt_digits (ds rest : string) :
  ds ≠ "" → all_chars Js.is_digit ds = true →
  leading_digits (ds +:+ rest) = list_ascii_of_string ds →
  parseInt (ds +:+ rest) = Some (toNumber (digits_value (list_ascii_of_string ds)))
  ∧ parseInt ("-" +:+ ds +:+ rest)
    = Some (toNumber (- digits_value (list_ascii_of_string ds))).
Proof.
  intros Hne Hall Hlead.
  destruct ds as [|c ds]; [done|].
  cbn [all_chars] in Hall. apply andb_true_iff in Hall as [Hc Hall].
  change (String c ds +:+ rest) with (String c (ds +:+ rest)) in *.
  change ("-" +:+ String c (ds +:+ rest))
    with (String "-" (String c (ds +:+ rest))).
  unfold parseInt.
  cbn [Js.trimStart]. rewrite (digit_not_space c Hc).
  change (Js.is_space "-") with false. cbn match.
  split.
  - rewrite (digit_no_sign c _ _ _ _ Hc). rewrite Hlead.
    cbn [list_ascii_of_string]. do 2 f_equal; lia.
  - rewrite Hlead. cbn [list_ascii_of_string]. do 2 f_equal; lia.
Qed.

(** [parseInt] reads the decimal digits of an integer as the Number next
    to it. *)
Lemma parseInt_pretty (z : Z) :
  parseInt (pretty z) = Some (toNumber z) ∧ has_char ":" (pretty z) = false.
Proof.
  assert (Hpos : ∀ p : positive,
    ∃ ds : string, pretty (N.pos p) = ds ∧ ds ≠ ""
      ∧ all_chars Js.is_digit ds = true
      ∧ leading_digits (ds +:+ "") = list_ascii_of_string ds
      ∧ digits_value (list_ascii_of_string ds) = Z.pos p).
  { intros p. unfold pretty, pretty_N. rewrite decide_False by discriminate.
    destruct (pretty_N_go_digits (N.pos p) "") as (ds & Hgo & Hall & Hlead & Hfold & Hne).
    exists ds. rewrite Hgo.
    assert (Hnil : ∀ s : string, s +:+ "" = s).
    { clear. induction s as [|c s IH]; [reflexivity|].
      change (String c s +:+ "") with (String c (s +:+ "")). by rewrite IH. }
    split; [apply Hnil|]. split; [by apply Hne|]. split; [exact Hall|].
    split; [by apply Hlead|].
    unfold digits_value. rewrite Hfold. cbn. lia. }
  assert (Hcolon : ∀ ds, all_chars Js.is_digit ds = true → has_char ":" ds = false).
  { induction ds as [|c ds IH]; [reflexivity|].
    cbn [all_chars has_char]. intros [Hc Hall]%andb_true_iff.
    rewrite (IH Hall), orb_false_r.
    apply Ascii.eqb_neq. intros ->. discriminate Hc. }
  assert (Hnil : ∀ s : string, s +:+ "" = s).
  { clear. induction s as [|c s IH]; [reflexivity|].
    change (String c s +:+ "") with (String c (s +:+ "")). by rewrite IH. }
  destruct z as [|p|p].
  - by split.
  - destruct (Hpos p) as (ds & Hp & Hne & Hall & Hlead & Hval).
    change (pretty (Z.pos p)) with (pretty (N.pos p)). rewrite Hp.
    destruct (parseInt_digits ds "" Hne Hall Hlead) as [Hparse _].
    rewrite Hnil in Hparse. rewrite Hparse, Hval. by rewrite Hcolon.
  - destruct (Hpos p) as (ds & Hp & Hne & Hall & Hlead & Hval).
    change (pretty (Z.neg p)) with ("-" +:+ pretty (N.pos p)). rewrite Hp.
    destruct (parseInt_digits ds "" Hne Hall Hlead) as [_ Hparse].
    rewrite Hnil in Hparse. rewrite Hparse, Hval.
    split; [reflexivity|].
    change ("-" +:+ ds) with (String "-" ds). cbn [has_char].
    by rewrite Hcolon.
Qed.

(** ** Link tokens: generation and verification *)

Lemma constantTimeEqual_decide (a b : string) :
  constantTimeEqual a b = bool_decide (b = a).
Proof.
  destruct (constantTimeEqual a b) eqn:H.
  - apply constantTimeEqual_spec in H. by rewrite bool_decide_eq_true_2.
  - rewrite bool_decide_eq_false_2; [reflexivity|].
    intros ->. by rewrite (proj2 (constantTimeEqual_spec a a) eq_refl) in H.
Qed.

(** An integer up to [2^53] in size is printed as its decimal digits. *)
Lemma numberToString_safe (z : Z) :
  - two53 ≤ z ≤ two53 → numberToString z = pretty z.
Proof.
  intros Hz. unfold numberToString. rewrite (toNumber_safe _ Hz).
  unfold positiveToString.
  destruct (Z.ltb_spec z 0) as [Hneg|Hpos].
  - assert (Hle : (- z <=? two53) = true) by (apply Z.leb_le; lia).
    rewrite Hle. destruct z as [|p|p]; [lia..|]. reflexivity.
  - assert (Hle : (z <=? two53) = true) by (apply Z.leb_le; lia).
    by rewrite Hle.
Qed.

(** The text that a link token carries decodes and splits into its three
    fields under every secret. *)
Lemma verifyClaimToken_generated hmac (id : string) (expiresAt : Z) (sig secret' : string) :
  has_char ":" id = false → has_char ":" sig = false →
  - two53 ≤ expiresAt ≤ two53 →
  verifyClaimToken hmac
    (toBase64Url
       (btoa ((id +:+ ":" +:+ numberToString expiresAt) +:+ ":" +:+ sig))) secret'
  = expected ← hmac secret' (id +:+ ":" +:+ numberToString expiresAt);
    Some (mkVerified id (Integer expiresAt) (bool_decide (expected = sig))).
Proof.
  intros Hid Hsig Hsafe. rewrite (numberToString_safe _ Hsafe).
  destruct (parseInt_pretty expiresAt) as [Hparse Hcolon].
  rewrite (toNumber_safe _ Hsafe) in Hparse.
  rewrite (verifyClaimToken_fields hmac _ secret'
             ((id +:+ ":" +:+ pretty expiresAt) +:+ ":" +:+ sig)
             id (pretty expiresAt) sig).
  - rewrite Hparse. cbn.
    destruct (hmac secret' _) as [expected|]; cbn; [|reflexivity].
    by rewrite constantTimeEqual_decide.
  - apply (proj2 (base64_round_trip _)).
  - by apply split_three.
Qed.

(** X15.  A link token verifies.  Let the expiry be an integer of at most
    [2^53] in size (a time of the clock is), the request id without a
    colon, and the HMAC a string without a colon.  Then [verifyClaimToken]
    reads from the token of [generateClaimToken] the same id and expiry,
    valid under the secret it was made with; under any other secret it
    reads the same id and expiry, and is valid exactly when that secret
    gives the same signature. *)
Theorem link_token_round_trip
    (hmac : string → string → option string)
    (id : string) (expiresAt : Z) (secret sig : string) :
  has_char ":" id = false →
  - two53 ≤ expiresAt ≤ two53 →
  hmac secret (id +:+ ":" +:+ numberToString expiresAt) = Some sig →
  has_char ":" sig = false →
  ∃ token,
    generateClaimToken hmac id expiresAt secret = Some token
    ∧ verifyClaimToken hmac token secret
      = Some (mkVerified id (Integer expiresAt) true)
    ∧ ∀ secret',
        verifyClaimToken hmac token secret'
        = expected ← hmac secret' (id +:+ ":" +:+ numberToString expiresAt);
          Some (mkVerified id (Integer expiresAt) (bool_decide (expected = sig))).
Proof.
  intros Hid Hsafe Hmac Hsig.
  exists (toBase64Url
            (btoa ((id +:+ ":" +:+ numberToString expiresAt) +:+ ":" +:+ sig))).
  split.
  - unfold generateClaimToken. rewrite Hmac. reflexivity.
  - split; [|intros secret'; by apply verifyClaimToken_generated].
    rewrite (verifyClaimToken_generated hmac _ _ _ _ Hid Hsig Hsafe), Hmac. cbn.
    by rewrite bool_decide_eq_true_2.
Qed.

(** Beyond [2^53] the expiry that is read back need not be the one that
    was written: the digits of [2^53 + 1] are read as [2^53]. *)
Example expiry_beyond_safe_integers :
  parseInt (pretty (two53 + 1)) = Some (Integer two53)
  ∧ numberToString (two53 * 2 ^ 17) = "1.1805916207174113e+21".
Proof. vm_compute. by split. Qed.

(** The digits of a hexadecimal string. *)
Lemma hex_of_bytes_no_colon (bytes : list N) :
  has_char ":" (hex_of_bytes bytes) = false.
Proof.
  assert (Hd : ∀ n, Ascii.eqb (hex_digit n) ":" = false).
  { intros n. unfold hex_digit.
    assert (Hk : ∀ k : nat,
      Ascii.eqb (nth k (list_ascii_of_string "0123456789abcdef") "0"%char) ":"
      = false).
    { intros k. do 17 (destruct k as [|k]; [reflexivity|]). by destruct k. }
    apply Hk. }
  unfold hex_of_bytes. induction bytes as [|b bytes IH]; [reflexivity|].
  cbn [mbind list_bind app string_of_list_ascii has_char].
  by rewrite !Hd, IH.
Qed.

Lemma webCryptoHmac_Some (secret data : string) :
  secret ≠ "" →
  ∃ sig, webCryptoHmac secret data = Some sig ∧ has_char ":" sig = false.
Proof.
  intros Hne. unfold webCryptoHmac. rewrite bool_decide_eq_false_2 by exact Hne.
  eexists. split; [reflexivity|]. apply hex_of_bytes_no_colon.
Qed.

Lemma actionSecret_not_empty (env : option string) : actionSecret env ≠ "".
Proof.
  unfold actionSecret. destruct env as [s|]; [|discriminate].
  by case_bool_decide.
Qed.

(** The token of request ["req1"], valid until 604801000, under the
    default secret. *)
Lemma link_token_round_trip_witness :
  ∃ token,
    generateClaimToken webCryptoHmac "req1" 604801000 "dev-secret-change-in-prod"
      = Some token
    ∧ verifyClaimToken webCryptoHmac token "dev-secret-change-in-prod"
      = Some (mkVerified "req1" (Integer 604801000) true).
Proof.
  destruct (link_token_round_trip webCryptoHmac "req1" 604801000
              "dev-secret-change-in-prod"
              "ffcce2c8aeb5c7a5e6e65c430437d4fe2a384f43eca0fd33fadbdfeddb8901f9")
    as (token & Hgen & Hver & _).
  - reflexivity.
  - vm_compute. split; discriminate.
  - vm_compute. reflexivity.
  - reflexivity.
  - exists token. split; [exact Hgen | exact Hver].
Defined.

(** ** Claiming an agent *)

Lemma claimAgent_claimable now requestId humanUserId agentUserId apiKeyId d :
  claimable d requestId agentUserId apiKeyId →
  claimAgent now requestId humanUserId d
  = d' ← performClaimMigration now agentUserId humanUserId apiKeyId d;
    Some (inr d').
Proof.
  intros (request & agentUser & Hr & Hu & Hk & Hau & Habs).
  unfold claimAgent. rewrite Hr, Hu, Hk, Hau.
  rewrite bool_decide_eq_false_2; [reflexivity|].
  rewrite Habs. by intros [? ?].
Qed.

(** [claimAgent] on the linking path. *)
Lemma claimAgent_links now requestId humanUserId agentUserId apiKeyId agentId
    key agent d :
  claimable d requestId agentUserId apiKeyId →
  apiKeys d !! apiKeyId = Some key → k_agentId key = Some agentId →
  agents d !! agentId = Some agent →
  claimAgent now requestId humanUserId d
  = Some (inr (set_agents (insert agentId (linkedAgent now humanUserId agent)) d)).
Proof.
  intros Hc Hk Ha Hag.
  rewrite (claimAgent_claimable _ _ _ _ _ _ Hc).
  unfold performClaimMigration, linkAgentToHuman.
  rewrite Hk. cbn. rewrite Ha, Hag. reflexivity.
Qed.

(** X16.  Claiming an agent that has a record in [agents] only links it:
    the agent gets the claimant as [linkedUserId] with level review, and
    nothing else changes in any table, so no post, comment or like moves
    and the agent user is not marked as absorbed.  The claim can
    therefore be repeated: any later claim on the same request succeeds
    too and hands the agent to the new claimant. *)
Theorem link_claim_moves_nothing_and_repeats
    (now : Z) (requestId : string) (humanUserId agentUserId apiKeyId agentId : Id)
    (key : ApiKey) (agent : Agent) (d : Db) :
  claimable d requestId agentUserId apiKeyId →
  apiKeys d !! apiKeyId = Some key →
  k_agentId key = Some agentId →
  agents d !! agentId = Some agent →
  let d' := set_agents (insert agentId (linkedAgent now humanUserId agent)) d in
  claimAgent now requestId humanUserId d = Some (inr d')
  ∧ claimable d' requestId agentUserId apiKeyId
  ∧ ∀ now2 humanUserId2,
      claimAgent now2 requestId humanUserId2 d'
      = Some (inr (set_agents
                     (insert agentId
                        (linkedAgent now2 humanUserId2
                           (linkedAgent now humanUserId agent))) d')).
Proof.
  intros Hc Hk Ha Hag d'.
  split; [by apply (claimAgent_links _ _ _ agentUserId apiKeyId _ key)|].
  assert (Hc' : claimable d' requestId agentUserId apiKeyId).
  { destruct Hc as (request & agentUser & ?). by exists request, agentUser. }
  split; [exact Hc'|].
  intros now2 h2.
  apply (claimAgent_links _ _ _ agentUserId apiKeyId _ key);
    [exact Hc'|exact Hk|exact Ha|].
  apply lookup_insert_eq.
Qed.

Lemma link_claim_moves_nothing_and_repeats_witness :
  claimAgent 2000 "req1" 7%nat signedUpDb
  = Some (inr (set_agents
                 (insert 0%nat
                    (linkedAgent 2000 7%nat
                       (mkAgent "molty" None None None None 1000 1000)))
                 signedUpDb)).
Proof.
  apply (link_claim_moves_nothing_and_repeats 2000 "req1" 7%nat 0%nat 0%nat 0%nat
           signedUpKey (mkAgent "molty" None None None None 1000 1000) signedUpDb).
  - exists (mkRequest "verified" (Some 0%nat) (Some 0%nat) (Some 0%nat)
                     (Some 604801000)),
           (mkUser None None true None None 1000).
    repeat split; vm_compute; reflexivity.
  - vm_compute. reflexivity.
  - reflexivity.
  - vm_compute. reflexivity.
Defined.

(** X17.  Claiming a legacy agent (a key without a record in [agents])
    moves its content: the key, and every post, comment and like that the
    agent user owned, now belong to the claimant, each moved post
    remembers the agent user in [originalAgentUserId] and keeps its
    status, what others own is untouched, and the agent user is marked as
    absorbed into the claimant.  After that every further claim on the
    request is refused as already claimed. *)
Theorem legacy_claim_moves_content_once
    (now : Z) (requestId : string) (humanUserId agentUserId apiKeyId : Id)
    (key : ApiKey) (d : Db) :
  claimable d requestId agentUserId apiKeyId →
  apiKeys d !! apiKeyId = Some key →
  k_agentId key = None →
  ∃ d',
    claimAgent now requestId humanUserId d = Some (inr d')
    ∧ (∀ postId post, posts d !! postId = Some post →
         ∃ post', posts d' !! postId = Some post'
           ∧ p_status post' = p_status post
           ∧ p_agentId post' = p_agentId post
           ∧ (p_userId post = agentUserId →
                p_userId post' = humanUserId
                ∧ p_originalAgentUserId post' = Some agentUserId)
           ∧ (p_userId post ≠ agentUserId → post' = post))
    ∧ (∀ id c, comments d !! id = Some c →
         comments d' !! id
         = Some (if bool_decide (c_userId c = agentUserId)
                 then mkComment (c_postId c) (c_apiKeyId c) humanUserId else c))
    ∧ (∀ id l, commentLikes d !! id = Some l →
         commentLikes d' !! id
         = Some (if bool_decide (l_userId l = agentUserId)
                 then mkLike (l_commentId l) (l_apiKeyId l) humanUserId else l))
    ∧ (∃ key', apiKeys d' !! apiKeyId = Some key'
         ∧ k_userId key' = humanUserId ∧ k_keyHash key' = k_keyHash key
         ∧ k_isRevoked key' = k_isRevoked key)
    ∧ (∃ agentUser', users d' !! agentUserId = Some agentUser'
         ∧ u_absorbedInto agentUser' = Some humanUserId
         ∧ u_claimedAt agentUser' = Some now)
    ∧ agents d' = agents d
    ∧ ∀ now2 humanUserId2,
        claimAgent now2 requestId humanUserId2 d' = Some (inl ALREADY_CLAIMED).
Proof.
  intros Hc Hk Ha.
  rewrite (claimAgent_claimable _ _ _ _ _ _ Hc).
  destruct Hc as (request & agentUser & Hr & Hu & Hrk & Hau & Habs).
  unfold performClaimMigration. rewrite Hk. cbn. rewrite Ha, Hau. cbn.
  eexists. split; [reflexivity|]. cbn.
  split.
  { intros postId post Hp. rewrite lookup_fmap, Hp. cbn.
    eexists. split; [reflexivity|]. unfold migrate_post.
    case_bool_decide as Hown; cbn; repeat split; try done. }
  split.
  { intros id c Hcm. by rewrite lookup_fmap, Hcm. }
  split.
  { intros id l Hl. by rewrite lookup_fmap, Hl. }
  split.
  { eexists. split; [apply lookup_insert_eq|]. by repeat split. }
  split.
  { eexists. split; [apply lookup_insert_eq|]. by repeat split. }
  split; [reflexivity|].
  intros now2 h2. unfold claimAgent. cbn. rewrite Hr, Hu, Hrk.
  rewrite lookup_insert_eq.
  rewrite bool_decide_eq_true_2; [reflexivity|]. by eexists.
Qed.

(** The human (7) claims the legacy agent user (0): post 0 is now the
    human's, and a second claim is refused. *)
Lemma legacy_claim_moves_content_once_witness :
  ∃ d',
    claimAgent 2000 "old" 7%nat legacyDb = Some (inr d')
    ∧ (p_userId <$> posts d' !! 0%nat) = Some 7%nat
    ∧ claimAgent 3000 "old" 9%nat d' = Some (inl ALREADY_CLAIMED).
Proof.
  destruct (legacy_claim_moves_content_once 2000 "old" 7%nat 0%nat 2%nat
              (mkApiKey 0%nat None "h" false (Some false)) legacyDb)
    as (d' & Hclaim & Hposts & _ & _ & _ & _ & _ & Hagain).
  - exists (mkRequest "verified" (Some 0%nat) (Some 2%nat) None (Some 9000)),
           placeholder.
    repeat split; vm_compute; reflexivity.
  - vm_compute. reflexivity.
  - reflexivity.
  - exists d'. split; [exact Hclaim|]. split; [|apply Hagain].
    destruct (Hposts 0%nat (reviewPost 500 false)) as (post' & -> & _ & _ & Hown & _);
      [vm_compute; reflexivity|].
    cbn. f_equal. by apply Hown.
Defined.

Lemma verifyClaimToken_empty hmac secret : verifyClaimToken hmac "" secret = None.
Proof. reflexivity. Qed.

(** [claimAgentPublic] past the checks of the caller and of the token,
    when the token names a signup request. *)
Lemma claimAgentPublic_after_token
    hmac env decodeId now caller user token requestId expiresAt d :
  users d !! caller = Some user →
  u_isAgentCreated user = false →
  verifyClaimToken hmac token (actionSecret env)
    = Some (mkVerified requestId (Integer expiresAt) true) →
  now ≤ expiresAt →
  decodeId requestId = Some RequestRef →
  claimAgentPublic hmac env decodeId now (Some caller) token d
  = match claimAgent now requestId caller d with
    | Some (inr d') => Some (mkClaimResult true None, d')
    | Some (inl CLAIM_NOT_FOUND) => Some (rejected "invalid_token", d)
    | Some (inl ALREADY_CLAIMED) => Some (rejected "already_claimed", d)
    | None => None
    end.
Proof.
  intros Hu Hord Hver Hexp Hid.
  assert (Hlt : (expiresAt <? now) = false) by (apply Z.ltb_ge; lia).
  unfold claimAgentPublic, claimAgent. rewrite Hu, Hord, Hver. cbn.
  rewrite Hlt, Hid. cbn.
  destruct (agentSignupRequests d !! requestId) as [request|]; [|reflexivity].
  cbn.
  destruct (r_userId request) as [agentUserId|]; [|reflexivity].
  destruct (r_apiKeyId request) as [apiKeyId|]; [|reflexivity].
  destruct (users d !! agentUserId) as [agentUser|]; [|reflexivity].
  case_bool_decide; [reflexivity|].
  by destruct (performClaimMigration now agentUserId caller apiKeyId d).
Qed.

(** The GET route forwards a validly signed, unexpired token whose request
    names an agent user. *)
Lemma claimRoute_forwards
    hmac env decodeId now token requestId expiresAt request d :
  verifyClaimToken hmac token (actionSecret env)
    = Some (mkVerified requestId (Integer expiresAt) true) →
  now ≤ expiresAt →
  decodeId requestId = Some RequestRef →
  agentSignupRequests d !! requestId = Some request →
  is_Some (r_userId request) →
  claimRoute hmac env decodeId now (Some token) d = Some (ToClaimPage token).
Proof.
  intros Hver Hexp Hid Hr Hu.
  assert (Hlt : (expiresAt <? now) = false) by (apply Z.ltb_ge; lia).
  unfold claimRoute. rewrite bool_decide_eq_false_2.
  2:{ intros ->. by rewrite verifyClaimToken_empty in Hver. }
  rewrite Hver. cbn. rewrite Hlt, Hid, Hr. by rewrite bool_decide_eq_true_2.
Qed.

(** X18.  For a signed-in user who is not agent-created, holding a
    validly signed token that has not expired and that names a signup
    request, [claimAgentPublic] is [claimAgent] on that request: success
    with the same new state, [already_claimed] for ALREADY_CLAIMED and
    [invalid_token] for NOT_FOUND, both without a change.  Whenever it does
    not answer [invalid_token], the GET route for the same token at the
    same time forwards to the claim page.  (The id of the token is looked
    up in the table that the id names, so the id must be one of
    [agentSignupRequests] for this.) *)
Theorem claimAgentPublic_is_claimAgent
    (hmac : string → string → option string) (env : option string)
    (decodeId : string → option DocRef)
    (now : Z) (caller : Id) (user : User) (token requestId : string)
    (expiresAt : Z) (d : Db) :
  users d !! caller = Some user →
  u_isAgentCreated user = false →
  verifyClaimToken hmac token (actionSecret env)
    = Some (mkVerified requestId (Integer expiresAt) true) →
  now ≤ expiresAt →
  decodeId requestId = Some RequestRef →
  claimAgentPublic hmac env decodeId now (Some caller) token d
  = match claimAgent now requestId caller d with
    | Some (inr d') => Some (mkClaimResult true None, d')
    | Some (inl CLAIM_NOT_FOUND) => Some (rejected "invalid_token", d)
    | Some (inl ALREADY_CLAIMED) => Some (rejected "already_claimed", d)
    | None => None
    end
  ∧ (claimAgent now requestId caller d ≠ Some (inl CLAIM_NOT_FOUND) →
     claimRoute hmac env decodeId now (Some token) d = Some (ToClaimPage token)).
Proof.
  intros Hu Hord Hver Hexp Hid. split.
  - by apply (claimAgentPublic_after_token _ _ _ _ _ user _ _ expiresAt).
  - intros Hfound.
    destruct (agentSignupRequests d !! requestId) as [request|] eqn:Hr.
    + apply (claimRoute_forwards _ _ _ _ _ requestId expiresAt request); try done.
      revert Hfound. unfold claimAgent. rewrite Hr.
      destruct (r_userId request); [by eexists|done].
    + exfalso. apply Hfound. unfold claimAgent. by rewrite Hr.
Qed.

(** The human (7) claims the freshly signed-up agent with its link token
    at time 2000. *)
Lemma claimAgentPublic_is_claimAgent_witness :
  (∃ d', claimAgentPublic webCryptoHmac None requestIds 2000 (Some 7%nat)
           sampleLinkToken claimDb
         = Some (mkClaimResult true None, d'))
  ∧ claimRoute webCryptoHmac None requestIds 2000 (Some sampleLinkToken) claimDb
    = Some (ToClaimPage sampleLinkToken).
Proof.
  destruct (claimAgentPublic_is_claimAgent webCryptoHmac None requestIds 2000
              7%nat human sampleLinkToken "req1" 604801000 claimDb)
    as [Heq Hroute].
  - reflexivity.
  - reflexivity.
  - vm_compute. reflexivity.
  - lia.
  - reflexivity.
  - split.
    + rewrite Heq. eexists. vm_compute. reflexivity.
    + apply Hroute. vm_compute. discriminate.
Defined.

(** An id is looked up in the table it names.  On a platform that reads
    ["post0"] as the id of post 0, the validly signed token for ["post0"]
    hands to the human (7) what the author of that post, the legacy agent
    user 0, owns; the GET route fails on the same token. *)
Example token_that_names_a_post :
  (∃ d', claimAgentPublic webCryptoHmac None postIds 2000 (Some 7%nat)
           postToken legacyDb
         = Some (mkClaimResult true None, d')
       ∧ (p_userId <$> posts d' !! 0%nat) = Some 7%nat)
  ∧ claimRoute webCryptoHmac None postIds 2000 (Some postToken) legacyDb = None.
Proof. split; [eexists|]; vm_compute; by repeat split. Qed.
